(** * trip-short-link: protocol dispatcher, SOCKS5 shim and redirect handler

    A shallow embedding of [main.go] (the mixed HTTP + SOCKS5 revision):
    - the transport ([net.Conn], [bufio.Reader], [io.ReadFull]) and the
      [PeekConn] wrapper;
    - [handleSocks5Handshake] and [handleConnection];
    - [loadMappingsFromFile] and [handleRequest] with the parts of
      [net/url] and [net/http] they call;
    - [ChannelListener] under an interleaving semantics of goroutines.

    Go strings are byte strings and are modelled by [string]; byte slices
    are [list byte]; [int] lengths are [nat]. *)

From stdpp Require Import gmap strings list.
From Stdlib Require Strings.Byte.
From Stdlib Require Import Init.Byte Ascii Lia.


(** ** Errors *)

(** The [error] values the program can see.  [fmt.Errorf] is [Errorf] with
    a [%d] verb, [Errors] with a [%s] verb, [Errorw] with a [%w] verb and
    [ErrorNew] without verbs. *)
Inductive error : Type :=
  | EOF                                   (* io.EOF *)
  | ErrUnexpectedEOF                      (* io.ErrUnexpectedEOF *)
  | ErrNoProgress                         (* io.ErrNoProgress *)
  | ErrBufferFull                         (* bufio.ErrBufferFull *)
  | ErrClosed                             (* net.ErrClosed *)
  | ErrNet (reason : string)              (* any other error of the system *)
  | ErrorNew (text : string)
  | Errorf (format : string) (arg : nat)
  | Errors (format : string) (arg : string)
  | Errorw (format : string) (cause : error).

Definition is_EOF (e : error) : bool :=
  match e with EOF => true | _ => false end.

(** ** The transport: [net.Conn] *)

(** What the peer will send arrives in segments; a [Read] never crosses a
    segment boundary.  When the segments are used up [Read] reports
    [rx_end] ([EOF] after an orderly shutdown).  [tx] is the log of the
    writes the socket accepted, oldest first; [tx_budget] is the number of
    writes it will still accept ([None]: it never breaks). *)
Record Conn : Type := mkConn {
  rx : list (list byte);
  rx_end : error;
  tx : list (list byte);
  tx_budget : option nat
}.

(** A read on a socket never returns zero bytes without an error, so
    segments without data are skipped. *)
Fixpoint next_segment (segs : list (list byte))
  : option (list byte * list (list byte)) :=
  match segs with
  | [] => None
  | [] :: rest => next_segment rest
  | (b :: seg) :: rest => Some (b :: seg, rest)
  end.

(** [Conn_Read n c] is [c.Read(p)] with [len(p) = n]. *)
Definition Conn_Read (n : nat) (c : Conn) : list byte * option error * Conn :=
  match n with
  | 0 => ([], None, c)
  | S _ =>
      match next_segment (rx c) with
      | None => ([], Some (rx_end c), c)
      | Some (seg, rest) =>
          (take n seg, None,
           {| rx := drop n seg :: rest; rx_end := rx_end c;
              tx := tx c; tx_budget := tx_budget c |})
      end
  end.

(** [Conn_Write p c] is [c.Write(p)]. *)
Definition Conn_Write (p : list byte) (c : Conn) : nat * option error * Conn :=
  match tx_budget c with
  | Some 0 => (0, Some (ErrNet "broken pipe"), c)
  | Some (S k) =>
      (length p, None,
       {| rx := rx c; rx_end := rx_end c; tx := tx c ++ [p]; tx_budget := Some k |})
  | None =>
      (length p, None,
       {| rx := rx c; rx_end := rx_end c; tx := tx c ++ [p]; tx_budget := None |})
  end.

(** ** [PeekConn]: a [net.Conn] with a [bufio.Reader] in front of it *)

(** The reader and the embedded [net.Conn] share one socket.  Of the
    [bufio.Reader] we keep the bytes that are buffered and not yet read
    ([b.buf[b.r:b.w]]); its sticky error is always [nil] between two calls,
    because [Conn_Read] never returns data together with an error. *)
Record PeekConn : Type := mkPeekConn {
  pc_conn : Conn;
  pc_buffered : list byte
}.

Definition NewPeekConn (c : Conn) : PeekConn :=
  {| pc_conn := c; pc_buffered := [] |}.

Definition defaultBufSize : nat := 4096.

(** [bufio.Reader.fill]: one read into the free part of the buffer. *)
Definition fill (c : PeekConn) : option error * PeekConn :=
  let '(data, err, raw) :=
    Conn_Read (defaultBufSize - length (pc_buffered c)) (pc_conn c) in
  let c' := {| pc_conn := raw; pc_buffered := pc_buffered c ++ data |} in
  match err, data with
  | Some e, _ => (Some e, c')
  | None, [] => (Some ErrNoProgress, c')
  | None, _ :: _ => (None, c')
  end.

(** The loop of [bufio.Reader.Peek]; every round that does not fail adds
    a byte, so [n] rounds are enough. *)
Fixpoint Peek_loop (fuel n : nat) (c : PeekConn) : option error * PeekConn :=
  if (length (pc_buffered c) <? n) && (length (pc_buffered c) <? defaultBufSize) then
    match fuel with
    | 0 => (Some ErrNoProgress, c)
    | S fuel' =>
        match fill c with
        | (Some e, c') => (Some e, c')
        | (None, c') => Peek_loop fuel' n c'
        end
    end
  else (None, c).

(** [PeekConn_Peek n c] is [c.Peek(n)], that is [c.r.Peek(n)].  A request
    for more than the buffer holds is answered with what is buffered and
    [bufio.ErrBufferFull], whatever the reading met. *)
Definition PeekConn_Peek (n : nat) (c : PeekConn)
  : list byte * option error * PeekConn :=
  let '(err, c') := Peek_loop n n c in
  if defaultBufSize <? n then (pc_buffered c', Some ErrBufferFull, c')
  else if length (pc_buffered c') <? n then
    (pc_buffered c', Some (default ErrBufferFull err), c')
  else (take n (pc_buffered c'), None, c').

(** [PeekConn_Read n c] is [c.Read(p)] with [len(p) = n], that is
    [c.r.Read(p)]. *)
Definition PeekConn_Read (n : nat) (c : PeekConn)
  : list byte * option error * PeekConn :=
  match n, pc_buffered c with
  | 0, _ => ([], None, c)
  | S _, [] =>
      if defaultBufSize <=? n then
        let '(data, err, raw) := Conn_Read n (pc_conn c) in
        (data, err, {| pc_conn := raw; pc_buffered := [] |})
      else
        let '(data, err, raw) := Conn_Read defaultBufSize (pc_conn c) in
        match data with
        | [] => ([], err, {| pc_conn := raw; pc_buffered := [] |})
        | _ :: _ =>
            (take n data, None, {| pc_conn := raw; pc_buffered := drop n data |})
        end
  | S _, _ :: _ =>
      (take n (pc_buffered c), None,
       {| pc_conn := pc_conn c; pc_buffered := drop n (pc_buffered c) |})
  end.

(** [PeekConn] embeds [net.Conn], so [c.Write] is the socket's. *)
Definition PeekConn_Write (p : list byte) (c : PeekConn)
  : nat * option error * PeekConn :=
  let '(n, err, raw) := Conn_Write p (pc_conn c) in
  (n, err, {| pc_conn := raw; pc_buffered := pc_buffered c |}).

(** [io.ReadAtLeast] with [min = len(buf) = want + length got]; [got] is
    what the earlier rounds stored.  A [PeekConn] delivers a byte or an
    error in every round, so [want] rounds are enough. *)
Fixpoint ReadAtLeast (fuel want : nat) (got : list byte) (c : PeekConn)
  : list byte * option error * PeekConn :=
  match want, fuel with
  | 0, _ => (got, None, c)
  | S _, 0 => (got, Some ErrNoProgress, c)
  | S _, S fuel' =>
      let '(data, err, c') := PeekConn_Read want c in
      let got' := got ++ data in
      match err with
      | None => ReadAtLeast fuel' (want - length data) got' c'
      | Some e =>
          if want <=? length data then (got', None, c')
          else
            match got' with
            | [] => (got', Some e, c')
            | _ :: _ =>
                (got', Some (if is_EOF e then ErrUnexpectedEOF else e), c')
            end
      end
  end.

(** [io_ReadFull n c] is [io.ReadFull(c, p)] with [len(p) = n]. *)
Definition io_ReadFull (n : nat) (c : PeekConn)
  : list byte * option error * PeekConn :=
  ReadAtLeast n n [] c.

(** The bytes a connection will still deliver, in order. *)
Definition stream (c : PeekConn) : list byte :=
  pc_buffered c ++ concat (rx (pc_conn c)).

(** ** Effects of the handshake *)

(** A call returns a value, returns a non-nil [error], or panics (a slice
    or index out of range). *)
Inductive outcome (A : Type) : Type :=
  | Done (a : A)
  | Raise (e : error)
  | Panic.
Arguments Done {A} a.
Arguments Raise {A} e.
Arguments Panic {A}.

(** The state the handshake threads through its calls: the connection, and
    the lengths of the slices handed to [io.ReadFull] so far (oldest first;
    bookkeeping of the model, the program keeps no such list). *)
Record world : Type := mkWorld {
  w_conn : PeekConn;
  w_slices : list nat
}.

Definition io (A : Type) : Type := world → outcome A * world.

#[global] Instance io_ret : MRet io := λ A a w, (Done a, w).

#[global] Instance io_bind : MBind io := λ A B k m w,
  match m w with
  | (Done a, w') => k a w'
  | (Raise e, w') => (Raise e, w')
  | (Panic, w') => (Panic, w')
  end.

Definition raise {A} (e : error) : io A := λ w, (Raise e, w).

(** [fmt.Errorf(format, err)] around a failing call. *)
Definition wrap {A} (format : string) (m : io A) : io A := λ w,
  match m w with
  | (Raise e, w') => (Raise (Errorw format e), w')
  | r => r
  end.

(** [buf[i]]: panics when [i] is not below [len(buf)]. *)
Definition index (buf : list byte) (i : nat) : io byte := λ w,
  match buf !! i with
  | Some b => (Done b, w)
  | None => (Panic, w)
  end.

(** [io.ReadFull(conn, buf[:n])]: the slice expression panics when [n]
    exceeds [cap(buf)]; the result is [buf] after the call. *)
Definition ReadFull_slice (buf : list byte) (n : nat) : io (list byte) := λ w,
  if n <=? length buf then
    let '(data, err, c') := io_ReadFull n (w_conn w) in
    let w' := {| w_conn := c'; w_slices := w_slices w ++ [n] |} in
    match err with
    | Some e => (Raise e, w')
    | None => (Done (data ++ drop (length data) buf), w')
    end
  else (Panic, w).

(** [conn.Write(p)]. *)
Definition Write_all (p : list byte) : io unit := λ w,
  let '(_, err, c') := PeekConn_Write p (w_conn w) in
  let w' := {| w_conn := c'; w_slices := w_slices w |} in
  match err with
  | Some e => (Raise e, w')
  | None => (Done tt, w')
  end.

(** ** [handleSocks5Handshake] *)

(** 1. Client greeting: version, number of methods, methods. *)
Definition clientGreeting (buf : list byte) : io (list byte) :=
  buf ← wrap "read greeting header: %w" (ReadFull_slice buf 2);
  b0 ← index buf 0;
  if negb (Byte.eqb b0 x05) then
    raise (Errorf "unsupported version: %d" (Byte.to_nat b0))
  else
    b1 ← index buf 1;
    let nMethods := Byte.to_nat b1 in
    wrap "read methods: %w" (ReadFull_slice buf nMethods).

(** 2. Server choice: no authentication. *)
Definition serverChoice : io unit :=
  wrap "write choice: %w" (Write_all [x05; x00]).

(** 3. Client request: version, command, reserved, address type, address,
    port. *)
Definition clientRequest (buf : list byte) : io (list byte) :=
  buf ← wrap "read request header: %w" (ReadFull_slice buf 4);
  cmd ← index buf 1;
  if negb (Byte.eqb cmd x01) then
    raise (Errorf "unsupported command: %d" (Byte.to_nat cmd))
  else
    atyp ← index buf 3;
    buf ← match atyp with
          | x01 => ReadFull_slice buf 4
          | x03 =>
              buf ← ReadFull_slice buf 1;
              b0 ← index buf 0;
              let addrLen := Byte.to_nat b0 in
              ReadFull_slice buf addrLen
          | x04 => ReadFull_slice buf 16
          | _ => raise (Errorf "unsupported address type: %d" (Byte.to_nat atyp))
          end;
    ReadFull_slice buf 2.

(** 4. Server reply: succeeded, bound to 0.0.0.0:0. *)
Definition response : list byte :=
  [x05; x00; x00; x01; x00; x00; x00; x00; x00; x00].

Definition serverReply : io unit :=
  wrap "write reply: %w" (Write_all response).

Definition handleSocks5Handshake : io unit :=
  let buf := replicate 258 x00 in
  buf ← clientGreeting buf;
  serverChoice;;
  buf ← clientRequest buf;
  serverReply.

(** ** [handleConnection] *)

(** Which case of the final [select] the runtime takes: the send on
    [httpListener.conns] or the receive on [httpListener.closed]. *)
Inductive select_case : Type := case_send | case_closed.

(** What became of the connection: handed to the HTTP server, closed by
    [conn.Close()], or the goroutine panicked. *)
Inductive disposition : Type :=
  | Forwarded (c : PeekConn)
  | Closed (c : PeekConn)
  | Crashed.

Definition handleConnection (rawConn : Conn) (sel : select_case) : disposition :=
  let conn := NewPeekConn rawConn in
  let '(head, err, conn) := PeekConn_Peek 1 conn in
  match err with
  | Some _ => Closed conn
  | None =>
      match head !! 0 with
      | None => Crashed
      | Some h =>
          let '(r, w) :=
            if Byte.eqb h x05 then
              handleSocks5Handshake {| w_conn := conn; w_slices := [] |}
            else (Done tt, {| w_conn := conn; w_slices := [] |}) in
          match r with
          | Raise _ => Closed (w_conn w)
          | Panic => Crashed
          | Done _ =>
              match sel with
              | case_send => Forwarded (w_conn w)
              | case_closed => Closed (w_conn w)
              end
          end
      end
  end.

(** Reading a connection to its end with reads of [n] bytes, as the HTTP
    server does with the connection it accepts: the bytes delivered and
    the error that ended them. *)
Fixpoint ReadAll (fuel n : nat) (c : PeekConn) : list byte * error :=
  match fuel with
  | 0 => ([], ErrNoProgress)
  | S fuel' =>
      let '(data, err, c') := PeekConn_Read n c in
      match err with
      | Some e => (data, e)
      | None => let '(more, e) := ReadAll fuel' n c' in (data ++ more, e)
      end
  end.

(** ** Package [strings] *)

(** Separators and substrings are not empty wherever the program calls
    these functions, and only that case is modelled.  [None] stands for the
    index [-1]. *)

Definition strlen (s : string) : nat := String.length s.

Fixpoint str_take (n : nat) (s : string) : string :=
  match n, s with
  | S n', String c s' => String c (str_take n' s')
  | _, _ => EmptyString
  end.

Fixpoint str_drop (n : nat) (s : string) : string :=
  match n, s with
  | S n', String _ s' => str_drop n' s'
  | _, _ => s
  end.

Fixpoint str_all (p : ascii → bool) (s : string) : bool :=
  match s with
  | EmptyString => true
  | String c s' => p c && str_all p s'
  end.

Fixpoint HasPrefix (s prefix : string) : bool :=
  match prefix, s with
  | EmptyString, _ => true
  | String p prefix', String c s' => Ascii.eqb c p && HasPrefix s' prefix'
  | String _ _, EmptyString => false
  end.

Definition HasSuffix (s suffix : string) : bool :=
  (strlen suffix <=? strlen s)
  && String.eqb (str_drop (strlen s - strlen suffix) s) suffix.

Fixpoint Index (s substr : string) : option nat :=
  if HasPrefix s substr then Some 0
  else match s with
       | EmptyString => None
       | String _ s' => S <$> Index s' substr
       end.

Fixpoint LastIndex (s substr : string) : option nat :=
  match s with
  | EmptyString => if HasPrefix s substr then Some 0 else None
  | String _ s' =>
      match LastIndex s' substr with
      | Some i => Some (S i)
      | None => if HasPrefix s substr then Some 0 else None
      end
  end.

Definition Contains (s substr : string) : bool :=
  match Index s substr with Some _ => true | None => false end.

(** [skip] bytes of a match found earlier are still to be passed over. *)
Fixpoint Count_from (skip : nat) (s substr : string) : nat :=
  match s, skip with
  | EmptyString, _ => 0
  | String _ s', S k => Count_from k s' substr
  | String _ s', 0 =>
      if HasPrefix s substr then S (Count_from (strlen substr - 1) s' substr)
      else Count_from 0 s' substr
  end.

Definition Count (s substr : string) : nat := Count_from 0 s substr.

Definition Cut (s sep : string) : string * string * bool :=
  match Index s sep with
  | Some i => (str_take i s, str_drop (i + strlen sep) s, true)
  | None => (s, EmptyString, false)
  end.

Fixpoint Split_from (skip : nat) (s sep : string) : list string :=
  match s, skip with
  | EmptyString, _ => [EmptyString]
  | String _ s', S k => Split_from k s' sep
  | String c s', 0 =>
      if HasPrefix s sep then EmptyString :: Split_from (strlen sep - 1) s' sep
      else match Split_from 0 s' sep with
           | piece :: pieces => String c piece :: pieces
           | [] => [String c EmptyString]
           end
  end.

Definition Split (s sep : string) : list string := Split_from 0 s sep.

Fixpoint TrimLeft (s cutset : string) : string :=
  match s with
  | EmptyString => EmptyString
  | String c s' =>
      if Contains cutset (String c EmptyString) then TrimLeft s' cutset else s
  end.

Fixpoint TrimRight (s cutset : string) : string :=
  match s with
  | EmptyString => EmptyString
  | String c s' =>
      match TrimRight s' cutset with
      | EmptyString =>
          if Contains cutset (String c EmptyString) then EmptyString
          else String c EmptyString
      | t => String c t
      end
  end.

Fixpoint ReplaceAll_from (skip : nat) (s old new : string) : string :=
  match s, skip with
  | EmptyString, _ => EmptyString
  | String _ s', S k => ReplaceAll_from k s' old new
  | String c s', 0 =>
      if HasPrefix s old then new +:+ ReplaceAll_from (strlen old - 1) s' old new
      else String c (ReplaceAll_from 0 s' old new)
  end.

Definition ReplaceAll (s old new : string) : string := ReplaceAll_from 0 s old new.

Definition in_range (lo hi c : ascii) : bool :=
  Ascii.leb lo c && Ascii.leb c hi.
Arguments in_range (lo hi c)%_char_scope.

Definition is_ascii (c : ascii) : bool := Ascii.ltb c (Ascii.ascii_of_nat 128).

Definition lower_byte (c : ascii) : ascii :=
  if in_range "A" "Z" c then Ascii.ascii_of_nat (Ascii.nat_of_ascii c + 32) else c.

(** [strings.ToLower] on ASCII text, which is what host names and schemes
    are; bytes from 0x80 on are left as they are (Go maps the code points
    they encode through the Unicode tables). *)
Fixpoint ToLower (s : string) : string :=
  match s with
  | EmptyString => EmptyString
  | String c s' => String (lower_byte c) (ToLower s')
  end.

(** ** Package [net/url] (Go 1.21, the toolchain of the Dockerfile) *)

Inductive encoding : Type :=
  | encodePath
  | encodePathSegment
  | encodeHost
  | encodeZone
  | encodeUserPassword
  | encodeQueryComponent
  | encodeFragment.

Definition dquote : ascii := ascii_of_nat 34.
Definition squote : ascii := ascii_of_nat 39.

Definition one_of (set : list ascii) (c : ascii) : bool :=
  existsb (Ascii.eqb c) set.

Definition is_alpha (c : ascii) : bool := in_range "a" "z" c || in_range "A" "Z" c.
Definition is_digit (c : ascii) : bool := in_range "0" "9" c.

Definition ishex (c : ascii) : bool :=
  in_range "0" "9" c || in_range "a" "f" c || in_range "A" "F" c.

Definition unhex (c : ascii) : nat :=
  if in_range "0" "9" c then nat_of_ascii c - 48
  else if in_range "a" "f" c then nat_of_ascii c - 97 + 10
  else if in_range "A" "F" c then nat_of_ascii c - 65 + 10
  else 0.

Definition is_host_mode (mode : encoding) : bool :=
  match mode with encodeHost | encodeZone => true | _ => false end.

Definition shouldEscape (c : ascii) (mode : encoding) : bool :=
  if is_alpha c || is_digit c then false
  else if is_host_mode mode
          && one_of ["!"; "$"; "&"; squote; "("; ")"; "*"; "+"; ","; ";"; "=";
                     ":"; "["; "]"; "<"; ">"; dquote]%char c
  then false
  else if one_of ["-"; "_"; "."; "~"]%char c then false
  else if one_of ["$"; "&"; "+"; ","; "/"; ":"; ";"; "="; "?"; "@"]%char c then
    match mode with
    | encodePath => Ascii.eqb c "?"
    | encodePathSegment => one_of ["/"; ";"; ","; "?"]%char c
    | encodeUserPassword => one_of ["@"; "/"; "?"; ":"]%char c
    | encodeQueryComponent => true
    | encodeFragment => false
    | encodeHost | encodeZone => true
    end
  else match mode with
       | encodeFragment => negb (one_of ["!"; "("; ")"; "*"]%char c)
       | _ => true
       end.

Definition upperhex (n : nat) : ascii :=
  nth n ["0"; "1"; "2"; "3"; "4"; "5"; "6"; "7"; "8"; "9";
         "A"; "B"; "C"; "D"; "E"; "F"]%char "0"%char.

Definition is_query_mode (mode : encoding) : bool :=
  match mode with encodeQueryComponent => true | _ => false end.

Fixpoint escape (s : string) (mode : encoding) : string :=
  match s with
  | EmptyString => EmptyString
  | String c s' =>
      if shouldEscape c mode then
        if Ascii.eqb c " " && is_query_mode mode then String "+" (escape s' mode)
        else String "%" (String (upperhex (nat_of_ascii c / 16))
                         (String (upperhex (nat_of_ascii c mod 16)) (escape s' mode)))
      else String c (escape s' mode)
  end.

(** [unescape]: [None] is an [EscapeError] or [InvalidHostError]. *)
Fixpoint unescape (s : string) (mode : encoding) : option string :=
  match s with
  | EmptyString => Some EmptyString
  | String c s' =>
      if Ascii.eqb c "%" then
        match s' with
        | String h1 (String h2 s'') =>
            if negb (ishex h1 && ishex h2) then None
            else if match mode with encodeHost => true | _ => false end
                    && (unhex h1 <? 8)
                    && negb (Ascii.eqb h1 "2" && Ascii.eqb h2 "5")
            then None
            else if match mode with encodeZone => true | _ => false end
                    && negb (Ascii.eqb h1 "2" && Ascii.eqb h2 "5")
                    && negb (unhex h1 * 16 + unhex h2 =? 32)
                    && shouldEscape (ascii_of_nat (unhex h1 * 16 + unhex h2)) encodeHost
            then None
            else String (ascii_of_nat (unhex h1 * 16 + unhex h2)) <$> unescape s'' mode
        | _ => None
        end
      else if Ascii.eqb c "+" then
        String (if is_query_mode mode then " "%char else "+"%char) <$> unescape s' mode
      else if is_host_mode mode && is_ascii c && shouldEscape c encodeHost then None
      else String c <$> unescape s' mode
  end.

Record Userinfo : Type := mkUserinfo {
  username : string;
  password : string;
  passwordSet : bool
}.

Record URL : Type := mkURL {
  Scheme : string;
  Opaque : string;
  User : option Userinfo;
  Host : string;
  Path : string;
  RawPath : string;
  OmitHost : bool;
  ForceQuery : bool;
  RawQuery : string;
  Fragment : string;
  RawFragment : string
}.

Definition emptyURL : URL :=
  {| Scheme := EmptyString; Opaque := EmptyString; User := None;
     Host := EmptyString; Path := EmptyString; RawPath := EmptyString;
     OmitHost := false; ForceQuery := false; RawQuery := EmptyString;
     Fragment := EmptyString; RawFragment := EmptyString |}.

Definition is_empty (s : string) : bool :=
  match s with EmptyString => true | _ => false end.

(** The scan of [getScheme]: no scheme, an error, or the index of the
    colon that ends the scheme. *)
Inductive scheme_scan : Type :=
  | NoScheme
  | MissingScheme
  | SchemeEnds (i : nat).

Fixpoint getScheme_scan (i : nat) (s : string) : scheme_scan :=
  match s with
  | EmptyString => NoScheme
  | String c s' =>
      if is_alpha c then getScheme_scan (S i) s'
      else if is_digit c || one_of ["+"; "-"; "."]%char c then
        if i =? 0 then NoScheme else getScheme_scan (S i) s'
      else if Ascii.eqb c ":" then
        if i =? 0 then MissingScheme else SchemeEnds i
      else NoScheme
  end.

Definition getScheme (rawURL : string) : option (string * string) :=
  match getScheme_scan 0 rawURL with
  | NoScheme => Some (EmptyString, rawURL)
  | MissingScheme => None
  | SchemeEnds i => Some (str_take i rawURL, str_drop (S i) rawURL)
  end.

Definition stringContainsCTLByte (s : string) : bool :=
  negb (str_all (λ b, negb (Ascii.ltb b " " || Ascii.eqb b (ascii_of_nat 127))) s).

Definition validOptionalPort (port : string) : bool :=
  match port with
  | EmptyString => true
  | String c digits => Ascii.eqb c ":" && str_all is_digit digits
  end.

Definition validUserinfo (s : string) : bool :=
  str_all (λ r, is_alpha r || is_digit r
                || one_of ["-"; "."; "_"; ":"; "~"; "!"; "$"; "&"; squote; "(";
                           ")"; "*"; "+"; ","; ";"; "="; "%"; "@"]%char r) s.

Definition parseHost (host : string) : option string :=
  if HasPrefix host "[" then
    match LastIndex host "]" with
    | None => None
    | Some i =>
        if negb (validOptionalPort (str_drop (S i) host)) then None
        else
          match Index (str_take i host) "%25" with
          | Some zone =>
              host1 ← unescape (str_take zone host) encodeHost;
              host2 ← unescape (str_drop zone (str_take i host)) encodeZone;
              host3 ← unescape (str_drop i host) encodeHost;
              Some (host1 +:+ host2 +:+ host3)
          | None => unescape host encodeHost
          end
    end
  else
    match LastIndex host ":" with
    | Some i =>
        if negb (validOptionalPort (str_drop i host)) then None
        else unescape host encodeHost
    | None => unescape host encodeHost
    end.

Definition parseAuthority (authority : string) : option (option Userinfo * string) :=
  match LastIndex authority "@" with
  | None => host ← parseHost authority; Some (None, host)
  | Some i =>
      host ← parseHost (str_drop (S i) authority);
      let userinfo := str_take i authority in
      if negb (validUserinfo userinfo) then None
      else if negb (Contains userinfo ":") then
        userinfo ← unescape userinfo encodeUserPassword;
        Some (Some {| username := userinfo; password := EmptyString;
                      passwordSet := false |}, host)
      else
        let '(name, pass, _) := Cut userinfo ":" in
        name ← unescape name encodeUserPassword;
        pass ← unescape pass encodeUserPassword;
        Some (Some {| username := name; password := pass; passwordSet := true |},
              host)
  end.

(** [u.setPath(p)] on a URL whose other fields are given. *)
Definition setPath (u : URL) (p : string) : option URL :=
  path ← unescape p encodePath;
  Some {| Scheme := Scheme u; Opaque := Opaque u; User := User u; Host := Host u;
          Path := path;
          RawPath := if String.eqb p (escape path encodePath) then EmptyString else p;
          OmitHost := OmitHost u; ForceQuery := ForceQuery u;
          RawQuery := RawQuery u; Fragment := Fragment u;
          RawFragment := RawFragment u |}.

Definition setFragment (u : URL) (f : string) : option URL :=
  frag ← unescape f encodeFragment;
  Some {| Scheme := Scheme u; Opaque := Opaque u; User := User u; Host := Host u;
          Path := Path u; RawPath := RawPath u;
          OmitHost := OmitHost u; ForceQuery := ForceQuery u;
          RawQuery := RawQuery u; Fragment := frag;
          RawFragment := if String.eqb f (escape frag encodeFragment)
                         then EmptyString else f |}.

(** [parse(rawURL, viaRequest)]; [None] is a non-nil error. *)
Definition parse (rawURL : string) (viaRequest : bool) : option URL :=
  if stringContainsCTLByte rawURL then None
  else if is_empty rawURL && viaRequest then None
  else if String.eqb rawURL "*" then
    Some {| Scheme := EmptyString; Opaque := EmptyString; User := None;
            Host := EmptyString; Path := "*"; RawPath := EmptyString;
            OmitHost := false; ForceQuery := false; RawQuery := EmptyString;
            Fragment := EmptyString; RawFragment := EmptyString |}
  else
    '(scheme, rest) ← getScheme rawURL;
    let scheme := ToLower scheme in
    let '(rest, forceQuery, rawQuery) :=
      if HasSuffix rest "?" && (Count rest "?" =? 1)
      then (str_take (strlen rest - 1) rest, true, EmptyString)
      else let '(before, after, _) := Cut rest "?" in (before, false, after) in
    let u := {| Scheme := scheme; Opaque := EmptyString; User := None;
                Host := EmptyString; Path := EmptyString; RawPath := EmptyString;
                OmitHost := false; ForceQuery := forceQuery; RawQuery := rawQuery;
                Fragment := EmptyString; RawFragment := EmptyString |} in
    if negb (HasPrefix rest "/") && negb (is_empty scheme) then
      Some {| Scheme := scheme; Opaque := rest; User := None;
              Host := EmptyString; Path := EmptyString; RawPath := EmptyString;
              OmitHost := false; ForceQuery := forceQuery; RawQuery := rawQuery;
              Fragment := EmptyString; RawFragment := EmptyString |}
    else if negb (HasPrefix rest "/") && viaRequest then None
    else if negb (HasPrefix rest "/") && Contains (Cut rest "/").1.1 ":" then None
    else if (negb (is_empty scheme) || negb viaRequest && negb (HasPrefix rest "///"))
            && HasPrefix rest "//"
    then
      let authority := str_drop 2 rest in
      let '(authority, rest) :=
        match Index authority "/" with
        | Some i => (str_take i authority, str_drop i authority)
        | None => (authority, EmptyString)
        end in
      '(user, host) ← parseAuthority authority;
      setPath {| Scheme := scheme; Opaque := EmptyString; User := user;
                 Host := host; Path := EmptyString; RawPath := EmptyString;
                 OmitHost := false; ForceQuery := forceQuery; RawQuery := rawQuery;
                 Fragment := EmptyString; RawFragment := EmptyString |} rest
    else if negb (is_empty scheme) && HasPrefix rest "/" then
      setPath {| Scheme := scheme; Opaque := EmptyString; User := None;
                 Host := EmptyString; Path := EmptyString; RawPath := EmptyString;
                 OmitHost := true; ForceQuery := forceQuery; RawQuery := rawQuery;
                 Fragment := EmptyString; RawFragment := EmptyString |} rest
    else setPath u rest.

(** [url.Parse(rawURL)]. *)
Definition url_Parse (rawURL : string) : option URL :=
  let '(u, frag, _) := Cut rawURL "#" in
  url ← parse u false;
  if is_empty frag then Some url else setFragment url frag.

Definition validEncoded (s : string) (mode : encoding) : bool :=
  str_all (λ c,
    one_of ["!"; "$"; "&"; squote; "("; ")"; "*"; "+"; ","; ";"; "="; ":"; "@";
            "["; "]"; "%"]%char c
    || negb (shouldEscape c mode)) s.

Definition EscapedPath (u : URL) : string :=
  if negb (is_empty (RawPath u)) && validEncoded (RawPath u) encodePath
     && bool_decide (unescape (RawPath u) encodePath = Some (Path u))
  then RawPath u
  else if String.eqb (Path u) "*" then "*"
  else escape (Path u) encodePath.

Definition EscapedFragment (u : URL) : string :=
  if negb (is_empty (RawFragment u)) && validEncoded (RawFragment u) encodeFragment
     && bool_decide (unescape (RawFragment u) encodeFragment = Some (Fragment u))
  then RawFragment u
  else escape (Fragment u) encodeFragment.

Definition Userinfo_String (u : Userinfo) : string :=
  escape (username u) encodeUserPassword
  +:+ (if passwordSet u then ":" +:+ escape (password u) encodeUserPassword
       else EmptyString).

(** [u.String()]. *)
Definition URL_String (u : URL) : string :=
  let scheme := if is_empty (Scheme u) then EmptyString else Scheme u +:+ ":" in
  let body :=
    if negb (is_empty (Opaque u)) then scheme +:+ Opaque u
    else
      let authority :=
        if negb (is_empty (Scheme u)) || negb (is_empty (Host u))
           || bool_decide (User u ≠ None)
        then
          if OmitHost u && is_empty (Host u) && bool_decide (User u = None)
          then EmptyString
          else
            (if negb (is_empty (Host u)) || negb (is_empty (Path u))
                || bool_decide (User u ≠ None)
             then "//" else EmptyString)
            +:+ match User u with
                | Some ui => Userinfo_String ui +:+ "@"
                | None => EmptyString
                end
            +:+ (if is_empty (Host u) then EmptyString
                 else escape (Host u) encodeHost)
        else EmptyString in
      let path := EscapedPath u in
      let buf := scheme +:+ authority in
      let buf :=
        if negb (is_empty path) && negb (HasPrefix path "/")
           && negb (is_empty (Host u))
        then buf +:+ "/" else buf in
      let buf :=
        if is_empty buf && Contains (Cut path "/").1.1 ":"
        then buf +:+ "./" else buf in
      buf +:+ path in
  body
  +:+ (if ForceQuery u || negb (is_empty (RawQuery u))
       then "?" +:+ RawQuery u else EmptyString)
  +:+ (if is_empty (Fragment u) then EmptyString
       else "#" +:+ EscapedFragment u).

(** ** Package [path] *)

(** [path.Split]: the directory, with its final slash, and the file. *)
Definition path_Split (path : string) : string * string :=
  match LastIndex path "/" with
  | Some i => (str_take (S i) path, str_drop (S i) path)
  | None => (EmptyString, path)
  end.

(** One element of the path in [path.Clean]: [out] holds the elements kept
    so far, innermost first, and [dotdot] of them, the outermost ones, are
    [..] elements that cannot be removed. *)
Definition Clean_step (rooted : bool) (st : list string * nat) (elem : string)
  : list string * nat :=
  let '(out, dotdot) := st in
  if is_empty elem || String.eqb elem "." then st
  else if String.eqb elem ".." then
    if dotdot <? length out then (tail out, dotdot)
    else if rooted then st
    else (elem :: out, S dotdot)
  else (elem :: out, dotdot).

Fixpoint join (elems : list string) (sep : string) : string :=
  match elems with
  | [] => EmptyString
  | [e] => e
  | e :: es => e +:+ sep +:+ join es sep
  end.

(** [path.Clean]. *)
Definition path_Clean (path : string) : string :=
  if is_empty path then "."
  else
    let rooted := HasPrefix path "/" in
    let '(out, _) := foldl (Clean_step rooted) ([], 0) (Split path "/") in
    let cleaned := (if rooted then "/" else EmptyString) +:+ join (rev out) "/" in
    if is_empty cleaned then "." else cleaned.

(** ** Package [net/http] *)

Record Request : Type := mkRequest {
  r_Method : string;
  r_Host : string;
  r_URL : URL
}.

(** What a handler has done to its [http.ResponseWriter]: the header map,
    the status written by [WriteHeader] and the body written so far. *)
Record ResponseWriter : Type := mkResponseWriter {
  w_Header : gmap string string;
  w_Status : nat;
  w_Body : string
}.

Definition newResponseWriter : ResponseWriter :=
  {| w_Header := ∅; w_Status := 0; w_Body := EmptyString |}.

Definition StatusFound : nat := 302.
Definition StatusBadRequest : nat := 400.
Definition StatusNotFound : nat := 404.
Definition StatusInternalServerError : nat := 500.

Definition newline : string := String (ascii_of_nat 10) EmptyString.

(** [http.Error(w, error, code)]. *)
Definition http_Error (w : ResponseWriter) (msg : string) (code : nat)
  : ResponseWriter :=
  {| w_Header := <["X-Content-Type-Options" := "nosniff"]>
                   (<["Content-Type" := "text/plain; charset=utf-8"]> (w_Header w));
     w_Status := code;
     w_Body := w_Body w +:+ msg +:+ newline |}.

Definition lowerhex (n : nat) : ascii :=
  nth n ["0"; "1"; "2"; "3"; "4"; "5"; "6"; "7"; "8"; "9";
         "a"; "b"; "c"; "d"; "e"; "f"]%char "0"%char.

Fixpoint hexEscapeNonASCII (s : string) : string :=
  match s with
  | EmptyString => EmptyString
  | String c s' =>
      if is_ascii c then String c (hexEscapeNonASCII s')
      else String "%" (String (lowerhex (nat_of_ascii c / 16))
                       (String (lowerhex (nat_of_ascii c mod 16))
                          (hexEscapeNonASCII s')))
  end.

Fixpoint htmlEscape (s : string) : string :=
  match s with
  | EmptyString => EmptyString
  | String c s' =>
      (if Ascii.eqb c "&" then "&amp;"
       else if Ascii.eqb c "<" then "&lt;"
       else if Ascii.eqb c ">" then "&gt;"
       else if Ascii.eqb c dquote then "&#34;"
       else if Ascii.eqb c squote then "&#39;"
       else String c EmptyString) +:+ htmlEscape s'
  end.

Definition statusText (code : nat) : string :=
  if code =? 302 then "Found" else EmptyString.

(** [http.Redirect(w, r, url, code)]. *)
Definition http_Redirect (w : ResponseWriter) (r : Request) (url : string)
    (code : nat) : ResponseWriter :=
  let url :=
    match url_Parse url with
    | Some u =>
        if is_empty (Scheme u) && is_empty (Host u) then
          let oldpath := if is_empty (Path (r_URL r)) then "/" else Path (r_URL r) in
          let url :=
            if is_empty url || negb (HasPrefix url "/")
            then (path_Split oldpath).1 +:+ url else url in
          let '(url, query) :=
            match Index url "?" with
            | Some i => (str_take i url, str_drop i url)
            | None => (url, EmptyString)
            end in
          let trailing := HasSuffix url "/" in
          let url := path_Clean url in
          let url := if trailing && negb (HasSuffix url "/") then url +:+ "/" else url in
          url +:+ query
        else url
    | None => url
    end in
  let hadCT := bool_decide (is_Some (w_Header w !! "Content-Type")) in
  let h := <["Location" := hexEscapeNonASCII url]> (w_Header w) in
  let h :=
    if negb hadCT && (String.eqb (r_Method r) "GET" || String.eqb (r_Method r) "HEAD")
    then <["Content-Type" := "text/html; charset=utf-8"]> h else h in
  {| w_Header := h;
     w_Status := code;
     w_Body :=
       if negb hadCT && String.eqb (r_Method r) "GET" then
         w_Body w +:+ "<a href=" +:+ String dquote (htmlEscape url)
         +:+ String dquote ">" +:+ statusText code +:+ "</a>." +:+ newline +:+ newline
       else w_Body w |}.

(** ** The proxy server *)

Record Config : Type := mkConfig {
  Port : string;
  ConfigFile : string
}.

Record Record_ : Type := mkRecord {
  ID : Z;
  ShortURL : string;
  LongURL : string;
  Protocol : string;
  TicketID : string;
  UserID : option string;
  Department : option string;
  Username : option string;
  AllowURIConcat : bool
}.

Record APIResponse : Type := mkAPIResponse {
  Success : bool;
  Message : string;
  TimeTaken : Z;
  Data : list Record_
}.

(** [lastSyncTime] is an instant in nanoseconds; [requestCount] is a
    [uint64]. *)
Record ProxyServer : Type := mkProxyServer {
  config : Config;
  shortLinkMap : gmap string string;
  lastSyncTime : Z;
  requestCount : Z
}.

Definition NewProxyServer (config : Config) : ProxyServer :=
  {| config := config; shortLinkMap := ∅; lastSyncTime := 0; requestCount := 0 |}.

(** The body of the loop over [apiResp.Data]. *)
Definition addRecord (newMap : gmap string string) (record : Record_)
  : gmap string string :=
  if negb (is_empty (ShortURL record)) && negb (is_empty (LongURL record)) then
    let fullURL := Protocol record +:+ "://" +:+ LongURL record in
    <[ToLower (ShortURL record) := fullURL]> newMap
  else newMap.

Section LoadMappings.

(** [json.Unmarshal] into an [APIResponse] is a parameter. *)
Variable json_Unmarshal : string → APIResponse + error.

(** [ps.loadMappingsFromFile()]: [ReadFile] is [os.ReadFile] on the file
    system of the moment and [now] is what [time.Now()] returns at the
    assignment of [lastSyncTime]. *)
Definition loadMappingsFromFile (ReadFile : string → string + error) (now : Z)
    (ps : ProxyServer) : option error * ProxyServer :=
  match ReadFile (ConfigFile (config ps)) with
  | inr err => (Some err, ps)
  | inl body =>
      match json_Unmarshal body with
      | inr err => (Some err, ps)
      | inl apiResp =>
          if negb (Success apiResp) then
            (Some (Errors "config error: %s" (Message apiResp)), ps)
          else
            let newMap := foldl addRecord ∅ (Data apiResp) in
            if size newMap =? 0 then
              (Some (ErrorNew "no valid records found in config file"), ps)
            else
              (None,
               {| config := config ps; shortLinkMap := newMap;
                  lastSyncTime := now; requestCount := requestCount ps |})
      end
  end.

(** [ps.reloadMappings()]: the error is only logged. *)
Definition reloadMappings (ReadFile : string → string + error) (now : Z)
    (ps : ProxyServer) : ProxyServer :=
  (loadMappingsFromFile ReadFile now ps).2.

End LoadMappings.

(** What [handleRequest] did: it called [handleCheck] or [handlePac] (their
    pages are not unfolded here), it wrote a response, or it panicked. *)
Inductive served : Type :=
  | CheckPage
  | PacFile
  | Wrote (w : ResponseWriter)
  | Panicked.

Definition uint64_succ (n : Z) : Z := ((n + 1) mod 2 ^ 64)%Z.

(** [ps.handleRequest(w, r)] on a fresh [w].  [strings_ToLower] is
    [strings.ToLower] as the handler applies it to the host: on text that
    is not ASCII it goes through the Unicode tables, which are no part of
    this development, so the handler is given for every such function. *)
Definition handleRequest_with (strings_ToLower : string → string)
    (ps : ProxyServer) (r : Request) : ProxyServer * served :=
  let w := newResponseWriter in
  if String.eqb (Path (r_URL r)) "/check" || String.eqb (Path (r_URL r)) "/health"
  then (ps, CheckPage)
  else if String.eqb (Path (r_URL r)) "/proxy.pac" then (ps, PacFile)
  else
    let ps := {| config := config ps; shortLinkMap := shortLinkMap ps;
                 lastSyncTime := lastSyncTime ps;
                 requestCount := uint64_succ (requestCount ps) |} in
    let host := r_Host r in
    if is_empty host then
      (ps, Wrote (http_Error w "Host header is required" StatusBadRequest))
    else
      let hostParts := Split host ":" in
      match hostParts !! 0 with
      | None => (ps, Panicked)
      | Some part =>
          let requestedHost := strings_ToLower part in
          match shortLinkMap ps !! requestedHost with
          | None =>
              (ps, Wrote (http_Error w
                            ("No short link mapping found for "
                             +:+ String dquote requestedHost
                             +:+ String dquote EmptyString)
                            StatusNotFound))
          | Some targetURL =>
              match url_Parse targetURL with
              | None =>
                  (ps, Wrote (http_Error w "Internal configuration error"
                                StatusInternalServerError))
              | Some parsedTarget =>
                  let path :=
                    TrimRight (Path parsedTarget) "/" +:+ "/"
                    +:+ TrimLeft (Path (r_URL r)) "/" in
                  let path := ReplaceAll path "//" "/" in
                  let parsedTarget :=
                    {| Scheme := Scheme parsedTarget; Opaque := Opaque parsedTarget;
                       User := User parsedTarget; Host := Host parsedTarget;
                       Path := path; RawPath := RawPath parsedTarget;
                       OmitHost := OmitHost parsedTarget;
                       ForceQuery := ForceQuery parsedTarget;
                       RawQuery := RawQuery (r_URL r);
                       Fragment := Fragment (r_URL r);
                       RawFragment := RawFragment parsedTarget |} in
                  let finalURL := URL_String parsedTarget in
                  (ps, Wrote (http_Redirect w r finalURL StatusFound))
              end
          end
      end.

(** The handler with [ToLower], which is [strings.ToLower] on ASCII
    hosts. *)
Definition handleRequest (ps : ProxyServer) (r : Request) : ProxyServer * served :=
  handleRequest_with ToLower ps r.

(** ** [ChannelListener] and the goroutines that use it *)

(** Goroutines interleave at the operations on the channels and on the
    mutex; a [select] is one such operation.  [l.conns] is not buffered, so
    its state is the set of goroutines blocked on it. *)

Section Listener.

(** The connections ([net.Conn]) that travel through the listener. *)
Context {conn_t : Type}.

(** The calls a goroutine makes, in order: [l.Accept()], the final
    [select] of [handleConnection] with its connection, [l.Close()]. *)
Inductive call : Type :=
  | CallAccept
  | CallSubmit (c : conn_t)
  | CallClose.

(** Where a goroutine stands in its current call. *)
Inductive pc : Type :=
  | Ready                      (* before the first operation of the call *)
  | AcceptParked               (* blocked in the select of Accept *)
  | SubmitParked (c : conn_t)  (* blocked in the select of handleConnection *)
  | CloseLocked                (* holds closeMu, before the select of Close *)
  | CloseOpen                  (* took the default case, before close(l.closed) *)
  | CloseUnlock.               (* before the deferred Unlock *)

Record goroutine : Type := mkGoroutine {
  g_pc : pc;
  g_script : list call
}.

(** What happened, oldest first.  [EvAccept t (Some c)]: [Accept] in
    goroutine [t] returns [(c, nil)]; [EvAccept t None]: it returns
    [(nil, net.ErrClosed)].  [EvSubmit t c true]: the select of
    [handleConnection] sent [c]; [EvSubmit t c false]: it took the closed
    case and ran [conn.Close()].  [EvFire t]: [close(l.closed)].
    [EvCloseReturn t]: [Close] returns. *)
Inductive event : Type :=
  | EvAccept (t : nat) (r : option conn_t)
  | EvSubmit (t : nat) (c : conn_t) (delivered : bool)
  | EvFire (t : nat)
  | EvCloseReturn (t : nat).

Record system : Type := mkSystem {
  l_closed : bool;             (* l.closed is closed *)
  l_closeMu : option nat;      (* the goroutine that holds l.closeMu *)
  goroutines : list goroutine;
  trace : list event;
  panicked : bool              (* close of a closed channel *)
}.

Definition NewChannelListener (scripts : list (list call)) : system :=
  {| l_closed := false; l_closeMu := None;
     goroutines := (λ sc, {| g_pc := Ready; g_script := sc |}) <$> scripts;
     trace := []; panicked := false |}.

Definition accept_parked (g : goroutine) : bool :=
  match g_pc g with AcceptParked => true | _ => false end.

Definition submit_parked (g : goroutine) : bool :=
  match g_pc g with SubmitParked _ => true | _ => false end.

Definition next_call (g : goroutine) : goroutine :=
  {| g_pc := Ready; g_script := tail (g_script g) |}.

Definition at_pc (p : pc) (g : goroutine) : goroutine :=
  {| g_pc := p; g_script := g_script g |}.

(** [close(l.closed)] wakes every goroutine blocked in a select that
    receives from [l.closed]; each takes that case. *)
Definition wake (g : goroutine) : goroutine :=
  match g_pc g with
  | AcceptParked | SubmitParked _ => next_call g
  | _ => g
  end.

Definition wake_event (t : nat) (g : goroutine) : list event :=
  match g_pc g with
  | AcceptParked => [EvAccept t None]
  | SubmitParked c => [EvSubmit t c false]
  | _ => []
  end.

(** One operation of goroutine [t].  [partner] is the blocked goroutine
    the runtime pairs [t] with when it takes the case on [l.conns];
    [None] is any other case.  The result is [None] when [t] cannot take
    that step. *)
Definition step (t : nat) (partner : option nat) (s : system) : option system :=
  if panicked s then None
  else
    g ← goroutines s !! t;
    match g_pc g, g_script g with
    | Ready, CallAccept :: _ =>
        match partner with
        | Some u =>
            gu ← goroutines s !! u;
            match g_pc gu with
            | SubmitParked c =>
                Some {| l_closed := l_closed s; l_closeMu := l_closeMu s;
                        goroutines :=
                          <[t := next_call g]> (<[u := next_call gu]> (goroutines s));
                        trace := trace s ++ [EvSubmit u c true; EvAccept t (Some c)];
                        panicked := false |}
            | _ => None
            end
        | None =>
            if l_closed s then
              Some {| l_closed := true; l_closeMu := l_closeMu s;
                      goroutines := <[t := next_call g]> (goroutines s);
                      trace := trace s ++ [EvAccept t None];
                      panicked := false |}
            else if existsb submit_parked (goroutines s) then None
            else
              Some {| l_closed := false; l_closeMu := l_closeMu s;
                      goroutines := <[t := at_pc AcceptParked g]> (goroutines s);
                      trace := trace s; panicked := false |}
        end
    | Ready, CallSubmit c :: _ =>
        match partner with
        | Some u =>
            gu ← goroutines s !! u;
            match g_pc gu with
            | AcceptParked =>
                Some {| l_closed := l_closed s; l_closeMu := l_closeMu s;
                        goroutines :=
                          <[t := next_call g]> (<[u := next_call gu]> (goroutines s));
                        trace := trace s ++ [EvSubmit t c true; EvAccept u (Some c)];
                        panicked := false |}
            | _ => None
            end
        | None =>
            if l_closed s then
              Some {| l_closed := true; l_closeMu := l_closeMu s;
                      goroutines := <[t := next_call g]> (goroutines s);
                      trace := trace s ++ [EvSubmit t c false];
                      panicked := false |}
            else if existsb accept_parked (goroutines s) then None
            else
              Some {| l_closed := false; l_closeMu := l_closeMu s;
                      goroutines := <[t := at_pc (SubmitParked c) g]> (goroutines s);
                      trace := trace s; panicked := false |}
        end
    | Ready, CallClose :: _ =>
        match l_closeMu s with
        | Some _ => None
        | None =>
            Some {| l_closed := l_closed s; l_closeMu := Some t;
                    goroutines := <[t := at_pc CloseLocked g]> (goroutines s);
                    trace := trace s; panicked := false |}
        end
    | CloseLocked, _ =>
        Some {| l_closed := l_closed s; l_closeMu := l_closeMu s;
                goroutines :=
                  <[t := at_pc (if l_closed s then CloseUnlock else CloseOpen) g]>
                    (goroutines s);
                trace := trace s; panicked := false |}
    | CloseOpen, _ =>
        if l_closed s then
          Some {| l_closed := true; l_closeMu := l_closeMu s;
                  goroutines := goroutines s; trace := trace s;
                  panicked := true |}
        else
          Some {| l_closed := true; l_closeMu := l_closeMu s;
                  goroutines :=
                    <[t := at_pc CloseUnlock g]> (wake <$> goroutines s);
                  trace := trace s ++ EvFire t
                             :: concat (imap wake_event (goroutines s));
                  panicked := false |}
    | CloseUnlock, _ =>
        Some {| l_closed := l_closed s; l_closeMu := None;
                goroutines := <[t := next_call g]> (goroutines s);
                trace := trace s ++ [EvCloseReturn t]; panicked := false |}
    | _, _ => None
    end.

(** A schedule names, step by step, the goroutine that moves and its
    partner; a step that cannot be taken is skipped. *)
Fixpoint run (schedule : list (nat * option nat)) (s : system) : system :=
  match schedule with
  | [] => s
  | (t, partner) :: schedule' =>
      run schedule' (default s (step t partner s))
  end.

Definition is_fire (e : event) : bool :=
  match e with EvFire _ => true | _ => false end.

(** After the closed signal no connection changes hands. *)
Definition quiet (e : event) : bool :=
  match e with
  | EvAccept _ (Some _) | EvSubmit _ _ true | EvFire _ => false
  | _ => true
  end.

(** [Close] returns only when the signal has fired. *)
Definition needs_fire (e : event) : bool :=
  match e with EvCloseReturn _ => true | _ => false end.

(** The traces the listener allows; [fired] tells whether the closed
    signal fired before the events of [tr]. *)
Fixpoint trace_ok (fired : bool) (tr : list event) : bool :=
  match tr with
  | [] => true
  | e :: tr' =>
      (if fired then quiet e else negb (needs_fire e))
      && trace_ok (fired || is_fire e) tr'
  end.

End Listener.

Arguments call : clear implicits.
Arguments pc : clear implicits.
Arguments goroutine : clear implicits.
Arguments event : clear implicits.
Arguments system : clear implicits.
(** ** The configuration, the PAC file and the status page *)

(** [os.Getenv(key)] in the environment [env]: the value of the variable,
    empty when it is not set. *)
Definition Getenv (env : gmap string string) (key : string) : string :=
  default EmptyString (env !! key).

Definition loadConfig (env : gmap string string) : Config :=
  let port := Getenv env "PORT" in
  let port := if is_empty port then "80" else port in
  let configFile := Getenv env "CONFIG_FILE" in
  let configFile := if is_empty configFile then "config.json" else configFile in
  {| Port := port; ConfigFile := configFile |}.

Definition StatusOK : nat := 200.

(** [w.Write(data)]: a write before any [WriteHeader] sends the header
    with status 200 first. *)
Definition ResponseWriter_Write (w : ResponseWriter) (data : string)
  : ResponseWriter :=
  {| w_Header := w_Header w;
     w_Status := if w_Status w =? 0 then StatusOK else w_Status w;
     w_Body := w_Body w +:+ data |}.

(** [fmt.Sprintf(format, args...)] for a format whose verbs are all [%s]
    and arguments that are strings; a verb without argument is written as
    Go writes it. *)
Fixpoint Sprintf (format : string) (args : list string) : string :=
  match format with
  | EmptyString => EmptyString
  | String c rest =>
      match rest with
      | String v rest' =>
          if Ascii.eqb c "%" && Ascii.eqb v "s" then
            match args with
            | arg :: args' => arg +:+ Sprintf rest' args'
            | [] => "%!s(MISSING)" +:+ Sprintf rest' []
            end
          else String c (Sprintf rest args)
      | EmptyString => String c EmptyString
      end
  end.

(** The line of the PAC file that names the proxy. *)
Definition pacProxyLine : string :=
  "        return " +:+ String dquote "SOCKS5 127.0.0.1:%s; SOCKS 127.0.0.1:%s; DIRECT"
  +:+ String dquote ";".

Definition pacTemplate : string :=
  "function FindProxyForURL(url, host) {" +:+ newline
  +:+ "    var safeHost = host.toLowerCase();" +:+ newline
  +:+ "    // If it's a plain hostname (no dots), use our proxy" +:+ newline
  +:+ "    if (safeHost.indexOf('.') === -1) {" +:+ newline
  +:+ pacProxyLine +:+ newline
  +:+ "    }" +:+ newline
  +:+ "    return " +:+ String dquote "DIRECT" +:+ String dquote ";" +:+ newline
  +:+ "}".

(** [ps.handlePac(w, r)]. *)
Definition handlePac (ps : ProxyServer) (w : ResponseWriter) (r : Request)
  : ResponseWriter :=
  let w := {| w_Header := <["Content-Type" := "application/x-ns-proxy-autoconfig"]>
                            (w_Header w);
              w_Status := w_Status w; w_Body := w_Body w |} in
  let port := Port (config ps) in
  ResponseWriter_Write w (Sprintf pacTemplate [port; port]).

(** The loop of [handleCheck] that collects the sample mappings, at most
    five.  [entries] is the table in the order in which [range] yields it,
    which Go does not fix. *)
Fixpoint sample_loop (entries : list (string * string))
    (samples : list (gmap string string)) (count : nat)
  : list (gmap string string) :=
  match entries with
  | [] => samples
  | (key, value) :: rest =>
      if 5 <=? count then samples
      else sample_loop rest
             (samples ++ [ {[ "short" := key; "target" := value ]} ]) (count + 1)
  end.

Definition handleCheck_samples (entries : list (string * string))
  : list (gmap string string) :=
  sample_loop entries [] 0.


(** ** Notions used in the statements *)

#[global] Instance byte_eq_dec : EqDecision byte := Byte.byte_eq_dec.

(** The write side and the final error of a socket, which reads leave
    alone. *)
Definition same_socket (c c' : Conn) : Prop :=
  tx c' = tx c ∧ tx_budget c' = tx_budget c ∧ rx_end c' = rx_end c.

(** The error [io.ReadAtLeast] reports when the stream ends early, after
    [got] was read. *)
Definition short_read (got : list byte) (e : error) : error :=
  match got with
  | [] => e
  | _ :: _ => if is_EOF e then ErrUnexpectedEOF else e
  end.

(** What the handshake can observe of its world: the bytes still to come,
    the writes accepted so far, the writes the socket will still accept,
    the error after the last byte, and the slices asked for. *)
Record view : Type := mkView {
  v_pending : list byte;
  v_sent : list (list byte);
  v_budget : option nat;
  v_end : error;
  v_slices : list nat
}.

Definition view_of (w : world) : view :=
  {| v_pending := stream (w_conn w);
     v_sent := tx (pc_conn (w_conn w));
     v_budget := tx_budget (pc_conn (w_conn w));
     v_end := rx_end (pc_conn (w_conn w));
     v_slices := w_slices w |}.

(** [wp m Q w]: running [m] in [w] ends in an outcome and a world that
    satisfy [Q]. *)
Definition wp {A} (m : io A) (Q : outcome A → world → Prop) (w : world) : Prop :=
  Q (m w).1 (m w).2.

(** *** The client's messages (RFC 1928) *)

Inductive address : Type :=
  | AddrIPv4 (octets : list byte)
  | AddrDomain (name : list byte)
  | AddrIPv6 (octets : list byte).

Definition address_ok (a : address) : Prop :=
  match a with
  | AddrIPv4 octets => length octets = 4
  | AddrDomain name => length name ≤ 255
  | AddrIPv6 octets => length octets = 16
  end.

(** The byte that holds a length up to 255. *)
Definition len_byte (n : nat) : byte := default x00 (Byte.of_nat n).

(** Address type and address. *)
Definition encode_address (a : address) : list byte :=
  match a with
  | AddrIPv4 octets => x01 :: octets
  | AddrDomain name => x03 :: len_byte (length name) :: name
  | AddrIPv6 octets => x04 :: octets
  end.

(** Version 5, the number of methods, the methods. *)
Definition greeting (methods : list byte) : list byte :=
  x05 :: len_byte (length methods) :: methods.

(** Version 5, CONNECT, reserved, the address, the port. *)
Definition connect_request (a : address) (port_hi port_lo : byte) : list byte :=
  [x05; x01; x00] ++ encode_address a ++ [port_hi; port_lo].

(** The slices the request phase asks for to read the address, by address
    type: 4 bytes, a length byte and that many bytes, or 16 bytes. *)
Definition addr_slices (atyp : byte) (body : list byte) : option (list nat) :=
  match atyp with
  | x01 => Some [4]
  | x03 => Some (1 :: match body with l :: _ => [Byte.to_nat l] | [] => [] end)
  | x04 => Some [16]
  | _ => None
  end.

Fixpoint total (sizes : list nat) : nat :=
  match sizes with
  | [] => 0
  | n :: sizes' => n + total sizes'
  end.

(** Reads of the given sizes, one after the other, from [avail] bytes: the
    reads that are attempted, up to the first that comes short. *)
Fixpoint attempts (sizes : list nat) (avail : nat) : list nat :=
  match sizes with
  | [] => []
  | n :: sizes' => n :: (if n <=? avail then attempts sizes' (avail - n) else [])
  end.

(** A run that started in [w] did not panic, and every slice it asked
    [io.ReadFull] to fill has at most 255 bytes. *)
Definition in_bounds {A} (w : world) (r : outcome A) (w' : world) : Prop :=
  r ≠ Panic
  ∧ ∃ asked, w_slices w' = w_slices w ++ asked ∧ Forall (λ n, n ≤ 255) asked.

(** *** Connections used as examples *)

(** A client that greets with version 4. *)
Definition socks4_client : Conn :=
  {| rx := [[x04; x01; x00]]; rx_end := EOF; tx := []; tx_budget := None |}.

(** A SOCKS5 client: greeting with the method "no authentication", CONNECT
    to the domain "idev", port 80, then the first bytes of an HTTP request;
    the bytes arrive in four segments. *)
Definition socks5_client : Conn :=
  {| rx := [[x05; x01]; [x00; x05; x01; x00; x03];
            [x04; x69; x64; x65; x76; x00; x50]; [x47; x45; x54]];
     rx_end := EOF; tx := []; tx_budget := None |}.

(** An HTTP client: "GET /" arrives in two segments. *)
Definition http_client : Conn :=
  {| rx := [[x47; x45]; [x54; x20; x2f]]; rx_end := EOF; tx := [];
     tx_budget := None |}.

(** A world at the start of the request phase: a CONNECT request for the
    domain "idev", port 80, followed by "GET". *)
Definition request_world : world :=
  {| w_conn := NewPeekConn
       {| rx := [[x05; x01; x00; x03]; [x04; x69; x64; x65; x76; x00; x50];
                 [x47; x45; x54]];
          rx_end := EOF; tx := []; tx_budget := None |};
     w_slices := [] |}.

(** A world whose client sends a request with version byte 9: greeting,
    then CONNECT to 127.0.0.1:8080. *)
Definition odd_version_world : world :=
  {| w_conn := NewPeekConn
       {| rx := [[x05; x01; x00]; [x09; x01; x00; x01];
                 [x7f; x00; x00; x01; x1f; x90]];
          rx_end := EOF; tx := []; tx_budget := None |};
     w_slices := [] |}.

(** *** The mapping table *)

(** A record of the document that yields an entry of the table. *)
Definition usable (record : Record_) : bool :=
  negb (is_empty (ShortURL record)) && negb (is_empty (LongURL record)).

(** *** Requests *)

(** A host with its port suffix, everything from the first colon on,
    stripped. *)
Definition strip_port (host : string) : string :=
  match Index host ":" with
  | Some i => str_take i host
  | None => host
  end.

(** A request as the server hands it to the handler: the path, the query
    and the fragment of the request URL, and the Host header. *)
Definition request (method host path query fragment : string) : Request :=
  {| r_Method := method; r_Host := host;
     r_URL := {| Scheme := EmptyString; Opaque := EmptyString; User := None;
                 Host := EmptyString; Path := path; RawPath := EmptyString;
                 OmitHost := false; ForceQuery := false; RawQuery := query;
                 Fragment := fragment; RawFragment := EmptyString |} |}.

(** A server whose table is given. *)
Definition server_with (table : gmap string string) : ProxyServer :=
  {| config := {| Port := "80"; ConfigFile := "config.json" |};
     shortLinkMap := table; lastSyncTime := 0; requestCount := 0 |}.

(** The table of the scenario: idev -> http://internal.example.com/app. *)
Definition idev_table : gmap string string :=
  {[ "idev" := "http://internal.example.com/app" ]}.

(** Strings without a given byte. *)
Definition without (x : ascii) (s : string) : bool :=
  str_all (λ c, negb (Ascii.eqb c x)) s.

(** The bytes of a scheme after its first letter. *)
Definition scheme_char (c : ascii) : bool :=
  is_alpha c || is_digit c || one_of ["+"; "-"; "."]%char c.

(** A scheme as [getScheme] accepts it: a letter, then letters, digits,
    plus, minus and dot. *)
Definition valid_scheme (s : string) : bool :=
  match s with
  | EmptyString => false
  | String c s' => is_alpha c && str_all scheme_char s'
  end.

(** Letters, digits, minus, underscore, dot and tilde. *)
Definition unreserved (c : ascii) : bool :=
  is_alpha c || is_digit c || one_of ["-"; "_"; "."; "~"]%char c.

(** The bytes [net/url] writes as they are in a path, and in a fragment. *)
Definition path_plain (c : ascii) : bool := negb (shouldEscape c encodePath).
Definition fragment_plain (c : ascii) : bool := negb (shouldEscape c encodeFragment).

(** A property of all 256 bytes, checked one by one. *)
Definition all_ascii (p : ascii → bool) : bool :=
  forallb (λ n, p (ascii_of_nat n)) (seq 0 256).

(** *** The listener *)

Section ListenerNotions.

Context {conn_t : Type}.

(** Blocked in a select. *)
Definition parked (g : goroutine conn_t) : bool :=
  accept_parked g || submit_parked g.

(** Between the Lock and the Unlock of [Close]. *)
Definition in_Close (p : pc conn_t) : bool :=
  match p with
  | CloseLocked | CloseOpen | CloseUnlock => true
  | _ => false
  end.

Definition has_fire (tr : list (event conn_t)) : bool := existsb is_fire tr.

(** What holds of goroutine [t] in every reachable state: once the signal
    has fired it is not blocked in a select; inside [Close] it holds the
    mutex; it is about to close the channel only while the channel is
    open; it is about to unlock only when the channel is closed. *)
Definition goroutine_ok (closed : bool) (mu : option nat) (t : nat)
    (g : goroutine conn_t) : Prop :=
  (closed = true → parked g = false)
  ∧ (in_Close (g_pc g) = true → mu = Some t)
  ∧ (g_pc g = CloseOpen → closed = false)
  ∧ (g_pc g = CloseUnlock → closed = true).

Definition system_ok (s : system conn_t) : Prop :=
  panicked s = false
  ∧ l_closed s = has_fire (trace s)
  ∧ trace_ok false (trace s) = true
  ∧ ∀ t g, goroutines s !! t = Some g → goroutine_ok (l_closed s) (l_closeMu s) t g.

End ListenerNotions.

(** A path with a single slash in the place of every run of slashes: the
    path "with no duplicate slashes". *)
Fixpoint single_slashes (s : string) : string :=
  match s with
  | EmptyString => EmptyString
  | String c s' =>
      if Ascii.eqb c "/" && HasPrefix s' "/" then single_slashes s'
      else String c (single_slashes s')
  end.

(** *** Effects of the handshake on its connection *)

(** [w'] is [w] after bytes were taken from the front of the stream and
    nothing else was done to the connection. *)
Definition reads_only (w w' : world) : Prop :=
  v_sent (view_of w') = v_sent (view_of w)
  ∧ v_budget (view_of w') = v_budget (view_of w)
  ∧ v_end (view_of w') = v_end (view_of w)
  ∧ ∃ used, v_pending (view_of w) = used ++ v_pending (view_of w').

(** A computation whose outcome and effects are a function of what can be
    observed of the world it starts in; how the bytes to come are cut into
    segments, and how many of them the reader has buffered, is not
    observed. *)
Definition observes_view {A} (m : io A) : Prop :=
  ∀ w1 w2, view_of w1 = view_of w2 →
    (m w1).1 = (m w2).1 ∧ view_of (m w1).2 = view_of (m w2).2.

(** What can be observed of a connection, and of what [handleConnection]
    did with it. *)
Definition conn_view (c : PeekConn) : view :=
  view_of {| w_conn := c; w_slices := [] |}.

Definition disposition_view (d : disposition) : option (bool * view) :=
  match d with
  | Forwarded c => Some (true, conn_view c)
  | Closed c => Some (false, conn_view c)
  | Crashed => None
  end.

(** *** Sequences of requests *)

(** The requests [handleRequest] counts: all but the status pages and the
    PAC file. *)
Definition counted (r : Request) : bool :=
  negb (String.eqb (Path (r_URL r)) "/check" || String.eqb (Path (r_URL r)) "/health"
        || String.eqb (Path (r_URL r)) "/proxy.pac").

(** The server after it has handled the requests one after the other. *)
Definition serve (ps : ProxyServer) (requests : list Request) : ProxyServer :=
  foldl (λ ps r, (handleRequest ps r).1) ps requests.

(** *** The table a document yields *)

(** The target stored for a record. *)
Definition target_of (record : Record_) : string :=
  Protocol record +:+ "://" +:+ LongURL record.

(** The record of a document that decides the entry for the key [k]: the
    last one that is usable and whose short URL, in lower case, is [k]. *)
Definition deciding_record (k : string) (records : list Record_) : option Record_ :=
  last (filter (λ record,
                  usable record = true ∧ ToLower (ShortURL record) = k) records).

(** A document with two records for the short URL idev, spelled in two
    ways, and a record without long URL. *)
Definition idev_document : APIResponse :=
  {| Success := true; Message := EmptyString; TimeTaken := 0;
     Data :=
       [ {| ID := 1; ShortURL := "idev"; LongURL := "internal.example.com/app";
            Protocol := "http"; TicketID := EmptyString; UserID := None;
            Department := None; Username := None; AllowURIConcat := true |};
         {| ID := 2; ShortURL := "IDEV"; LongURL := "internal.example.com/app";
            Protocol := "https"; TicketID := EmptyString; UserID := None;
            Department := None; Username := None; AllowURIConcat := true |};
         {| ID := 3; ShortURL := "wiki"; LongURL := EmptyString;
            Protocol := "http"; TicketID := EmptyString; UserID := None;
            Department := None; Username := None; AllowURIConcat := true |} ] |}.

(** *** The life of a server *)

(** What happens to a running server: a reload signal, with the file
    system and the clock of the moment, or a request. *)
Inductive happening : Type :=
  | Reload (ReadFile : string → string + error) (now : Z)
  | Incoming (r : Request).

Definition after (json_Unmarshal : string → APIResponse + error)
    (ps : ProxyServer) (h : happening) : ProxyServer :=
  match h with
  | Reload ReadFile now => reloadMappings json_Unmarshal ReadFile now ps
  | Incoming r => (handleRequest ps r).1
  end.

(** *** Connections on their way through the listener *)

Section ListenerConnections.

Context {conn_t : Type}.

(** The connections a goroutine has still to submit, the one its current
    select holds included. *)
Definition to_submit (g : goroutine conn_t) : list conn_t :=
  omap (λ c, match c with CallSubmit x => Some x | _ => None end) (g_script g).

Definition pending (gs : list (goroutine conn_t)) : list conn_t :=
  gs ≫= to_submit.

(** The connections that [Accept] returned, that a select of
    [handleConnection] sent, and that a select of [handleConnection]
    closed, oldest first. *)
Definition accepted (tr : list (event conn_t)) : list conn_t :=
  omap (λ e, match e with EvAccept _ (Some c) => Some c | _ => None end) tr.

Definition sent (tr : list (event conn_t)) : list conn_t :=
  omap (λ e, match e with EvSubmit _ c true => Some c | _ => None end) tr.

Definition closed_by_sender (tr : list (event conn_t)) : list conn_t :=
  omap (λ e, match e with EvSubmit _ c false => Some c | _ => None end) tr.

(** A goroutine that is inside a call is at that call in its script. *)
Definition script_ok (g : goroutine conn_t) : Prop :=
  match g_pc g with
  | Ready => True
  | AcceptParked => head (g_script g) = Some CallAccept
  | SubmitParked c => head (g_script g) = Some (CallSubmit c)
  | CloseLocked | CloseOpen | CloseUnlock => head (g_script g) = Some CallClose
  end.

(** From [s] to [s'] every connection that left a script was sent and
    accepted, or closed by its sender. *)
Definition moved (s s' : system conn_t) : Prop :=
  ∃ evs, trace s' = trace s ++ evs
    ∧ accepted evs = sent evs
    ∧ sent evs ++ closed_by_sender evs ++ pending (goroutines s')
      ≡ₚ pending (goroutines s).

(** The mutex is held by a goroutine that is inside [Close]. *)
Definition held (gs : list (goroutine conn_t)) (mu : option nat) : Prop :=
  match mu with
  | Some t => ∃ g, gs !! t = Some g ∧ in_Close (g_pc g) = true
  | None => True
  end.

Definition holder_ok (s : system conn_t) : Prop :=
  held (goroutines s) (l_closeMu s).


End ListenerConnections.

(** Reads of the given sizes, one after the other, from the bytes
    [avail]: the bytes that had arrived for the first slice that comes
    short. *)
Fixpoint unfilled (sizes : list nat) (avail : list byte) : list byte :=
  match sizes with
  | [] => []
  | n :: sizes' =>
      if n <=? length avail then unfilled sizes' (drop n avail) else avail
  end.

(** *** The URL of a redirect *)

(** The parsed target with the path, the query and the fragment that the
    handler gives it. *)
Definition redirect_url (u : URL) (path : string) (r : Request) : URL :=
  {| Scheme := Scheme u; Opaque := Opaque u; User := User u; Host := Host u;
     Path := path; RawPath := RawPath u; OmitHost := OmitHost u;
     ForceQuery := ForceQuery u; RawQuery := RawQuery (r_URL r);
     Fragment := Fragment (r_URL r); RawFragment := RawFragment u |}.

(** A host, or a host and a port. *)
Definition host_port (host port : string) : string :=
  if is_empty port then host else host +:+ ":" +:+ port.

(** The bytes of a plain host with a port: those of [unreserved], and the
    colon. *)
Definition authority_byte (c : ascii) : bool := unreserved c || Ascii.eqb c ":".

(** * Properties *)

(** ** The transport *)

Lemma next_segment_concat segs :
  match next_segment segs with
  | None => concat segs = []
  | Some (seg, rest) => seg ≠ [] ∧ concat segs = seg ++ concat rest
  end.
Proof.
  induction segs as [|[|b seg] rest IH]; simpl; auto.
Qed.

Lemma same_socket_refl c : same_socket c c.
Proof. by repeat split. Qed.

Lemma same_socket_trans c1 c2 c3 :
  same_socket c1 c2 → same_socket c2 c3 → same_socket c1 c3.
Proof. intros (?&?&?) (?&?&?). repeat split; congruence. Qed.

(** A read of at least one byte delivers a non-empty prefix of what is
    still to come, or fails when nothing is. *)
Lemma Conn_Read_spec n c :
  0 < n →
  ∃ data err c', Conn_Read n c = (data, err, c') ∧ same_socket c c' ∧
    ((err = None ∧ data ≠ [] ∧ length data ≤ n
      ∧ concat (rx c) = data ++ concat (rx c'))
     ∨ (err = Some (rx_end c) ∧ data = [] ∧ concat (rx c) = [] ∧ c' = c)).
Proof.
  intros Hn. destruct n as [|n]; [lia|]. unfold Conn_Read.
  pose proof (next_segment_concat (rx c)) as Hseg.
  destruct (next_segment (rx c)) as [[seg rest]|].
  - destruct Hseg as [Hne Hcat]. eexists _, _, _. split; [reflexivity|].
    split; [by repeat split|]. left. split; [done|].
    destruct seg as [|b seg]; [done|]. simpl. split; [done|].
    split; [rewrite length_take; lia|].
    rewrite Hcat. simpl. by rewrite app_assoc, take_drop.
  - eexists _, _, _. split; [reflexivity|]. split; [apply same_socket_refl|].
    right. by repeat split.
Qed.

Lemma PeekConn_Read_spec n c :
  0 < n →
  ∃ data err c', PeekConn_Read n c = (data, err, c')
    ∧ same_socket (pc_conn c) (pc_conn c') ∧
    ((err = None ∧ data ≠ [] ∧ length data ≤ n ∧ stream c = data ++ stream c')
     ∨ (err = Some (rx_end (pc_conn c)) ∧ data = [] ∧ stream c = []
        ∧ stream c' = [])).
Proof.
  intros Hn. destruct n as [|n]; [lia|]. unfold PeekConn_Read, stream.
  destruct (pc_buffered c) as [|b buffered] eqn:Hbuf.
  - destruct (defaultBufSize <=? S n).
    + destruct (Conn_Read_spec (S n) (pc_conn c)) as (data & err & raw & -> & Hs & H);
        [lia|].
      eexists _, _, _. split; [reflexivity|]. split; [done|]. simpl.
      destruct H as [(-> & ? & ? & Hcat)|(-> & -> & Hcat & ->)]; [left|right].
      * by rewrite Hcat.
      * by rewrite Hcat.
    + destruct (Conn_Read_spec defaultBufSize (pc_conn c))
        as (data & err & raw & -> & Hs & H); [unfold defaultBufSize; lia|].
      destruct H as [(-> & Hne & Hlen & Hcat)|(-> & -> & Hcat & ->)].
      * destruct data as [|d data]; [done|].
        eexists _, _, _. split; [reflexivity|]. split; [exact Hs|]. left.
        split; [done|]. split; [done|]. cbn [pc_buffered pc_conn].
        split; [rewrite length_take; lia|].
        rewrite app_assoc, take_drop. by rewrite Hcat.
      * eexists _, _, _. split; [reflexivity|]. split; [exact Hs|]. right.
        cbn [pc_buffered pc_conn]. by rewrite Hcat.
  - eexists _, _, _. split; [reflexivity|]. split; [apply same_socket_refl|].
    left. split; [done|]. simpl. split; [done|]. split; [rewrite length_take; lia|].
    by rewrite app_assoc, take_drop.
Qed.

Lemma ReadAtLeast_spec fuel : ∀ want got c,
  want ≤ fuel →
  ∃ data err c', ReadAtLeast fuel want got c = (data, err, c')
    ∧ same_socket (pc_conn c) (pc_conn c') ∧
    if decide (want ≤ length (stream c)) then
      err = None ∧ data = got ++ take want (stream c)
      ∧ stream c' = drop want (stream c)
    else
      err = Some (short_read (got ++ stream c) (rx_end (pc_conn c)))
      ∧ data = got ++ stream c ∧ stream c' = [].
Proof.
  induction fuel as [|fuel IH]; intros want got c Hfuel.
  - assert (want = 0) as -> by lia. eexists _, _, _.
    split; [reflexivity|]. split; [apply same_socket_refl|].
    case_decide; [|lia]. by rewrite take_0, app_nil_r, drop_0.
  - destruct want as [|want].
    { eexists _, _, _. split; [reflexivity|].
      split; [apply same_socket_refl|].
      case_decide; [|lia]. by rewrite take_0, app_nil_r, drop_0. }
    cbn [ReadAtLeast].
    destruct (PeekConn_Read_spec (S want) c) as (data & err & c1 & -> & Hs & H);
      [lia|].
    destruct H as [(-> & Hne & Hlen & Hst)|(-> & -> & Hst & Hst')].
    + destruct (IH (S want - length data) (got ++ data) c1)
        as (data' & err' & c2 & -> & Hs' & H').
      { destruct data; [done|]. simpl in *. lia. }
      eexists _, _, _. split; [reflexivity|].
      split; [by eapply same_socket_trans|].
      destruct Hs as (_ & _ & Hend). rewrite Hend in H'.
      rewrite Hst, length_app.
      destruct (decide (S want - length data ≤ length (stream c1))).
      * case_decide; [|lia]. destruct H' as (-> & -> & ->).
        split; [done|]. rewrite take_app, drop_app.
        replace (drop (S want) data) with (@nil byte)
          by (symmetry; apply drop_ge; lia).
        rewrite (take_ge data) by lia. by rewrite <- app_assoc.
      * case_decide; [lia|]. destruct H' as (-> & -> & ->).
        by rewrite <- app_assoc.
    + replace (S want <=? length []) with false by done.
      rewrite app_nil_r. rewrite Hst.
      eexists got, (Some (short_read got (rx_end (pc_conn c)))), c1.
      split; [by destruct got|]. split; [done|].
      case_decide; [simpl in *; lia|]. by rewrite app_nil_r.
Qed.

(** [io.ReadFull] on a [PeekConn]: the next [n] bytes of the stream, however
    they are cut into segments, or an error that uses the stream up. *)
Lemma io_ReadFull_spec n c :
  ∃ data err c', io_ReadFull n c = (data, err, c')
    ∧ same_socket (pc_conn c) (pc_conn c') ∧
    if decide (n ≤ length (stream c)) then
      err = None ∧ data = take n (stream c) ∧ stream c' = drop n (stream c)
    else
      err = Some (short_read (stream c) (rx_end (pc_conn c)))
      ∧ data = stream c ∧ stream c' = [].
Proof.
  unfold io_ReadFull.
  destruct (ReadAtLeast_spec n n [] c) as (data & err & c' & -> & Hs & H); [done|].
  eexists _, _, _. split; [reflexivity|]. split; [done|]. done.
Qed.

Lemma fill_spec c :
  length (pc_buffered c) < defaultBufSize →
  ∃ err c', fill c = (err, c') ∧ same_socket (pc_conn c) (pc_conn c')
    ∧ stream c' = stream c
    ∧ ((err = None ∧ length (pc_buffered c) < length (pc_buffered c'))
       ∨ (err = Some (rx_end (pc_conn c)) ∧ stream c = pc_buffered c
          ∧ pc_buffered c' = pc_buffered c)).
Proof.
  intros Hfree. unfold fill.
  destruct (Conn_Read_spec (defaultBufSize - length (pc_buffered c)) (pc_conn c))
    as (data & err & raw & -> & Hs & H); [lia|].
  destruct H as [(-> & Hne & Hlen & Hcat)|(-> & -> & Hcat & ->)].
  - destruct data as [|d data]; [done|]. eexists _, _. split; [reflexivity|].
    split; [exact Hs|]. unfold stream. cbn [pc_buffered pc_conn].
    split; [by rewrite Hcat, app_assoc|]. left. split; [done|].
    rewrite length_app. simpl. lia.
  - eexists _, _. split; [reflexivity|]. split; [apply same_socket_refl|].
    unfold stream. cbn [pc_buffered pc_conn]. rewrite Hcat, !app_nil_r.
    split; [done|]. by right.
Qed.

Lemma Peek_loop_spec fuel : ∀ n c,
  n ≤ length (pc_buffered c) + fuel →
  ∃ err c', Peek_loop fuel n c = (err, c') ∧ same_socket (pc_conn c) (pc_conn c')
    ∧ stream c' = stream c
    ∧ ((err = None
        ∧ (n ≤ length (pc_buffered c') ∨ defaultBufSize ≤ length (pc_buffered c')))
       ∨ (err = Some (rx_end (pc_conn c)) ∧ stream c = pc_buffered c'
          ∧ length (pc_buffered c') < n)).
Proof.
  induction fuel as [|fuel IH]; intros n c Hfuel.
  - cbn [Peek_loop].
    destruct (length (pc_buffered c) <? n) eqn:Hlt; [apply Nat.ltb_lt in Hlt; lia|].
    cbn [andb]. eexists _, _. split; [reflexivity|].
    split; [apply same_socket_refl|]. split; [done|]. left.
    apply Nat.ltb_ge in Hlt. auto.
  - cbn [Peek_loop].
    destruct (length (pc_buffered c) <? n) eqn:Hlt; cbn [andb].
    2:{ eexists _, _. split; [reflexivity|]. split; [apply same_socket_refl|].
        split; [done|]. left. apply Nat.ltb_ge in Hlt. auto. }
    destruct (length (pc_buffered c) <? defaultBufSize) eqn:Hfree.
    2:{ eexists _, _. split; [reflexivity|]. split; [apply same_socket_refl|].
        split; [done|]. left. apply Nat.ltb_ge in Hfree. auto. }
    apply Nat.ltb_lt in Hlt, Hfree.
    destruct (fill_spec c Hfree) as (err & c1 & -> & Hs & Hst & H).
    destruct H as [(-> & Hgrow)|(-> & Hall & Hsame)].
    + destruct (IH n c1) as (err' & c2 & -> & Hs' & Hst' & H'); [lia|].
      eexists _, _. split; [reflexivity|].
      split; [by eapply same_socket_trans|]. split; [congruence|].
      destruct Hs as (_ & _ & Hend). rewrite Hend, Hst in H'. done.
    + eexists _, _. split; [reflexivity|]. split; [exact Hs|]. split; [done|].
      right. rewrite Hsame. split; [done|]. split; [done|]. lia.
Qed.

(** Peeking never loses or alters bytes. *)
Lemma PeekConn_Peek_stream n c :
  ∃ head err c', PeekConn_Peek n c = (head, err, c')
    ∧ same_socket (pc_conn c) (pc_conn c') ∧ stream c' = stream c.
Proof.
  unfold PeekConn_Peek.
  destruct (Peek_loop_spec n n c) as (err & c' & -> & Hs & Hst & _); [lia|].
  destruct (defaultBufSize <? n); [by eexists _, _, _|].
  destruct (length (pc_buffered c') <? n); eexists _, _, _; done.
Qed.

(** [Peek(1)] shows the first byte of the stream, or fails with the error
    that ends an empty stream. *)
Lemma PeekConn_Peek_1 c :
  ∃ c', same_socket (pc_conn c) (pc_conn c') ∧ stream c' = stream c ∧
    PeekConn_Peek 1 c =
      match stream c with
      | [] => ([], Some (rx_end (pc_conn c)), c')
      | b :: _ => ([b], None, c')
      end.
Proof.
  unfold PeekConn_Peek.
  destruct (Peek_loop_spec 1 1 c) as (err & c' & -> & Hs & Hst & H); [lia|].
  change (defaultBufSize <? 1) with false. cbn iota.
  exists c'. split; [done|]. split; [done|].
  destruct H as [(-> & Hlen)|(-> & Hall & Hlen)].
  - assert (0 < length (pc_buffered c')) as Hpos
        by (unfold defaultBufSize in Hlen; lia).
    destruct (pc_buffered c') as [|b buffered] eqn:Hbuf; [simpl in Hpos; lia|].
    rewrite <- Hst. unfold stream. rewrite Hbuf. done.
  - destruct (pc_buffered c') as [|b buffered] eqn:Hbuf; [|simpl in Hlen; lia].
    rewrite Hall. done.
Qed.

Lemma PeekConn_Write_spec p c :
  ∃ n err c', PeekConn_Write p c = (n, err, c') ∧ stream c' = stream c
    ∧ rx_end (pc_conn c') = rx_end (pc_conn c) ∧
    match tx_budget (pc_conn c) with
    | Some 0 => err = Some (ErrNet "broken pipe") ∧ c' = c
    | Some (S k) =>
        err = None ∧ tx (pc_conn c') = tx (pc_conn c) ++ [p]
        ∧ tx_budget (pc_conn c') = Some k
    | None =>
        err = None ∧ tx (pc_conn c') = tx (pc_conn c) ++ [p]
        ∧ tx_budget (pc_conn c') = None
    end.
Proof.
  unfold PeekConn_Write, Conn_Write.
  destruct (tx_budget (pc_conn c)) as [[|k]|] eqn:Hb;
    eexists _, _, _; (split; [reflexivity|]); try done.
  by destruct c.
Qed.

(** Reading a connection to its end delivers its stream. *)
Lemma ReadAll_stream fuel : ∀ n c,
  0 < n → length (stream c) < fuel →
  ReadAll fuel n c = (stream c, rx_end (pc_conn c)).
Proof.
  induction fuel as [|fuel IH]; intros n c Hn Hfuel; [lia|].
  cbn [ReadAll].
  destruct (PeekConn_Read_spec n c Hn) as (data & err & c' & -> & Hs & H).
  destruct H as [(-> & Hne & Hlen & Hst)|(-> & -> & Hst & Hst')].
  - rewrite IH; [|done|].
    + destruct Hs as (_ & _ & ->). by rewrite Hst.
    + rewrite Hst, length_app in Hfuel. destruct data; [done|]. simpl in *. lia.
  - by rewrite Hst.
Qed.

(** ** Rules for the effects of the handshake *)

Lemma wp_intro {A} (m : io A) Q w r w' : m w = (r, w') → Q r w' → wp m Q w.
Proof. unfold wp. by intros ->. Qed.

Lemma wp_elim {A} (m : io A) Q w : wp m Q w → Q (m w).1 (m w).2.
Proof. done. Qed.

Lemma wp_mono {A} (m : io A) (Q Q' : outcome A → world → Prop) w :
  wp m Q w → (∀ r w', Q r w' → Q' r w') → wp m Q' w.
Proof. unfold wp. auto. Qed.

Lemma wp_ret {A} (a : A) Q w : Q (Done a) w → wp (mret a) Q w.
Proof. done. Qed.

Lemma wp_raise {A} e (Q : outcome A → world → Prop) w :
  Q (Raise e) w → wp (raise e) Q w.
Proof. done. Qed.

Lemma wp_bind {A B} (m : io A) (k : A → io B) Q w :
  wp m (λ r w', match r with
                | Done a => wp (k a) Q w'
                | Raise e => Q (Raise e) w'
                | Panic => Q Panic w'
                end) w →
  wp (m ≫= k) Q w.
Proof.
  unfold wp, mbind, io_bind. destruct (m w) as [[a|e|] w']; done.
Qed.

Lemma wp_wrap {A} format (m : io A) Q w :
  wp m (λ r w', match r with
                | Raise e => Q (Raise (Errorw format e)) w'
                | _ => Q r w'
                end) w →
  wp (wrap format m) Q w.
Proof.
  unfold wp, wrap. destruct (m w) as [[a|e|] w']; done.
Qed.

Lemma wp_index buf i b Q w :
  buf !! i = Some b → Q (Done b) w → wp (index buf i) Q w.
Proof. unfold wp, index. by intros ->. Qed.

Lemma wp_index_lt buf i (Q : outcome byte → world → Prop) w :
  i < length buf → (∀ b, buf !! i = Some b → Q (Done b) w) → wp (index buf i) Q w.
Proof.
  intros Hi HQ. destruct (lookup_lt_is_Some_2 buf i Hi) as [b Hb].
  eapply wp_index; eauto.
Qed.

(** [io.ReadFull] into a slice that fits: in any world it asks for [n]
    bytes, leaves the write side alone and, when it returns [nil], has
    stored the next [n] bytes at the front of the buffer. *)
Lemma wp_ReadFull_slice buf n (Q : outcome (list byte) → world → Prop) w :
  n ≤ length buf →
  (∀ w', v_sent (view_of w') = v_sent (view_of w) →
         v_budget (view_of w') = v_budget (view_of w) →
         v_end (view_of w') = v_end (view_of w) →
         v_slices (view_of w') = v_slices (view_of w) ++ [n] →
     (n ≤ length (v_pending (view_of w)) →
      v_pending (view_of w') = drop n (v_pending (view_of w)) →
      Q (Done (take n (v_pending (view_of w)) ++ drop n buf)) w')
     ∧ (length (v_pending (view_of w)) < n →
        v_pending (view_of w') = [] →
        Q (Raise (short_read (v_pending (view_of w)) (v_end (view_of w)))) w')) →
  wp (ReadFull_slice buf n) Q w.
Proof.
  intros Hfit HQ. unfold wp, ReadFull_slice.
  rewrite (proj2 (Nat.leb_le _ _) Hfit).
  destruct (io_ReadFull_spec n (w_conn w)) as (data & err & c' & -> & Hs & H).
  destruct Hs as (Htx & Hbudget & Hend).
  set (w' := {| w_conn := c'; w_slices := w_slices w ++ [n] |}).
  destruct (HQ w' Htx Hbudget Hend eq_refl) as [Hok Hshort].
  case_decide as Hlen.
  - destruct H as (-> & -> & Hst). cbn [fst snd].
    rewrite length_take, Nat.min_l by done. auto.
  - destruct H as (-> & -> & Hst). cbn [fst snd]. apply Hshort; [|done].
    unfold view_of. cbn [v_pending]. lia.
Qed.

(** The same read when the front of the stream is known. *)
Lemma wp_ReadFull_slice_ok buf data rest (Q : outcome (list byte) → world → Prop) w :
  length data ≤ length buf →
  v_pending (view_of w) = data ++ rest →
  (∀ w', view_of w' =
           {| v_pending := rest; v_sent := v_sent (view_of w);
              v_budget := v_budget (view_of w); v_end := v_end (view_of w);
              v_slices := v_slices (view_of w) ++ [length data] |} →
     Q (Done (data ++ drop (length data) buf)) w') →
  wp (ReadFull_slice buf (length data)) Q w.
Proof.
  intros Hfit Hp HQ. apply wp_ReadFull_slice; [done|].
  intros w' Htx Hbudget Hend Hsl. split.
  - intros _ Hp'. rewrite Hp, take_app_length. apply HQ.
    rewrite Hp, drop_app_length in Hp'.
    unfold view_of in *. cbn in *. by f_equal.
  - rewrite Hp, length_app. lia.
Qed.

(** The same read when the stream is too short. *)
Lemma wp_ReadFull_slice_short buf n (Q : outcome (list byte) → world → Prop) w :
  n ≤ length buf →
  length (v_pending (view_of w)) < n →
  (∀ w', view_of w' =
           {| v_pending := []; v_sent := v_sent (view_of w);
              v_budget := v_budget (view_of w); v_end := v_end (view_of w);
              v_slices := v_slices (view_of w) ++ [n] |} →
     Q (Raise (short_read (v_pending (view_of w)) (v_end (view_of w)))) w') →
  wp (ReadFull_slice buf n) Q w.
Proof.
  intros Hfit Hp HQ. apply wp_ReadFull_slice; [done|].
  intros w' Htx Hbudget Hend Hsl. split; [lia|].
  intros _ Hp'. apply HQ. unfold view_of in *. cbn in *. by f_equal.
Qed.

(** A write on a socket that never breaks. *)
Lemma wp_Write_all_ok p (Q : outcome unit → world → Prop) w :
  v_budget (view_of w) = None →
  (∀ w', view_of w' =
           {| v_pending := v_pending (view_of w);
              v_sent := v_sent (view_of w) ++ [p];
              v_budget := None; v_end := v_end (view_of w);
              v_slices := v_slices (view_of w) |} →
     Q (Done tt) w') →
  wp (Write_all p) Q w.
Proof.
  intros Hb HQ. unfold wp, Write_all.
  destruct (PeekConn_Write_spec p (w_conn w)) as (n & err & c' & -> & Hst & Hend & H).
  unfold view_of in Hb. cbn in Hb. rewrite Hb in H. destruct H as (-> & Htx & Hb').
  cbn [fst snd]. apply HQ. unfold view_of. cbn. by f_equal.
Qed.

(** A write in any world: it asks for no slice and does not panic. *)
Lemma wp_Write_all p (Q : outcome unit → world → Prop) w :
  (∀ r w', r ≠ Panic → v_slices (view_of w') = v_slices (view_of w) → Q r w') →
  wp (Write_all p) Q w.
Proof.
  intros HQ. unfold wp, Write_all.
  destruct (PeekConn_Write p (w_conn w)) as [[n [e|]] c']; by apply HQ.
Qed.

(** [switch atyp] takes the default case for every byte but 1, 3 and 4. *)
Lemma switch_atyp_default {A} (a1 a3 a4 a : A) (atyp : byte) :
  atyp ≠ x01 → atyp ≠ x03 → atyp ≠ x04 →
  match atyp with x01 => a1 | x03 => a3 | x04 => a4 | _ => a end = a.
Proof. intros. by destruct atyp. Qed.

Lemma Byte_eqb_refl b : Byte.eqb b b = true.
Proof. by apply Byte.byte_dec_lb. Qed.

Lemma Byte_eqb_neq a b : a ≠ b → Byte.eqb a b = false.
Proof.
  intros Hne. destruct (Byte.eqb a b) eqn:E; [|done].
  by apply Byte.byte_dec_bl in E.
Qed.

(** ** The SOCKS5 handshake *)

Lemma len_byte_to_nat n : n ≤ 255 → Byte.to_nat (len_byte n) = n.
Proof.
  intros Hn. unfold len_byte.
  destruct (Byte.of_nat n) as [b|] eqn:E.
  - by apply Byte.to_of_nat.
  - apply Byte.of_nat_None_iff in E. lia.
Qed.

Ltac view_simpl :=
  cbn [v_pending v_sent v_budget v_end v_slices] in *.

(** The greeting phase on a stream that holds a whole greeting. *)
Lemma clientGreeting_spec buf w gver nb methods rest :
  length buf = 258 →
  v_pending (view_of w) = gver :: nb :: methods ++ rest →
  Byte.to_nat nb = length methods →
  wp (clientGreeting buf) (λ r w',
    if decide (gver = x05) then
      (∃ buf', r = Done buf' ∧ length buf' = 258)
      ∧ view_of w' =
          {| v_pending := rest; v_sent := v_sent (view_of w);
             v_budget := v_budget (view_of w); v_end := v_end (view_of w);
             v_slices := v_slices (view_of w) ++ [2; length methods] |}
    else
      r = Raise (Errorf "unsupported version: %d" (Byte.to_nat gver))
      ∧ view_of w' =
          {| v_pending := methods ++ rest; v_sent := v_sent (view_of w);
             v_budget := v_budget (view_of w); v_end := v_end (view_of w);
             v_slices := v_slices (view_of w) ++ [2] |}) w.
Proof.
  intros Hbuf Hp Hn. unfold clientGreeting.
  apply wp_bind, wp_wrap.
  apply (wp_ReadFull_slice_ok _ [gver; nb] (methods ++ rest)); [simpl; lia|done|].
  intros w1 Hv1. apply wp_bind. eapply wp_index; [reflexivity|].
  case_decide as Hg.
  - subst gver. change (negb (Byte.eqb x05 x05)) with false. cbn iota.
    apply wp_bind. eapply wp_index; [reflexivity|]. rewrite Hn.
    apply wp_wrap.
    apply (wp_ReadFull_slice_ok _ methods rest).
    { pose proof (Byte.to_nat_bounded nb). rewrite length_app, length_drop. simpl. lia. }
    { by rewrite Hv1. }
    intros w2 Hv2. rewrite Hv1 in Hv2. view_simpl. split.
    + eexists. split; [done|].
      pose proof (Byte.to_nat_bounded nb).
      rewrite !length_app, !length_drop, length_app, length_drop. simpl. lia.
    + rewrite Hv2. f_equal. by rewrite <- app_assoc.
  - rewrite (Byte_eqb_neq _ _ Hg). apply wp_raise. done.
Qed.
(** A read of [n] bytes in a world whose view is known: it succeeds when
    [n] bytes are still to come and fails otherwise. *)
Lemma wp_ReadFull_slice_view buf n V (Q : outcome (list byte) → world → Prop) w :
  n ≤ length buf →
  view_of w = V →
  (n ≤ length (v_pending V) →
   ∀ w', view_of w' =
           {| v_pending := drop n (v_pending V); v_sent := v_sent V;
              v_budget := v_budget V; v_end := v_end V;
              v_slices := v_slices V ++ [n] |} →
     Q (Done (take n (v_pending V) ++ drop n buf)) w') →
  (length (v_pending V) < n →
   ∀ w', view_of w' =
           {| v_pending := []; v_sent := v_sent V;
              v_budget := v_budget V; v_end := v_end V;
              v_slices := v_slices V ++ [n] |} →
     Q (Raise (short_read (v_pending V) (v_end V))) w') →
  wp (ReadFull_slice buf n) Q w.
Proof.
  intros Hfit <- Hok Hshort. apply wp_ReadFull_slice; [done|].
  intros w' Htx Hbudget Hend Hsl. split.
  - intros Hlen Hp. apply Hok; [done|]. unfold view_of in *. cbn in *. by f_equal.
  - intros Hlen Hp. apply Hshort; [done|]. unfold view_of in *. cbn in *. by f_equal.
Qed.

Lemma attempts_cons_ok n sizes avail :
  n ≤ avail → attempts (n :: sizes) avail = n :: attempts sizes (avail - n).
Proof. intros H. cbn [attempts]. by rewrite (proj2 (Nat.leb_le n avail)). Qed.

Lemma attempts_cons_short n sizes avail :
  avail < n → attempts (n :: sizes) avail = [n].
Proof. intros H. cbn [attempts]. by rewrite (proj2 (Nat.leb_gt n avail)). Qed.

Lemma attempts_all sizes : ∀ avail,
  total sizes ≤ avail → attempts sizes avail = sizes.
Proof.
  induction sizes as [|n sizes IH]; intros avail Hsum; [done|].
  cbn [total] in Hsum. rewrite attempts_cons_ok by lia.
  rewrite IH by lia. done.
Qed.

Ltac len_solve :=
  repeat (rewrite ?length_app, ?length_drop, ?length_take, ?length_cons in *);
  cbn [length] in *; lia.

(** The address types of fixed length: the address, then the port. *)
Ltac fixed_address Hv1 :=
  cbn [addr_slices app total]; apply wp_bind;
  eapply wp_ReadFull_slice_view; [lia|exact Hv1|..]; view_simpl;
  [ let Hlen := fresh in let w2 := fresh in let Hv2 := fresh in
    intros Hlen w2 Hv2; view_simpl;
    eapply wp_ReadFull_slice_view; [len_solve|exact Hv2|..]; view_simpl;
    [ let Hlen' := fresh in let w3 := fresh in let Hv3 := fresh in
      intros Hlen' w3 Hv3; rewrite Hv3; view_simpl;
      rewrite length_drop in Hlen';
      do 3 (split; [done|]); rewrite attempts_all by (cbn [total app length]; lia);
      split; [by rewrite <- !app_assoc|];
      case_decide; [|lia];
      split; [eexists; split; [done|len_solve]|];
      split; [by rewrite <- !app_assoc|]; by rewrite drop_drop
    | let Hlen' := fresh in let w3 := fresh in let Hv3 := fresh in
      intros Hlen' w3 Hv3; rewrite Hv3; view_simpl;
      rewrite length_drop in Hlen';
      do 3 (split; [done|]);
      rewrite attempts_cons_ok, attempts_cons_short by lia;
      split; [by rewrite <- !app_assoc|];
      case_decide; [lia|]; eauto ]
  | let Hlen := fresh in let w2 := fresh in let Hv2 := fresh in
    intros Hlen w2 Hv2; rewrite Hv2; view_simpl;
    do 3 (split; [done|]); rewrite attempts_cons_short by lia;
    split; [by rewrite <- !app_assoc|];
    case_decide; [lia|]; eauto ].

(** The request phase on a stream that holds the 4-byte header: what is
    read, by command and address type. *)
Lemma clientRequest_spec buf w ver cmd rsv atyp body :
  255 ≤ length buf →
  v_pending (view_of w) = ver :: cmd :: rsv :: atyp :: body →
  wp (clientRequest buf) (λ r w',
    v_sent (view_of w') = v_sent (view_of w)
    ∧ v_budget (view_of w') = v_budget (view_of w)
    ∧ v_end (view_of w') = v_end (view_of w)
    ∧ if decide (cmd = x01) then
        match addr_slices atyp body with
        | Some sizes =>
            v_slices (view_of w') =
              v_slices (view_of w) ++ 4 :: attempts (sizes ++ [2]) (length body)
            ∧ if decide (total sizes + 2 ≤ length body) then
                (∃ buf', r = Done buf' ∧ length buf' = length buf)
                ∧ v_slices (view_of w') = v_slices (view_of w) ++ 4 :: sizes ++ [2]
                ∧ v_pending (view_of w') = drop (total sizes + 2) body
              else ∃ e, r = Raise e
        | None =>
            r = Raise (Errorf "unsupported address type: %d" (Byte.to_nat atyp))
            ∧ v_slices (view_of w') = v_slices (view_of w) ++ [4]
            ∧ v_pending (view_of w') = body
        end
      else
        r = Raise (Errorf "unsupported command: %d" (Byte.to_nat cmd))
        ∧ v_slices (view_of w') = v_slices (view_of w) ++ [4]
        ∧ v_pending (view_of w') = body) w.
Proof.
  intros Hbuf Hp. unfold clientRequest.
  apply wp_bind, wp_wrap.
  apply (wp_ReadFull_slice_ok _ [ver; cmd; rsv; atyp] body); [simpl; lia|done|].
  intros w1 Hv1. apply wp_bind. eapply wp_index; [reflexivity|].
  case_decide as Hcmd.
  2:{ rewrite (Byte_eqb_neq _ _ Hcmd). apply wp_raise. by rewrite Hv1. }
  subst cmd. change (negb (Byte.eqb x01 x01)) with false. cbn iota.
  apply wp_bind. eapply wp_index; [reflexivity|].
  set (buf1 := [ver; x01; rsv; atyp] ++ drop (length [ver; x01; rsv; atyp]) buf).
  assert (length buf1 = length buf) as Hbuf1 by (subst buf1; len_solve).
  clearbody buf1.
  destruct (decide (atyp = x01)) as [->|H1];
    [|destruct (decide (atyp = x03)) as [->|H3];
      [|destruct (decide (atyp = x04)) as [->|H4]]].
  - (* IPv4 *) fixed_address Hv1.
  - (* domain name *)
    cbn [addr_slices]. apply wp_bind, wp_bind.
    eapply wp_ReadFull_slice_view; [lia|exact Hv1|..]; view_simpl.
    + intros Hlen w2 Hv2. destruct body as [|l name]; [cbn in Hlen; lia|].
      cbn [take drop app length] in *. rewrite ?drop_0, ?take_0 in *.
      apply wp_bind. eapply wp_index; [reflexivity|].
      pose proof (Byte.to_nat_bounded l) as Hl.
      eapply wp_ReadFull_slice_view; [len_solve|exact Hv2|..]; view_simpl.
      * intros Hlen' w3 Hv3.
        eapply wp_ReadFull_slice_view; [len_solve|exact Hv3|..]; view_simpl.
        -- intros Hlen'' w4 Hv4. rewrite Hv4. view_simpl.
           rewrite length_drop in Hlen''.
           do 3 (split; [done|]). rewrite attempts_all by (cbn [total app length]; lia).
           cbn [total app]. split; [by rewrite <- !app_assoc|].
           case_decide; [|lia].
           split; [eexists; split; [done|len_solve]|].
           split; [by rewrite <- !app_assoc|].
           rewrite drop_drop. by replace (1 + (Byte.to_nat l + 0) + 2)
             with (S (Byte.to_nat l + 2)) by lia.
        -- intros Hlen'' w4 Hv4. rewrite Hv4. view_simpl.
           rewrite length_drop in Hlen''.
           do 3 (split; [done|]). cbn [app total].
           rewrite !attempts_cons_ok, attempts_cons_short by (cbn [length]; lia).
           split; [by rewrite <- !app_assoc|].
           case_decide; [lia|]. eauto.
      * intros Hlen' w3 Hv3. rewrite Hv3. view_simpl.
        do 3 (split; [done|]). cbn [app total].
        rewrite attempts_cons_ok, attempts_cons_short by (cbn [length]; lia).
        split; [by rewrite <- !app_assoc|].
        case_decide; [lia|]. eauto.
    + intros Hlen w2 Hv2. rewrite Hv2. view_simpl.
      destruct body as [|l name]; [|cbn in Hlen; lia].
      do 3 (split; [done|]). cbn [app total length].
      rewrite attempts_cons_short by lia.
      split; [by rewrite <- !app_assoc|].
      case_decide; [lia|]. eauto.
  - (* IPv6 *) fixed_address Hv1.
  - rewrite switch_atyp_default by done. apply wp_bind, wp_raise.
    rewrite Hv1. view_simpl. unfold addr_slices.
    by rewrite switch_atyp_default by done.
Qed.

(** C7: the request phase, on a stream that holds the 4-byte header
    ver cmd rsv atyp.  After the header, a command other than 1 fails with
    "unsupported command" and nothing more is read.  Otherwise address
    type 1 asks io.ReadFull for 4 bytes, type 3 for 1 byte and then for as
    many bytes as that byte says, type 4 for 16 bytes, and any other type
    fails with "unsupported address type" with nothing more read; in each
    of the three supported cases 2 port bytes are asked for next, and the
    phase succeeds exactly when the stream holds all of them.  Nothing is
    written. *)
Theorem clientRequest_reads buf w ver cmd rsv atyp body :
  255 ≤ length buf →
  v_pending (view_of w) = ver :: cmd :: rsv :: atyp :: body →
  wp (clientRequest buf) (λ r w',
    v_sent (view_of w') = v_sent (view_of w)
    ∧ v_budget (view_of w') = v_budget (view_of w)
    ∧ v_end (view_of w') = v_end (view_of w)
    ∧ if decide (cmd = x01) then
        match addr_slices atyp body with
        | Some sizes =>
            v_slices (view_of w') =
              v_slices (view_of w) ++ 4 :: attempts (sizes ++ [2]) (length body)
            ∧ if decide (total sizes + 2 ≤ length body) then
                (∃ buf', r = Done buf' ∧ length buf' = length buf)
                ∧ v_slices (view_of w') = v_slices (view_of w) ++ 4 :: sizes ++ [2]
                ∧ v_pending (view_of w') = drop (total sizes + 2) body
              else ∃ e, r = Raise e
        | None =>
            r = Raise (Errorf "unsupported address type: %d" (Byte.to_nat atyp))
            ∧ v_slices (view_of w') = v_slices (view_of w) ++ [4]
            ∧ v_pending (view_of w') = body
        end
      else
        r = Raise (Errorf "unsupported command: %d" (Byte.to_nat cmd))
        ∧ v_slices (view_of w') = v_slices (view_of w) ++ [4]
        ∧ v_pending (view_of w') = body) w.
Proof.
  intros Hbuf Hp. unfold clientRequest.
  apply wp_bind, wp_wrap.
  apply (wp_ReadFull_slice_ok _ [ver; cmd; rsv; atyp] body); [simpl; lia|done|].
  intros w1 Hv1. apply wp_bind. eapply wp_index; [reflexivity|].
  case_decide as Hcmd.
  2:{ rewrite (Byte_eqb_neq _ _ Hcmd). apply wp_raise. by rewrite Hv1. }
  subst cmd. change (negb (Byte.eqb x01 x01)) with false. cbn iota.
  apply wp_bind. eapply wp_index; [reflexivity|].
  set (buf1 := [ver; x01; rsv; atyp] ++ drop (length [ver; x01; rsv; atyp]) buf).
  assert (length buf1 = length buf) as Hbuf1 by (subst buf1; len_solve).
  clearbody buf1.
  destruct (decide (atyp = x01)) as [->|H1];
    [|destruct (decide (atyp = x03)) as [->|H3];
      [|destruct (decide (atyp = x04)) as [->|H4]]].
  - (* IPv4 *) fixed_address Hv1.
  - (* domain name *)
    cbn [addr_slices]. apply wp_bind, wp_bind.
    eapply wp_ReadFull_slice_view; [lia|exact Hv1|..]; view_simpl.
    + intros Hlen w2 Hv2. destruct body as [|l name]; [cbn in Hlen; lia|].
      cbn [take drop app length] in *. rewrite ?drop_0, ?take_0 in *.
      apply wp_bind. eapply wp_index; [reflexivity|].
      pose proof (Byte.to_nat_bounded l) as Hl.
      eapply wp_ReadFull_slice_view; [len_solve|exact Hv2|..]; view_simpl.
      * intros Hlen' w3 Hv3.
        eapply wp_ReadFull_slice_view; [len_solve|exact Hv3|..]; view_simpl.
        -- intros Hlen'' w4 Hv4. rewrite Hv4. view_simpl.
           rewrite length_drop in Hlen''.
           do 3 (split; [done|]). rewrite attempts_all by (cbn [total app length]; lia).
           cbn [total app]. split; [by rewrite <- !app_assoc|].
           case_decide; [|lia].
           split; [eexists; split; [done|len_solve]|].
           split; [by rewrite <- !app_assoc|].
           rewrite drop_drop. by replace (1 + (Byte.to_nat l + 0) + 2)
             with (S (Byte.to_nat l + 2)) by lia.
        -- intros Hlen'' w4 Hv4. rewrite Hv4. view_simpl.
           rewrite length_drop in Hlen''.
           do 3 (split; [done|]). cbn [app total].
           rewrite !attempts_cons_ok, attempts_cons_short by (cbn [length]; lia).
           split; [by rewrite <- !app_assoc|].
           case_decide; [lia|]. eauto.
      * intros Hlen' w3 Hv3. rewrite Hv3. view_simpl.
        do 3 (split; [done|]). cbn [app total].
        rewrite attempts_cons_ok, attempts_cons_short by (cbn [length]; lia).
        split; [by rewrite <- !app_assoc|].
        case_decide; [lia|]. eauto.
    + intros Hlen w2 Hv2. rewrite Hv2. view_simpl.
      destruct body as [|l name]; [|cbn in Hlen; lia].
      do 3 (split; [done|]). cbn [app total length].
      rewrite attempts_cons_short by lia.
      split; [by rewrite <- !app_assoc|].
      case_decide; [lia|]. eauto.
  - (* IPv6 *) fixed_address Hv1.
  - rewrite switch_atyp_default by done. apply wp_bind, wp_raise.
    rewrite Hv1. view_simpl. unfold addr_slices.
    by rewrite switch_atyp_default by done.
Qed.
(** A read in any world: it does not panic when the slice fits, and the
    buffer keeps its length. *)
Lemma wp_ReadFull_slice_safe buf n (Q : outcome (list byte) → world → Prop) w :
  n ≤ length buf →
  (∀ r w', r ≠ Panic →
           (∀ buf', r = Done buf' →
              length buf' = length buf
              ∧ ∃ data, buf' = data ++ drop n buf ∧ length data = n) →
           w_slices w' = w_slices w ++ [n] → Q r w') →
  wp (ReadFull_slice buf n) Q w.
Proof.
  intros Hfit HQ. apply wp_ReadFull_slice; [done|].
  intros w' _ _ _ Hsl. split.
  - intros Hlen _. change (n ≤ length (stream (w_conn w))) in Hlen.
    apply HQ; [done| |done].
    intros buf' [= <-]. split.
    + rewrite length_app, length_take, length_drop. lia.
    + eexists. split; [done|]. rewrite length_take. lia.
  - intros _ _. apply HQ; [done|done|done].
Qed.

Lemma in_bounds_refl {A} w (r : outcome A) : r ≠ Panic → in_bounds w r w.
Proof. intros. split; [done|]. exists []. by rewrite app_nil_r. Qed.

Lemma in_bounds_step {A} w w1 w2 n (r : outcome A) :
  w_slices w1 = w_slices w ++ [n] → n ≤ 255 →
  in_bounds w1 r w2 → in_bounds w r w2.
Proof.
  intros Hsl Hn [Hr (asked & Hsl' & Hall)]. split; [done|].
  exists (n :: asked). split; [by rewrite Hsl', Hsl, <- app_assoc|].
  by constructor.
Qed.

Lemma in_bounds_same {A} w w1 w2 (r : outcome A) :
  w_slices w1 = w_slices w → in_bounds w1 r w2 → in_bounds w r w2.
Proof. intros Hsl [Hr (asked & Hsl' & Hall)]. split; [done|]. exists asked. by rewrite Hsl', Hsl. Qed.

Lemma in_bounds_last {A} w w1 n (r : outcome A) :
  w_slices w1 = w_slices w ++ [n] → n ≤ 255 → r ≠ Panic → in_bounds w r w1.
Proof.
  intros Hsl Hn Hr. eapply in_bounds_step; [done..|]. by apply in_bounds_refl.
Qed.

Ltac bounds_last := eapply in_bounds_last; [eassumption|lia|done].

Lemma clientGreeting_in_bounds buf w :
  length buf = 258 →
  wp (clientGreeting buf) (λ r w',
    in_bounds w r w' ∧ ∀ buf', r = Done buf' → length buf' = 258) w.
Proof.
  intros Hbuf. unfold clientGreeting.
  apply wp_bind, wp_wrap, wp_ReadFull_slice_safe; [lia|].
  intros r w1 Hnp Hdone Hsl1; destruct r as [buf1|e|]; cbn beta iota; [|split; [bounds_last|done]|done].
  destruct (Hdone _ eq_refl) as [Hbuf1 _].
  apply wp_bind, wp_index_lt; [lia|]. intros b0 _.
  destruct (negb (Byte.eqb b0 x05)).
  { apply wp_raise. split; [bounds_last|done]. }
  apply wp_bind, wp_index_lt; [lia|]. intros b1 _.
  pose proof (Byte.to_nat_bounded b1) as Hb1.
  apply wp_wrap, wp_ReadFull_slice_safe; [lia|].
  intros r w2 Hnp2 Hdone2 Hsl2; destruct r as [buf2|e|]; cbn beta iota; [| |done].
  - split.
    + eapply in_bounds_step; [done|lia|]. bounds_last.
    + intros ? [= <-]. destruct (Hdone2 _ eq_refl) as [-> _]. lia.
  - split; [|done]. eapply in_bounds_step; [done|lia|]. bounds_last.
Qed.

Lemma clientRequest_in_bounds buf w :
  length buf = 258 →
  wp (clientRequest buf) (λ r w', in_bounds w r w') w.
Proof.
  intros Hbuf. unfold clientRequest.
  apply wp_bind, wp_wrap, wp_ReadFull_slice_safe; [lia|].
  intros r w1 Hnp Hdone Hsl1; destruct r as [buf1|e|]; cbn beta iota; [|bounds_last|done].
  destruct (Hdone _ eq_refl) as [Hbuf1 _].
  apply wp_bind, wp_index_lt; [lia|]. intros cmd _.
  destruct (negb (Byte.eqb cmd x01)).
  { apply wp_raise. bounds_last. }
  apply wp_bind, wp_index_lt; [lia|]. intros atyp _.
  eapply wp_mono with (Q := λ r w', in_bounds w1 r w').
  2:{ intros r w'. eapply in_bounds_step; [exact Hsl1|lia]. }
  apply wp_bind.
  assert (∀ n buf2 w2, n ≤ 255 → length buf2 = 258 →
            wp (ReadFull_slice buf2 n) (λ r w3,
              match r with
              | Done buf3 => wp (ReadFull_slice buf3 2) (λ r w', in_bounds w2 r w') w3
              | Raise e => in_bounds w2 (@Raise (list byte) e) w3
              | Panic => in_bounds w2 (@Panic (list byte)) w3
              end) w2) as Haddr.
  { intros n buf2 w2 Hn Hbuf2. apply wp_ReadFull_slice_safe; [lia|].
    intros r w3 Hnp3 Hdone3 Hsl3; destruct r as [buf3|e|]; cbn beta iota; [|bounds_last|done].
    destruct (Hdone3 _ eq_refl) as [Hbuf3 _].
    apply wp_ReadFull_slice_safe; [lia|].
    intros r w4 Hnp4 _ Hsl4. eapply in_bounds_step; [done|lia|].
    bounds_last. }
  destruct (decide (atyp = x01)) as [->|H1];
    [|destruct (decide (atyp = x03)) as [->|H3];
      [|destruct (decide (atyp = x04)) as [->|H4]]].
  - apply Haddr; [lia|congruence].
  - apply wp_bind, wp_ReadFull_slice_safe; [lia|].
    intros r w2 Hnp2 Hdone2 Hsl2; destruct r as [buf2|e|]; cbn beta iota; [|bounds_last|done].
    destruct (Hdone2 _ eq_refl) as [Hbuf2 _].
    apply wp_bind, wp_index_lt; [lia|]. intros b0 _.
    pose proof (Byte.to_nat_bounded b0) as Hb0.
    eapply wp_mono; [apply (Haddr (Byte.to_nat b0) buf2 w2); [lia|congruence]|].
    intros [buf3|e|] w3; cbn beta iota.
    + intros H. eapply wp_mono; [exact H|]. intros r w'.
      eapply in_bounds_step; [exact Hsl2|lia].
    + eapply in_bounds_step; [exact Hsl2|lia].
    + eapply in_bounds_step; [exact Hsl2|lia].
  - apply Haddr; [lia|congruence].
  - rewrite switch_atyp_default by done. apply wp_raise. by apply in_bounds_refl.
Qed.

Lemma Write_all_in_bounds format p w :
  wp (wrap format (Write_all p)) (λ r w', in_bounds w r w') w.
Proof.
  apply wp_wrap, wp_Write_all. intros r w' Hnp Hsl.
  destruct r; (split; [done|]); exists []; rewrite app_nil_r; (split; [exact Hsl|done]).
Qed.

Lemma in_bounds_trans {A B} w w1 w2 (r1 : outcome A) (r2 : outcome B) :
  in_bounds w r1 w1 → in_bounds w1 r2 w2 → in_bounds w r2 w2.
Proof.
  intros [_ (a1 & E1 & F1)] [Hnp (a2 & E2 & F2)]. split; [done|].
  exists (a1 ++ a2). split; [by rewrite E2, E1, <- app_assoc|].
  by apply Forall_app.
Qed.

Lemma in_bounds_retype {A B} w w' (r : outcome A) (r' : outcome B) :
  r' ≠ Panic → in_bounds w r w' → in_bounds w r' w'.
Proof. intros Hnp [_ H]. by split. Qed.

(** C10: the scratch buffer of the handshake has 258 bytes, and for every
    connection, whatever bytes it delivers and however it fails, the
    handshake never slices or indexes the buffer out of range (the model
    panics where Go would), and every slice it hands to io.ReadFull has
    length at most 255. *)
Theorem handleSocks5Handshake_in_bounds (w : world) :
  length (replicate 258 x00) = 258
  ∧ wp handleSocks5Handshake (λ r w', in_bounds w r w') w.
Proof.
  split; [by rewrite length_replicate|].
  unfold handleSocks5Handshake. apply wp_bind.
  eapply wp_mono; [apply clientGreeting_in_bounds; by rewrite length_replicate|].
  intros [buf1|e|] w1 [Hb1 Hlen1]; cbn beta iota;
    [|by eapply in_bounds_retype|by destruct Hb1].
  apply wp_bind. unfold serverChoice.
  eapply wp_mono; [apply Write_all_in_bounds|].
  intros [[]|e|] w2 Hb2; cbn beta iota;
    [|eapply in_bounds_trans; [exact Hb1|by eapply in_bounds_retype]
     |by destruct Hb2].
  apply wp_bind.
  eapply wp_mono; [apply clientRequest_in_bounds; by eapply Hlen1|].
  intros [buf3|e|] w3 Hb3; cbn beta iota;
    [|eapply in_bounds_trans; [exact Hb1|];
      eapply in_bounds_trans; [exact Hb2|by eapply in_bounds_retype]
     |by destruct Hb3].
  unfold serverReply. eapply wp_mono; [apply Write_all_in_bounds|].
  intros r w4 Hb4.
  eapply in_bounds_trans; [exact Hb1|].
  eapply in_bounds_trans; [exact Hb2|].
  eapply in_bounds_trans; [exact Hb3|exact Hb4].
Qed.
Lemma addr_slices_supported atyp body :
  is_Some (addr_slices atyp body) ↔ atyp = x01 ∨ atyp = x03 ∨ atyp = x04.
Proof.
  split.
  - intros [sizes H].
    destruct (decide (atyp = x01)) as [|H1]; [auto|].
    destruct (decide (atyp = x03)) as [|H3]; [auto|].
    destruct (decide (atyp = x04)) as [|H4]; [auto|].
    unfold addr_slices in H. by rewrite switch_atyp_default in H.
  - intros [H|[H|H]]; subst atyp; by eexists.
Qed.

(** The whole handshake on a stream that holds a greeting and a request of
    the right lengths, through a socket that accepts the writes. *)
Lemma handleSocks5Handshake_run w gver nb methods ver cmd rsv atyp body :
  v_budget (view_of w) = None →
  v_pending (view_of w) = gver :: nb :: methods ++ ver :: cmd :: rsv :: atyp :: body →
  Byte.to_nat nb = length methods →
  (∀ sizes, addr_slices atyp body = Some sizes → total sizes + 2 ≤ length body) →
  wp handleSocks5Handshake (λ r w',
    if decide (gver = x05) then
      if decide (cmd = x01) then
        match addr_slices atyp body with
        | Some sizes =>
            r = Done tt
            ∧ view_of w' =
                {| v_pending := drop (total sizes + 2) body;
                   v_sent := v_sent (view_of w) ++ [[x05; x00]; response];
                   v_budget := None; v_end := v_end (view_of w);
                   v_slices := v_slices (view_of w)
                               ++ [2; length methods] ++ 4 :: sizes ++ [2] |}
        | None =>
            r = Raise (Errorf "unsupported address type: %d" (Byte.to_nat atyp))
            ∧ v_sent (view_of w') = v_sent (view_of w) ++ [[x05; x00]]
        end
      else
        r = Raise (Errorf "unsupported command: %d" (Byte.to_nat cmd))
        ∧ v_sent (view_of w') = v_sent (view_of w) ++ [[x05; x00]]
    else
      r = Raise (Errorf "unsupported version: %d" (Byte.to_nat gver))
      ∧ v_sent (view_of w') = v_sent (view_of w)) w.
Proof.
  intros Hb Hp Hn Hwf. unfold handleSocks5Handshake. apply wp_bind.
  eapply wp_mono;
    [apply (clientGreeting_spec _ w gver nb methods
              (ver :: cmd :: rsv :: atyp :: body));
     [by rewrite length_replicate|done|done]|].
  intros r w1. cbn beta. case_decide as Hg.
  2:{ intros [-> Hv1]. by rewrite Hv1. }
  intros [(buf1 & -> & Hbuf1) Hv1]. cbn iota.
  apply wp_bind. unfold serverChoice. apply wp_wrap.
  apply wp_Write_all_ok; [by rewrite Hv1|]. intros w2 Hv2.
  rewrite Hv1 in Hv2. view_simpl.
  apply wp_bind.
  eapply wp_mono;
    [apply (clientRequest_spec buf1 w2 ver cmd rsv atyp body);
     [lia|by rewrite Hv2]|].
  intros r w3. cbn beta. rewrite Hv2. view_simpl.
  intros (Hsent & Hbudget & Hend & H).
  case_decide as Hcmd.
  2:{ destruct H as (-> & _ & _). done. }
  destruct (addr_slices atyp body) as [sizes|] eqn:Hsizes.
  2:{ destruct H as (-> & _ & _). done. }
  destruct H as [_ H]. specialize (Hwf sizes eq_refl).
  case_decide; [|lia]. destruct H as ((buf3 & -> & _) & Hsl & Hp3).
  cbn iota. unfold serverReply. apply wp_wrap.
  apply wp_Write_all_ok; [done|]. intros w4 Hv4.
  split; [done|]. rewrite Hv4, Hp3, Hsent, Hend, Hsl. f_equal.
  - by rewrite <- app_assoc.
  - by rewrite <- !app_assoc.
Qed.
(** What [handleConnection] does after the peek, by the first byte. *)
Lemma handleConnection_peek rawConn sel :
  ∃ conn, same_socket rawConn (pc_conn conn) ∧ stream conn = concat (rx rawConn) ∧
    handleConnection rawConn sel =
      match concat (rx rawConn) with
      | [] => Closed conn
      | h :: _ =>
          let '(r, w) :=
            if Byte.eqb h x05 then
              handleSocks5Handshake {| w_conn := conn; w_slices := [] |}
            else (Done tt, {| w_conn := conn; w_slices := [] |}) in
          match r with
          | Raise _ => Closed (w_conn w)
          | Panic => Crashed
          | Done _ =>
              match sel with
              | case_send => Forwarded (w_conn w)
              | case_closed => Closed (w_conn w)
              end
          end
      end.
Proof.
  unfold handleConnection.
  destruct (PeekConn_Peek_1 (NewPeekConn rawConn)) as (conn & Hs & Hst & ->).
  exists conn. split; [exact Hs|]. split; [exact Hst|].
  change (stream (NewPeekConn rawConn)) with (concat (rx rawConn)).
  by destruct (concat (rx rawConn)).
Qed.

Lemma address_slices a port_hi port_lo rest :
  address_ok a →
  match encode_address a ++ [port_hi; port_lo] ++ rest with
  | atyp :: body =>
      ∃ sizes, addr_slices atyp body = Some sizes
        ∧ total sizes + 2 ≤ length body
        ∧ drop (total sizes + 2) body = rest
  | [] => False
  end.
Proof.
  destruct a as [octets|name|octets]; cbn [address_ok encode_address app];
    intros Hlen.
  - exists [4]. split; [done|]. cbn [total]. rewrite length_app.
    split; [cbn [length]; lia|].
    rewrite <- Hlen, <- (Nat.add_assoc _ 0 2), Nat.add_0_l, <- drop_drop.
    by rewrite drop_app_length.
  - exists [1; length name]. split; [cbn; by rewrite len_byte_to_nat|].
    cbn [total length]. rewrite length_app. cbn [length].
    split; [lia|].
    replace (1 + (length name + 0) + 2) with (S (length name + 2)) by lia.
    cbn [drop]. by rewrite <- drop_drop, drop_app_length.
  - exists [16]. split; [done|]. cbn [total]. rewrite length_app.
    split; [cbn [length]; lia|].
    rewrite <- Hlen, <- (Nat.add_assoc _ 0 2), Nat.add_0_l, <- drop_drop.
    by rewrite drop_app_length.
Qed.

(** The handshake on the messages of a client that asks to CONNECT. *)
Lemma handleSocks5Handshake_connect w methods a port_hi port_lo rest :
  length methods ≤ 255 →
  address_ok a →
  stream (w_conn w) = greeting methods ++ connect_request a port_hi port_lo ++ rest →
  tx_budget (pc_conn (w_conn w)) = None →
  ∃ w', handleSocks5Handshake w = (Done tt, w')
    ∧ tx (pc_conn (w_conn w')) = tx (pc_conn (w_conn w)) ++ [[x05; x00]; response]
    ∧ stream (w_conn w') = rest
    ∧ rx_end (pc_conn (w_conn w')) = rx_end (pc_conn (w_conn w)).
Proof.
  intros Hm Ha Hp Hb.
  pose proof (address_slices a port_hi port_lo rest Ha) as Haddr.
  destruct (encode_address a ++ [port_hi; port_lo] ++ rest)
    as [|atyp body] eqn:Hbody; [done|].
  destruct Haddr as (sizes & Hsizes & Hlen & Hrest).
  assert (v_pending (view_of w) =
            x05 :: len_byte (length methods) :: methods
            ++ x05 :: x01 :: x00 :: atyp :: body) as Hp'.
  { unfold view_of. cbn [v_pending]. rewrite Hp, <- Hbody.
    unfold greeting, connect_request. by rewrite <- !app_assoc. }
  clear Hp. rename Hp' into Hp.
  pose proof (handleSocks5Handshake_run w x05 (len_byte (length methods)) methods
                x05 x01 x00 atyp body Hb Hp (len_byte_to_nat _ Hm)) as Hrun.
  unfold wp in Hrun. destruct (handleSocks5Handshake w) as [r w'].
  cbn [fst snd] in Hrun. rewrite Hsizes in Hrun.
  rewrite !decide_True in Hrun by done.
  destruct Hrun as [-> Hv]; [by intros ? [= <-]|].
  exists w'. split; [done|].
  apply (f_equal v_sent) in Hv as Hsent.
  apply (f_equal v_pending) in Hv as Hpend.
  apply (f_equal v_budget) in Hv as Hbud.
  apply (f_equal v_end) in Hv as Hend.
  cbn in Hsent, Hpend, Hbud, Hend.
  split; [done|]. split; [by rewrite Hpend|]. done.
Qed.

(** C1: on a stream that opens with a SOCKS5 greeting and a CONNECT
    request, through a socket that accepts the writes, the handshake
    returns nil; it writes the method selection and then the fixed
    10-byte reply 05 00 00 01 00 00 00 00 00 00, and leaves the connection
    at the first byte after the port.  [handleConnection] then hands that
    connection on, and reading it delivers exactly the bytes after the
    port. *)
Theorem socks5_connect_handshake (rawConn : Conn) methods a port_hi port_lo
    rest (n fuel : nat) :
  length methods ≤ 255 →
  address_ok a →
  concat (rx rawConn) = greeting methods ++ connect_request a port_hi port_lo ++ rest →
  tx_budget rawConn = None →
  0 < n → length rest < fuel →
  let reply := [x05; x00; x00; x01; x00; x00; x00; x00; x00; x00] in
  (∃ w', handleSocks5Handshake {| w_conn := NewPeekConn rawConn; w_slices := [] |}
           = (Done tt, w')
     ∧ tx (pc_conn (w_conn w')) = tx rawConn ++ [[x05; x00]; reply]
     ∧ stream (w_conn w') = rest)
  ∧ (∃ conn, handleConnection rawConn case_send = Forwarded conn
       ∧ tx (pc_conn conn) = tx rawConn ++ [[x05; x00]; reply]
       ∧ stream conn = rest
       ∧ ReadAll fuel n conn = (rest, rx_end rawConn)).
Proof.
  intros Hm Ha Hp Hb Hn Hfuel reply. split.
  - destruct (handleSocks5Handshake_connect
                {| w_conn := NewPeekConn rawConn; w_slices := [] |}
                methods a port_hi port_lo rest Hm Ha Hp Hb)
      as (w' & Hrun & Htx & Hst & _).
    by exists w'.
  - destruct (handleConnection_peek rawConn case_send)
      as (conn & (Htx & Hbud & Hend) & Hst & ->).
    rewrite Hp. cbn [greeting app]. change (Byte.eqb x05 x05) with true.
    cbn iota.
    destruct (handleSocks5Handshake_connect
                {| w_conn := conn; w_slices := [] |}
                methods a port_hi port_lo rest Hm Ha)
      as (w' & -> & Htx' & Hst' & Hend'); [by rewrite <- Hp|by rewrite <- Hb|].
    exists (w_conn w'). split; [done|]. cbn [w_conn] in *.
    split; [by rewrite Htx', Htx|]. split; [done|].
    rewrite ReadAll_stream by (rewrite ?Hst'; done).
    by rewrite Hst', Hend', Hend.
Qed.

(** C2: a connection whose first byte is not 0x05 reaches the HTTP server
    with nothing read from it and nothing written to it: reading the
    forwarded connection delivers the original bytes. *)
Theorem http_connection_forwarded_intact (rawConn : Conn) (b : byte) s (n fuel : nat) :
  concat (rx rawConn) = b :: s →
  b ≠ x05 →
  0 < n → S (length s) < fuel →
  ∃ conn, handleConnection rawConn case_send = Forwarded conn
    ∧ stream conn = b :: s
    ∧ tx (pc_conn conn) = tx rawConn
    ∧ ReadAll fuel n conn = (b :: s, rx_end rawConn).
Proof.
  intros Hp Hb Hn Hfuel.
  destruct (handleConnection_peek rawConn case_send)
    as (conn & (Htx & Hbud & Hend) & Hst & ->).
  rewrite Hp. rewrite (Byte_eqb_neq _ _ Hb). cbn [w_conn].
  exists conn. split; [done|]. split; [by rewrite Hst|]. split; [done|].
  rewrite ReadAll_stream by (rewrite ?Hst, ?Hp; done).
  by rewrite Hst, Hp, Hend.
Qed.

(** C9: when the greeting and the request have the lengths they announce
    and the socket accepts the writes, the handshake returns nil exactly
    when the greeting's version is 5, the command is 1 and the address
    type is 1, 3 or 4; the version byte [ver] of the request plays no
    part. *)
Theorem request_version_not_validated (w : world) gver nb methods ver cmd rsv
    atyp body :
  tx_budget (pc_conn (w_conn w)) = None →
  stream (w_conn w) = gver :: nb :: methods ++ ver :: cmd :: rsv :: atyp :: body →
  Byte.to_nat nb = length methods →
  (∀ sizes, addr_slices atyp body = Some sizes → total sizes + 2 ≤ length body) →
  (handleSocks5Handshake w).1 = Done tt
  ↔ gver = x05 ∧ cmd = x01 ∧ (atyp = x01 ∨ atyp = x03 ∨ atyp = x04).
Proof.
  intros Hb Hp Hn Hwf.
  pose proof (handleSocks5Handshake_run w gver nb methods ver cmd rsv atyp body
                Hb Hp Hn Hwf) as Hrun.
  unfold wp in Hrun. rewrite <- (addr_slices_supported atyp body).
  destruct (decide (gver = x05)) as [Hg|Hg];
    [|destruct Hrun as [-> _]; split; [done|tauto]].
  destruct (decide (cmd = x01)) as [Hc|Hc];
    [|destruct Hrun as [-> _]; split; [done|tauto]].
  destruct (addr_slices atyp body) as [sizes|].
  - destruct Hrun as [-> _]. split; [intros _; repeat split; by eauto|done].
  - destruct Hrun as [-> _]. split; [done|]. by intros (_ & _ & [? ?]).
Qed.
(** C4, as stated: a connection that opens with the version byte 0x04 is
    not closed; it reaches the HTTP server with all its bytes. *)
Lemma socks4_greeting_is_forwarded :
  (∀ conn, handleConnection socks4_client case_send ≠ Closed conn)
  ∧ ∃ conn, handleConnection socks4_client case_send = Forwarded conn
      ∧ stream conn = [x04; x01; x00].
Proof.
  split.
  - intros conn. vm_compute. discriminate.
  - eexists. split; [vm_compute; reflexivity|reflexivity].
Qed.

(** C4, amended: for a connection whose first byte is 0x04
    [handleConnection] does not run the handshake: it writes nothing and
    hands the connection, with every byte unread, to the HTTP server (or
    closes it when the select takes the closed case).  The handshake
    itself, called on such a connection, returns an error and writes
    nothing; with a second byte present the error is "unsupported
    version: 4". *)
Theorem version4_is_treated_as_http (rawConn : Conn) s (sel : select_case) :
  concat (rx rawConn) = x04 :: s →
  (∃ conn,
     handleConnection rawConn sel =
       match sel with case_send => Forwarded conn | case_closed => Closed conn end
     ∧ stream conn = x04 :: s
     ∧ tx (pc_conn conn) = tx rawConn)
  ∧ ∃ e w',
      handleSocks5Handshake {| w_conn := NewPeekConn rawConn; w_slices := [] |}
        = (Raise e, w')
      ∧ tx (pc_conn (w_conn w')) = tx rawConn
      ∧ (s ≠ [] → e = Errorf "unsupported version: %d" 4).
Proof.
  intros Hp. split.
  - destruct (handleConnection_peek rawConn sel)
      as (conn & (Htx & Hbud & Hend) & Hst & ->).
    rewrite Hp. change (Byte.eqb x04 x05) with false. cbn [w_conn].
    exists conn. split; [by destruct sel|]. by rewrite Hst.
  - set (w := {| w_conn := NewPeekConn rawConn; w_slices := [] |}).
    assert (wp handleSocks5Handshake (λ r w',
              ∃ e, r = Raise e ∧ tx (pc_conn (w_conn w')) = tx rawConn
                   ∧ (s ≠ [] → e = Errorf "unsupported version: %d" 4)) w) as H.
    { unfold handleSocks5Handshake, clientGreeting.
      apply wp_bind, wp_bind, wp_wrap.
      eapply wp_ReadFull_slice_view;
        [rewrite length_replicate; lia|reflexivity|..];
        cbn [view_of v_pending v_sent v_budget v_end v_slices w w_conn w_slices];
        change (stream (NewPeekConn rawConn)) with (concat (rx rawConn));
        rewrite Hp.
      - intros Hlen w1 Hv1. destruct s as [|nb s]; [cbn in Hlen; lia|].
        apply wp_bind. eapply wp_index; [reflexivity|].
        change (negb (Byte.eqb x04 x05)) with true. cbn iota.
        apply wp_raise. eexists. split; [done|].
        apply (f_equal v_sent) in Hv1. split; [exact Hv1|done].
      - intros Hlen w1 Hv1. destruct s as [|nb s]; [|cbn in Hlen; lia].
        eexists. split; [done|].
        apply (f_equal v_sent) in Hv1. split; [exact Hv1|done]. }
    unfold wp in H. destruct (handleSocks5Handshake w) as [r w'].
    cbn [fst snd] in H. destruct H as (e & Hr & Htx & He). subst r.
    by exists e, w'.
Qed.
Lemma socks5_connect_handshake_witness :
  (length [x00] ≤ 255
   ∧ address_ok (AddrDomain [x69; x64; x65; x76])
   ∧ concat (rx socks5_client)
     = greeting [x00] ++ connect_request (AddrDomain [x69; x64; x65; x76]) x00 x50
       ++ [x47; x45; x54]
   ∧ tx_budget socks5_client = None
   ∧ 0 < 512 ∧ length [x47; x45; x54] < 4)
  ∧ ∃ conn, handleConnection socks5_client case_send = Forwarded conn
      ∧ tx (pc_conn conn)
        = [[x05; x00]; [x05; x00; x00; x01; x00; x00; x00; x00; x00; x00]]
      ∧ ReadAll 4 512 conn = ([x47; x45; x54], EOF).
Proof.
  set (rest := [x47; x45; x54]).
  assert (length [x00] ≤ 255) as H1 by (simpl; lia).
  assert (address_ok (AddrDomain [x69; x64; x65; x76])) as H2 by (simpl; lia).
  assert (concat (rx socks5_client)
          = greeting [x00]
            ++ connect_request (AddrDomain [x69; x64; x65; x76]) x00 x50 ++ rest)
    as H3 by reflexivity.
  assert (tx_budget socks5_client = None) as H4 by reflexivity.
  assert (0 < 512) as H5 by lia.
  assert (length rest < 4) as H6 by (simpl; lia).
  split; [done|].
  destruct (socks5_connect_handshake socks5_client [x00]
              (AddrDomain [x69; x64; x65; x76]) x00 x50 rest 512 4
              H1 H2 H3 H4 H5 H6) as [_ (conn & E & Htx & _ & Hread)].
  exists conn. done.
Defined.

Lemma http_connection_forwarded_intact_witness :
  (concat (rx http_client) = x47 :: [x45; x54; x20; x2f]
   ∧ x47 ≠ x05 ∧ 0 < 3 ∧ S (length [x45; x54; x20; x2f]) < 6)
  ∧ ∃ conn, handleConnection http_client case_send = Forwarded conn
      ∧ tx (pc_conn conn) = []
      ∧ ReadAll 6 3 conn = ([x47; x45; x54; x20; x2f], EOF).
Proof.
  assert (concat (rx http_client) = x47 :: [x45; x54; x20; x2f]) as H1
    by reflexivity.
  assert (x47 ≠ x05) as H2 by discriminate.
  assert (0 < 3) as H3 by lia.
  assert (S (length [x45; x54; x20; x2f]) < 6) as H4 by (simpl; lia).
  split; [done|].
  destruct (http_connection_forwarded_intact http_client x47 [x45; x54; x20; x2f]
              3 6 H1 H2 H3 H4) as (conn & E & _ & Htx & Hread).
  exists conn. done.
Defined.

Lemma version4_is_treated_as_http_witness :
  concat (rx socks4_client) = x04 :: [x01; x00]
  ∧ ∃ conn, handleConnection socks4_client case_send = Forwarded conn
      ∧ stream conn = [x04; x01; x00]
      ∧ tx (pc_conn conn) = [].
Proof.
  assert (concat (rx socks4_client) = x04 :: [x01; x00]) as H1 by reflexivity.
  split; [done|].
  destruct (version4_is_treated_as_http socks4_client [x01; x00] case_send H1)
    as [(conn & E & Hst & Htx) _].
  exists conn. done.
Defined.

Lemma clientRequest_reads_witness :
  (255 ≤ length (replicate 258 x00)
   ∧ v_pending (view_of request_world)
     = x05 :: x01 :: x00 :: x03
       :: [x04; x69; x64; x65; x76; x00; x50; x47; x45; x54])
  ∧ w_slices (clientRequest (replicate 258 x00) request_world).2 = [4; 1; 4; 2]
  ∧ stream (w_conn (clientRequest (replicate 258 x00) request_world).2) = [x47; x45; x54].
Proof.
  assert (255 ≤ length (replicate 258 x00)) as H1
    by (rewrite length_replicate; lia).
  assert (v_pending (view_of request_world)
          = x05 :: x01 :: x00 :: x03
            :: [x04; x69; x64; x65; x76; x00; x50; x47; x45; x54]) as H2
    by reflexivity.
  split; [done|].
  pose proof (clientRequest_reads (replicate 258 x00) request_world x05 x01 x00 x03
                [x04; x69; x64; x65; x76; x00; x50; x47; x45; x54] H1 H2) as H.
  unfold wp in H. destruct H as (_ & _ & _ & H).
  rewrite decide_True in H by done. cbn [addr_slices] in H.
  destruct H as [_ H]. rewrite decide_True in H by (simpl; lia).
  destruct H as (_ & Hsl & Hp). split; [exact Hsl|exact Hp].
Defined.

Lemma request_version_not_validated_witness :
  (tx_budget (pc_conn (w_conn odd_version_world)) = None
   ∧ stream (w_conn odd_version_world)
     = x05 :: x01 :: [x00] ++ x09 :: x01 :: x00 :: x01
       :: [x7f; x00; x00; x01; x1f; x90]
   ∧ Byte.to_nat x01 = length [x00]
   ∧ ∀ sizes, addr_slices x01 [x7f; x00; x00; x01; x1f; x90] = Some sizes →
       total sizes + 2 ≤ length [x7f; x00; x00; x01; x1f; x90])
  ∧ (handleSocks5Handshake odd_version_world).1 = Done tt.
Proof.
  assert (tx_budget (pc_conn (w_conn odd_version_world)) = None) as H1 by reflexivity.
  assert (stream (w_conn odd_version_world)
          = x05 :: x01 :: [x00] ++ x09 :: x01 :: x00 :: x01
            :: [x7f; x00; x00; x01; x1f; x90]) as H2 by reflexivity.
  assert (Byte.to_nat x01 = length [x00]) as H3 by reflexivity.
  assert (∀ sizes, addr_slices x01 [x7f; x00; x00; x01; x1f; x90] = Some sizes →
            total sizes + 2 ≤ length [x7f; x00; x00; x01; x1f; x90]) as H4
    by (intros sizes [= <-]; simpl; lia).
  split; [done|].
  apply (request_version_not_validated odd_version_world x05 x01 [x00] x09 x01 x00 x01
           [x7f; x00; x00; x01; x1f; x90] H1 H2 H3 H4).
  auto.
Defined.

(** ** Loading the mapping table *)

Lemma addRecord_usable newMap record :
  addRecord newMap record =
    if usable record then
      <[ToLower (ShortURL record) := Protocol record +:+ "://" +:+ LongURL record]>
        newMap
    else newMap.
Proof. done. Qed.

Lemma foldl_addRecord_empty records : ∀ newMap,
  foldl addRecord newMap records = ∅
  ↔ newMap = ∅ ∧ Forall (λ record, usable record = false) records.
Proof.
  induction records as [|record records IH]; intros newMap; cbn [foldl].
  - split; [by intros ->|by intros [-> _]].
  - rewrite IH, addRecord_usable. destruct (usable record) eqn:Hu.
    + split.
      * intros [Hins _]. by apply insert_non_empty in Hins.
      * intros [_ Hall]. inversion Hall; congruence.
    + split.
      * intros [-> Hall]. split; [done|]. by constructor.
      * intros [-> Hall]. split; [done|]. by inversion Hall.
Qed.

(** C6: a load that returns an error leaves the server as it was; a load
    returns nil exactly when the file is read, the document is decoded,
    its success flag is set and some record has a short and a long URL;
    then, and only then, the table and the time of the last load are
    replaced. *)
Theorem loadMappingsFromFile_atomic (json_Unmarshal : string → APIResponse + error)
    (ReadFile : string → string + error) (now : Z) (ps : ProxyServer) :
  let '(err, ps') := loadMappingsFromFile json_Unmarshal ReadFile now ps in
  (err ≠ None → ps' = ps)
  ∧ (err = None ↔
       ∃ body apiResp,
         ReadFile (ConfigFile (config ps)) = inl body
         ∧ json_Unmarshal body = inl apiResp
         ∧ Success apiResp = true
         ∧ Exists (λ record, usable record = true) (Data apiResp))
  ∧ (err = None →
       ∃ body apiResp,
         ReadFile (ConfigFile (config ps)) = inl body
         ∧ json_Unmarshal body = inl apiResp
         ∧ ps' = {| config := config ps;
                    shortLinkMap := foldl addRecord ∅ (Data apiResp);
                    lastSyncTime := now;
                    requestCount := requestCount ps |}).
Proof.
  unfold loadMappingsFromFile.
  destruct (ReadFile (ConfigFile (config ps))) as [body|e] eqn:Hread.
  2:{ split; [done|]. split; [|done]. split; [done|]. by intros (? & ? & [=] & _). }
  destruct (json_Unmarshal body) as [apiResp|e] eqn:Hjson.
  2:{ split; [done|]. split; [|done]. split; [done|].
      intros (? & ? & [= <-] & ? & _). congruence. }
  destruct (Success apiResp) eqn:Hsuccess; cbn [negb].
  2:{ split; [done|]. split; [|done]. split; [done|].
      intros (? & ? & [= <-] & ? & ? & _). congruence. }
  destruct (size (foldl addRecord ∅ (Data apiResp)) =? 0) eqn:Hsize.
  - apply Nat.eqb_eq, map_size_empty_iff, foldl_addRecord_empty in Hsize.
    destruct Hsize as [_ Hall].
    split; [done|]. split; [|done]. split; [done|].
    intros (? & resp & [= <-] & Hj & _ & Hex).
    rewrite Hjson in Hj. injection Hj as <-.
    apply Exists_exists in Hex as (record & Hin & Hu).
    rewrite Forall_forall in Hall. specialize (Hall record Hin). congruence.
  - split; [done|]. split; [|by eauto].
    split; [|done]. intros _. exists body, apiResp. repeat split; try done.
    apply Nat.eqb_neq in Hsize.
    destruct (decide (Exists (λ record, usable record = true) (Data apiResp)))
      as [|Hnone]; [done|].
    exfalso. apply Hsize, map_size_empty_iff, foldl_addRecord_empty.
    split; [done|]. apply Forall_forall. intros record Hin.
    destruct (usable record) eqn:Hu; [|done].
    exfalso. apply Hnone, Exists_exists. eauto.
Qed.

(** ** Strings *)

Lemma str_app_nil_l s : EmptyString +:+ s = s.
Proof. done. Qed.

Lemma str_app_cons c s t : String c s +:+ t = String c (s +:+ t).
Proof. done. Qed.

Lemma str_app_nil_r s : s +:+ EmptyString = s.
Proof. induction s as [|c s IH]; [done|]. by rewrite str_app_cons, IH. Qed.

Lemma str_app_assoc s t u : (s +:+ t) +:+ u = s +:+ (t +:+ u).
Proof. induction s as [|c s IH]; [done|]. by rewrite !str_app_cons, IH. Qed.

Lemma HasPrefix_char c s sep :
  HasPrefix (String c s) (String sep EmptyString) = Ascii.eqb c sep.
Proof. cbn [HasPrefix]. destruct s; by rewrite andb_true_r. Qed.

(** The first piece of a split at colons is the host without its port. *)
Lemma Split_colon_head s :
  ∃ pieces, Split s ":" = strip_port s :: pieces.
Proof.
  unfold Split, strip_port. induction s as [|c s [pieces IH]].
  - by exists [].
  - cbn [Split_from Index]. rewrite HasPrefix_char.
    destruct (Ascii.eqb c ":").
    + by eexists.
    + cbn [strlen String.length] in *. rewrite IH. exists pieces.
      destruct (Index s ":"); done.
Qed.

(** ** The redirect handler *)

(** C5: a request for a path other than /check, /health and /proxy.pac is
    answered with 400 when the Host header is empty; otherwise with 404,
    and a body that names the host, when the lower-cased host without its
    port has no entry in the table; otherwise with 500 when the stored
    target does not parse; otherwise with a 302 that carries a Location
    header.  The four cases exclude one another.  This holds of every
    host, ASCII or not: the lower-casing is whatever [strings.ToLower]
    does. *)
Theorem handleRequest_status (strings_ToLower : string → string)
    (ps : ProxyServer) (r : Request) :
  Path (r_URL r) ≠ "/check" →
  Path (r_URL r) ≠ "/health" →
  Path (r_URL r) ≠ "/proxy.pac" →
  ∃ w, (handleRequest_with strings_ToLower ps r).2 = Wrote w ∧
    let requestedHost := strings_ToLower (strip_port (r_Host r)) in
    if is_empty (r_Host r) then w_Status w = 400
    else
      match shortLinkMap ps !! requestedHost with
      | None =>
          w_Status w = 404
          ∧ w_Body w = "No short link mapping found for "
                       +:+ String dquote requestedHost +:+ String dquote newline
      | Some targetURL =>
          match url_Parse targetURL with
          | None => w_Status w = 500
          | Some _ => w_Status w = 302 ∧ is_Some (w_Header w !! "Location")
          end
      end.
Proof.
  intros Hcheck Hhealth Hpac. unfold handleRequest_with.
  rewrite (proj2 (String.eqb_neq _ _) Hcheck), (proj2 (String.eqb_neq _ _) Hhealth),
    (proj2 (String.eqb_neq _ _) Hpac). cbn [orb shortLinkMap].
  destruct (is_empty (r_Host r)) eqn:Hhost; [by eexists|].
  destruct (Split_colon_head (r_Host r)) as [pieces ->]. cbn [lookup list_lookup].
  destruct (shortLinkMap ps !! strings_ToLower (strip_port (r_Host r)))
    as [targetURL|].
  - destruct (url_Parse targetURL); [|by eexists].
    eexists. split; [done|]. split; [done|].
    unfold http_Redirect. cbn [w_Header].
    destruct (_ && _); by rewrite ?lookup_insert_ne, lookup_insert_eq by done.
  - eexists. split; [done|]. split; [done|]. cbn [http_Error w_Body newResponseWriter].
    by rewrite str_app_nil_l, !str_app_assoc, !str_app_cons, str_app_nil_l.
Qed.

Lemma handleRequest_status_witness :
  (Path (r_URL (request "GET" "unknown" "/" EmptyString EmptyString)) ≠ "/check"
   ∧ Path (r_URL (request "GET" "unknown" "/" EmptyString EmptyString)) ≠ "/health"
   ∧ Path (r_URL (request "GET" "unknown" "/" EmptyString EmptyString)) ≠ "/proxy.pac")
  ∧ ∃ w, (handleRequest (server_with idev_table)
            (request "GET" "unknown" "/" EmptyString EmptyString)).2 = Wrote w
      ∧ w_Status w = 404
      ∧ w_Body w = "No short link mapping found for "
                   +:+ String dquote "unknown" +:+ String dquote newline.
Proof.
  assert (Path (r_URL (request "GET" "unknown" "/" EmptyString EmptyString)) ≠ "/check") as H1
    by discriminate.
  assert (Path (r_URL (request "GET" "unknown" "/" EmptyString EmptyString)) ≠ "/health") as H2
    by discriminate.
  assert (Path (r_URL (request "GET" "unknown" "/" EmptyString EmptyString)) ≠ "/proxy.pac") as H3
    by discriminate.
  split; [done|].
  destruct (handleRequest_status ToLower (server_with idev_table)
              (request "GET" "unknown" "/" EmptyString EmptyString) H1 H2 H3) as (w & E & H).
  exists w. split; [exact E|]. exact H.
Defined.
Lemma strlen_app s t : strlen (s +:+ t) = strlen s + strlen t.
Proof.
  unfold strlen. induction s as [|c s IH]; [done|].
  rewrite str_app_cons. cbn [String.length]. by rewrite IH.
Qed.

Lemma str_all_app p s t : str_all p (s +:+ t) = str_all p s && str_all p t.
Proof.
  induction s as [|c s IH]; [done|].
  rewrite str_app_cons. cbn [str_all]. by rewrite IH, andb_assoc.
Qed.

Lemma str_all_impl (p q : ascii → bool) s :
  (∀ c, p c = true → q c = true) → str_all p s = true → str_all q s = true.
Proof.
  intros Hpq. induction s as [|c s IH]; [done|]. cbn [str_all].
  intros [Hc Hs]%andb_prop. by rewrite (Hpq c Hc), IH.
Qed.

Lemma str_take_app s t : str_take (strlen s) (s +:+ t) = s.
Proof.
  induction s as [|c s IH]; [by destruct t|].
  rewrite str_app_cons. cbn [strlen String.length str_take]. f_equal. exact IH.
Qed.

Lemma str_drop_app s t : str_drop (strlen s) (s +:+ t) = t.
Proof.
  induction s as [|c s IH]; [by destruct t|].
  rewrite str_app_cons. cbn [strlen String.length str_drop]. exact IH.
Qed.

Lemma HasPrefix_nil s : HasPrefix s EmptyString = true.
Proof. by destruct s. Qed.

Lemma HasPrefix_app s t : HasPrefix (s +:+ t) s = true.
Proof.
  induction s as [|c s IH]; [apply HasPrefix_nil|].
  rewrite str_app_cons. cbn [HasPrefix]. by rewrite Ascii.eqb_refl, IH.
Qed.

Lemma Index_without x s :
  without x s = true → Index s (String x EmptyString) = None.
Proof.
  unfold without. induction s as [|c s IH]; [done|]. cbn [str_all Index].
  intros [Hc Hs]%andb_prop. rewrite HasPrefix_char.
  apply negb_true_iff in Hc. by rewrite Hc, IH.
Qed.

Lemma Index_first x s t :
  without x s = true →
  Index (s +:+ String x t) (String x EmptyString) = Some (strlen s).
Proof.
  unfold without. induction s as [|c s IH].
  - intros _. rewrite str_app_nil_l. cbn [Index]. by rewrite HasPrefix_char, Ascii.eqb_refl.
  - cbn [str_all]. intros [Hc Hs]%andb_prop. rewrite str_app_cons.
    cbn [Index]. rewrite HasPrefix_char. apply negb_true_iff in Hc.
    by rewrite Hc, IH.
Qed.

Lemma LastIndex_without x s :
  without x s = true → LastIndex s (String x EmptyString) = None.
Proof.
  unfold without. induction s as [|c s IH]; [done|]. cbn [str_all LastIndex].
  intros [Hc Hs]%andb_prop. rewrite IH by done. rewrite HasPrefix_char.
  apply negb_true_iff in Hc. by rewrite Hc.
Qed.

Lemma Count_without x s :
  without x s = true → Count s (String x EmptyString) = 0.
Proof.
  unfold without, Count. induction s as [|c s IH]; [done|].
  cbn [str_all Count_from].
  intros [Hc Hs]%andb_prop. rewrite HasPrefix_char.
  apply negb_true_iff in Hc. by rewrite Hc, IH.
Qed.

Lemma Contains_without x s :
  without x s = true → Contains s (String x EmptyString) = false.
Proof. intros H. unfold Contains. by rewrite Index_without. Qed.

Lemma Cut_without x s :
  without x s = true → Cut s (String x EmptyString) = (s, EmptyString, false).
Proof. intros H. unfold Cut. by rewrite Index_without. Qed.

Lemma is_empty_ToLower s : is_empty (ToLower s) = is_empty s.
Proof. by destruct s. Qed.

Lemma escape_plain mode s :
  str_all (λ c, negb (shouldEscape c mode)) s = true → escape s mode = s.
Proof.
  induction s as [|c s IH]; [done|]. cbn [str_all escape].
  intros [Hc Hs]%andb_prop. apply negb_true_iff in Hc. by rewrite Hc, IH.
Qed.
Lemma all_ascii_spec (p : ascii → bool) : all_ascii p = true → ∀ c, p c = true.
Proof.
  unfold all_ascii. rewrite forallb_forall. intros Hall c.
  rewrite <- (ascii_nat_embedding c). apply Hall, in_seq.
  pose proof (nat_ascii_bounded c). lia.
Qed.

Lemma bytes_impl (p q : ascii → bool) :
  all_ascii (λ c, implb (p c) (q c)) = true → ∀ c, p c = true → q c = true.
Proof.
  intros Hall c Hp. pose proof (all_ascii_spec _ Hall c) as H.
  cbn beta in H. by rewrite Hp in H.
Qed.

Ltac by_bytes := apply bytes_impl; vm_compute; reflexivity.

(** What the bytes of a scheme, of a plain host, of a plain path and of a
    plain fragment are not. *)
Lemma scheme_char_ok :
  ∀ c, scheme_char c = true →
    negb (Ascii.eqb c ":") && negb (Ascii.eqb c "#") && negb (Ascii.eqb c "?")
    && negb (Ascii.ltb c " " || Ascii.eqb c (ascii_of_nat 127))
    && is_ascii c && scheme_char (lower_byte c)
    && (is_alpha c || is_digit c || one_of ["+"; "-"; "."]%char c) = true.
Proof. by_bytes. Qed.

Lemma is_alpha_ok :
  ∀ c, is_alpha c = true →
    scheme_char c && is_alpha (lower_byte c) && negb (Ascii.eqb c "*") = true.
Proof. by_bytes. Qed.

Lemma unreserved_ok :
  ∀ c, unreserved c = true →
    negb (Ascii.eqb c "/") && negb (Ascii.eqb c "@") && negb (Ascii.eqb c ":")
    && negb (Ascii.eqb c "[") && negb (Ascii.eqb c "%") && negb (Ascii.eqb c "+")
    && negb (Ascii.eqb c "#") && negb (Ascii.eqb c "?")
    && negb (Ascii.ltb c " " || Ascii.eqb c (ascii_of_nat 127))
    && is_ascii c && negb (shouldEscape c encodeHost) = true.
Proof. by_bytes. Qed.

Lemma path_plain_ok :
  ∀ c, path_plain c = true →
    negb (Ascii.eqb c "%") && negb (Ascii.eqb c "#") && negb (Ascii.eqb c "?")
    && negb (Ascii.eqb c "*")
    && negb (Ascii.ltb c " " || Ascii.eqb c (ascii_of_nat 127))
    && is_ascii c = true.
Proof. by_bytes. Qed.

Lemma fragment_plain_ok :
  ∀ c, fragment_plain c = true → is_ascii c = true.
Proof. by_bytes. Qed.
Lemma str_all_and p q s :
  str_all (λ c, p c && q c) s = str_all p s && str_all q s.
Proof.
  induction s as [|c s IH]; [done|]. cbn [str_all]. rewrite IH.
  destruct (p c), (q c), (str_all p s), (str_all q s); done.
Qed.

Lemma str_all_ToLower p s :
  str_all (λ c, p (lower_byte c)) s = true → str_all p (ToLower s) = true.
Proof.
  induction s as [|c s IH]; [done|]. cbn [str_all ToLower].
  intros [Hc Hs]%andb_prop. by rewrite Hc, IH.
Qed.

Lemma strlen_ToLower s : strlen (ToLower s) = strlen s.
Proof. unfold strlen. induction s as [|c s IH]; [done|]. cbn. by rewrite IH. Qed.

Ltac split_all H :=
  repeat (rewrite str_all_and in H);
  repeat (apply andb_prop in H; let H' := fresh H in destruct H as [H H']).

Lemma unescape_path s : without "%" s = true → unescape s encodePath = Some s.
Proof.
  unfold without. induction s as [|c s IH]; [done|]. cbn [str_all unescape].
  intros [Hc Hs]%andb_prop. apply negb_true_iff in Hc. rewrite Hc.
  cbn [is_query_mode is_host_mode andb]. rewrite IH by done.
  destruct (Ascii.eqb c "+") eqn:Hplus; [|done].
  apply Ascii.eqb_eq in Hplus. by subst c.
Qed.

Lemma unescape_fragment s : without "%" s = true → unescape s encodeFragment = Some s.
Proof.
  unfold without. induction s as [|c s IH]; [done|]. cbn [str_all unescape].
  intros [Hc Hs]%andb_prop. apply negb_true_iff in Hc. rewrite Hc.
  cbn [is_query_mode is_host_mode andb]. rewrite IH by done.
  destruct (Ascii.eqb c "+") eqn:Hplus; [|done].
  apply Ascii.eqb_eq in Hplus. by subst c.
Qed.

Lemma unescape_host s : str_all unreserved s = true → unescape s encodeHost = Some s.
Proof.
  induction s as [|c s IH]; [done|]. cbn [str_all unescape].
  intros [Hc Hs]%andb_prop. pose proof (unreserved_ok c Hc) as H.
  repeat (apply andb_prop in H; let H' := fresh in destruct H as [H H']).
  repeat match goal with
         | H : negb _ = true |- _ => apply negb_true_iff in H
         end.
  repeat match goal with
         | H : Ascii.eqb c _ = false |- _ => rewrite H; clear H
         end.
  match goal with H : shouldEscape c encodeHost = false |- _ => rewrite H end.
  rewrite andb_false_r. by rewrite IH.
Qed.

Lemma getScheme_scan_valid s rest : ∀ i,
  0 < i → str_all scheme_char s = true →
  getScheme_scan i (s +:+ String ":" rest) = SchemeEnds (i + strlen s).
Proof.
  induction s as [|c s IH]; intros i Hi Hs.
  - rewrite str_app_nil_l. cbn.
    destruct i; [lia|]. cbn. by rewrite Nat.add_0_r.
  - cbn [str_all] in Hs. apply andb_prop in Hs as [Hc Hs].
    rewrite str_app_cons. cbn [getScheme_scan].
    pose proof (scheme_char_ok c Hc) as H.
    repeat (apply andb_prop in H; let H' := fresh in destruct H as [H H']).
    rewrite IH by (done || lia).
    replace (strlen (String c s)) with (S (strlen s)) by done.
    replace (S i + strlen s) with (i + S (strlen s)) by lia.
    destruct (is_alpha c); [done|].
    match goal with H : false || _ || _ = true |- _ => cbn [orb] in H; rewrite H end.
    destruct i; [lia|done].
Qed.

Lemma str_take_cons n c s : str_take (S n) (String c s) = String c (str_take n s).
Proof. done. Qed.

Lemma str_drop_cons n c s : str_drop (S n) (String c s) = str_drop n s.
Proof. done. Qed.

Lemma str_drop_S_app s x t : str_drop (S (strlen s)) (s +:+ String x t) = t.
Proof.
  induction s as [|c s IH]; [done|].
  rewrite str_app_cons. change (strlen (String c s)) with (S (strlen s)).
  by rewrite str_drop_cons.
Qed.

Lemma getScheme_valid scheme rest :
  valid_scheme scheme = true →
  getScheme (scheme +:+ String ":" rest) = Some (scheme, rest).
Proof.
  destruct scheme as [|c s]; [done|]. cbn [valid_scheme].
  intros [Hc Hs]%andb_prop. unfold getScheme.
  rewrite str_app_cons. cbn [getScheme_scan]. rewrite Hc.
  rewrite getScheme_scan_valid by (done || lia).
  change (1 + strlen s) with (S (strlen s)).
  by rewrite str_take_cons, str_drop_cons, str_take_app, str_drop_S_app.
Qed.
Lemma valid_scheme_all s :
  valid_scheme s = true → str_all scheme_char s = true ∧ is_empty s = false.
Proof.
  destruct s as [|c s]; [done|]. cbn [valid_scheme str_all].
  intros [Hc Hs]%andb_prop. pose proof (is_alpha_ok c Hc) as H.
  repeat (apply andb_prop in H; let H' := fresh in destruct H as [H H']).
  by rewrite H, Hs.
Qed.

Lemma String_eqb_star c s : Ascii.eqb c "*" = false → String.eqb (String c s) "*" = false.
Proof. intros H. cbn. by rewrite H. Qed.

Lemma stringContainsCTLByte_false s :
  str_all (λ c, negb (Ascii.ltb c " " || Ascii.eqb c (ascii_of_nat 127))) s = true →
  stringContainsCTLByte s = false.
Proof. intros H. unfold stringContainsCTLByte. by rewrite H. Qed.

Lemma String_eqb_scheme scheme rest :
  valid_scheme scheme = true → String.eqb (scheme +:+ rest) "*" = false.
Proof.
  destruct scheme as [|c s]; [done|]. cbn [valid_scheme].
  intros [Hc _]%andb_prop. rewrite str_app_cons. apply String_eqb_star.
  pose proof (is_alpha_ok c Hc) as H.
  repeat (apply andb_prop in H; let H' := fresh in destruct H as [H H']).
  by apply negb_true_iff.
Qed.

Lemma HasPrefix_without x s :
  without x s = true → HasPrefix s (String x EmptyString) = false.
Proof.
  destruct s as [|c s]; [done|]. unfold without. cbn [str_all].
  intros [Hc _]%andb_prop. rewrite HasPrefix_char. by apply negb_true_iff.
Qed.

(** A property of the bytes of a string from a stronger one. *)
Lemma all_of {p : ascii → bool} {s} (H : str_all p s = true) (q : ascii → bool) :
  (∀ c, p c = true → q c = true) → str_all q s = true.
Proof. intros Hpq. by eapply str_all_impl. Qed.

(** What [url.Parse] makes of scheme://host/base when the three parts are
    plain. *)
Lemma LastIndex_last x s t :
  without x t = true →
  LastIndex (s +:+ String x t) (String x EmptyString) = Some (strlen s).
Proof.
  intros Ht. induction s as [|c s IH].
  - rewrite str_app_nil_l. cbn [LastIndex]. rewrite LastIndex_without by done.
    by rewrite HasPrefix_char, Ascii.eqb_refl.
  - rewrite str_app_cons. cbn [LastIndex]. by rewrite IH.
Qed.

Lemma authority_byte_ok :
  ∀ c, authority_byte c = true →
    negb (Ascii.eqb c "/") && negb (Ascii.eqb c "@")
    && negb (Ascii.eqb c "[") && negb (Ascii.eqb c "%") && negb (Ascii.eqb c "+")
    && negb (Ascii.eqb c "#") && negb (Ascii.eqb c "?")
    && negb (Ascii.ltb c " " || Ascii.eqb c (ascii_of_nat 127))
    && is_ascii c && negb (shouldEscape c encodeHost) = true.
Proof. by_bytes. Qed.

Lemma is_digit_ok : ∀ c, is_digit c = true → unreserved c = true.
Proof. by_bytes. Qed.

Lemma host_port_bytes host port :
  str_all unreserved host = true → str_all is_digit port = true →
  str_all authority_byte (host_port host port) = true.
Proof.
  intros Hhost Hport. unfold host_port.
  assert (str_all authority_byte host = true) as Hh.
  { apply (all_of Hhost). intros c Hc. unfold authority_byte. by rewrite Hc. }
  destruct (is_empty port); [done|].
  rewrite !str_all_app, Hh. cbn [str_all andb].
  apply (all_of Hport). intros c Hc. unfold authority_byte.
  by rewrite (is_digit_ok c Hc).
Qed.

Lemma unescape_authority s :
  str_all authority_byte s = true → unescape s encodeHost = Some s.
Proof.
  induction s as [|c s IH]; [done|]. cbn [str_all unescape].
  intros [Hc Hs]%andb_prop. pose proof (authority_byte_ok c Hc) as H.
  repeat (apply andb_prop in H; let H' := fresh in destruct H as [H H']).
  repeat match goal with
         | H : negb _ = true |- _ => apply negb_true_iff in H
         end.
  repeat match goal with
         | H : Ascii.eqb c _ = false |- _ => rewrite H; clear H
         end.
  match goal with H : shouldEscape c encodeHost = false |- _ => rewrite H end.
  rewrite andb_false_r. by rewrite IH.
Qed.

Lemma parseHost_host_port host port :
  str_all unreserved host = true → str_all is_digit port = true →
  parseHost (host_port host port) = Some (host_port host port).
Proof.
  intros Hhost Hport. pose proof (host_port_bytes host port Hhost Hport) as Ha.
  unfold parseHost.
  rewrite HasPrefix_without by (apply (all_of Ha); by_bytes).
  rewrite unescape_authority by done.
  unfold host_port in *. destruct (is_empty port) eqn:Hp.
  - by rewrite LastIndex_without by (apply (all_of Hhost); by_bytes).
  - change (host +:+ ":" +:+ port) with (host +:+ String ":" port).
    rewrite LastIndex_last by (apply (all_of Hport); by_bytes).
    rewrite str_drop_app. cbn [validOptionalPort].
    by rewrite Ascii.eqb_refl, Hport.
Qed.

(** [url.Parse] of a plain target: a scheme, a host with or without a
    port, and a path. *)
Lemma url_Parse_plain scheme host port base :
  valid_scheme scheme = true →
  str_all unreserved host = true →
  str_all is_digit port = true →
  str_all path_plain base = true →
  is_empty base || HasPrefix base "/" = true →
  url_Parse (scheme +:+ "://" +:+ host_port host port +:+ base) =
    Some {| Scheme := ToLower scheme; Opaque := EmptyString; User := None;
            Host := host_port host port; Path := base; RawPath := EmptyString;
            OmitHost := false; ForceQuery := false; RawQuery := EmptyString;
            Fragment := EmptyString; RawFragment := EmptyString |}.
Proof.
  intros Hscheme Hhost0 Hport Hbase Hroot.
  pose proof (host_port_bytes host port Hhost0 Hport) as Hhost.
  pose proof (parseHost_host_port host port Hhost0 Hport) as HparseHost.
  set (authority := host_port host port) in *. clearbody authority.
  destruct (valid_scheme_all _ Hscheme) as [Hsch Hne].
  set (rest := "//" +:+ authority +:+ base).
  assert (scheme +:+ "://" +:+ authority +:+ base = scheme +:+ String ":" rest) as ->
    by done.
  assert (∀ p : ascii → bool,
            str_all p "//" = true → str_all p authority = true →
            str_all p base = true → str_all p rest = true) as Hrest.
  { intros p H1 H2 H3. unfold rest. by rewrite !str_all_app, H1, H2, H3. }
  assert (∀ p : ascii → bool,
            str_all p scheme = true → p ":"%char = true → str_all p rest = true →
            str_all p (scheme +:+ String ":" rest) = true) as Hall.
  { intros p H1 H2 H3. rewrite str_all_app. cbn [str_all]. by rewrite H1, H2, H3. }
  unfold url_Parse.
  rewrite Cut_without.
  2:{ apply Hall; [|done|apply Hrest; [done|..]];
        [apply (all_of Hsch)|apply (all_of Hhost)|apply (all_of Hbase)]; by_bytes. }
  unfold parse.
  rewrite stringContainsCTLByte_false.
  2:{ apply Hall; [|done|apply Hrest; [done|..]];
        [apply (all_of Hsch)|apply (all_of Hhost)|apply (all_of Hbase)]; by_bytes. }
  rewrite andb_false_r.
  rewrite String_eqb_scheme by done.
  rewrite getScheme_valid by done.
  cbn [mbind option_bind].
  rewrite Count_without.
  2:{ apply Hrest; [done|apply (all_of Hhost)|apply (all_of Hbase)]; by_bytes. }
  cbn [Nat.eqb]. rewrite andb_false_r.
  rewrite Cut_without.
  2:{ apply Hrest; [done|apply (all_of Hhost)|apply (all_of Hbase)]; by_bytes. }
  assert (HasPrefix rest "/" = true) as -> by reflexivity.
  assert (HasPrefix rest "//" = true) as -> by apply HasPrefix_app.
  assert (str_drop 2 rest = authority +:+ base) as -> by reflexivity.
  rewrite is_empty_ToLower, Hne. cbn [negb andb orb].
  assert (parseAuthority authority = Some (None, authority)) as Hauth.
  { unfold parseAuthority. rewrite LastIndex_without by (apply (all_of Hhost); by_bytes).
    by rewrite HparseHost. }
  assert (∀ u, setPath u base =
            Some {| Scheme := Scheme u; Opaque := Opaque u; User := User u;
                    Host := Host u; Path := base; RawPath := EmptyString;
                    OmitHost := OmitHost u; ForceQuery := ForceQuery u;
                    RawQuery := RawQuery u; Fragment := Fragment u;
                    RawFragment := RawFragment u |}) as Hpath.
  { intros u. unfold setPath.
    rewrite unescape_path by (apply (all_of Hbase); by_bytes).
    cbn [mbind option_bind]. by rewrite (escape_plain _ _ Hbase), String.eqb_refl. }
  destruct base as [|b base'].
  - rewrite str_app_nil_r.
    rewrite Index_without by (apply (all_of Hhost); by_bytes).
    rewrite Hauth. cbn [mbind option_bind]. by rewrite Hpath.
  - cbn [is_empty orb HasPrefix] in Hroot.
    apply andb_prop in Hroot as [Hb _]. apply Ascii.eqb_eq in Hb. subst b.
    rewrite Index_first by (apply (all_of Hhost); by_bytes).
    rewrite str_take_app, str_drop_app, Hauth. cbn [mbind option_bind].
    by rewrite Hpath.
Qed.
Lemma strlen_cons c s : strlen (String c s) = S (strlen s).
Proof. done. Qed.

Lemma Contains_char cutset c :
  Contains (String cutset EmptyString) (String c EmptyString) = Ascii.eqb cutset c.
Proof.
  unfold Contains. cbn [Index]. rewrite HasPrefix_char.
  destruct (Ascii.eqb cutset c); [done|]. cbn. by destruct c.
Qed.

Lemma TrimLeft_slash_cons c s :
  TrimLeft (String c s) "/" = if Ascii.eqb "/" c then TrimLeft s "/" else String c s.
Proof. cbn [TrimLeft]. by rewrite Contains_char. Qed.

Lemma TrimRight_slash_cons c s :
  TrimRight (String c s) "/" =
    match TrimRight s "/" with
    | EmptyString => if Ascii.eqb "/" c then EmptyString else String c EmptyString
    | t => String c t
    end.
Proof. cbn [TrimRight]. by rewrite Contains_char. Qed.

Lemma TrimLeft_all p s : str_all p s = true → str_all p (TrimLeft s "/") = true.
Proof.
  induction s as [|c s IH]; [done|]. rewrite TrimLeft_slash_cons.
  intros H. destruct (Ascii.eqb "/" c); [|done].
  cbn [str_all] in H. apply andb_prop in H as [_ H]. by apply IH.
Qed.

Lemma TrimRight_all p s : str_all p s = true → str_all p (TrimRight s "/") = true.
Proof.
  induction s as [|c s IH]; [done|]. rewrite TrimRight_slash_cons.
  cbn [str_all]. intros [Hc Hs]%andb_prop. specialize (IH Hs).
  destruct (TrimRight s "/") as [|d t].
  - destruct (Ascii.eqb "/" c); [done|]. cbn [str_all]. by rewrite Hc.
  - cbn [str_all] in *. by rewrite Hc, IH.
Qed.

(** A trimmed rooted path is empty or rooted. *)
Lemma TrimRight_rooted s :
  is_empty s || HasPrefix s "/" = true →
  is_empty (TrimRight s "/") || HasPrefix (TrimRight s "/") "/" = true.
Proof.
  destruct s as [|c s]; [done|]. cbn [is_empty orb]. rewrite HasPrefix_char.
  intros Hc. rewrite TrimRight_slash_cons.
  destruct (TrimRight s "/") as [|d t].
  - rewrite Ascii.eqb_sym, Hc. done.
  - cbn [is_empty orb]. by rewrite HasPrefix_char.
Qed.

(** [ReplaceAll(s, "//", "/")], case by case. *)
Lemma ReplaceAll_slashes_nil : ReplaceAll EmptyString "//" "/" = EmptyString.
Proof. done. Qed.

Lemma ReplaceAll_slashes_other c s :
  Ascii.eqb c "/" = false →
  ReplaceAll (String c s) "//" "/" = String c (ReplaceAll s "//" "/").
Proof.
  intros Hc. unfold ReplaceAll. cbn [ReplaceAll_from HasPrefix]. by rewrite Hc.
Qed.

Lemma ReplaceAll_slashes_two s :
  ReplaceAll (String "/" (String "/" s)) "//" "/" = String "/" (ReplaceAll s "//" "/").
Proof.
  unfold ReplaceAll. cbn [ReplaceAll_from HasPrefix].
  rewrite !Ascii.eqb_refl, HasPrefix_nil. done.
Qed.

Lemma ReplaceAll_slashes_one s :
  HasPrefix s "/" = false →
  ReplaceAll (String "/" s) "//" "/" = String "/" (ReplaceAll s "//" "/").
Proof.
  intros Hs. unfold ReplaceAll. cbn [ReplaceAll_from HasPrefix].
  rewrite Ascii.eqb_refl. cbn [andb].
  destruct s as [|c s]; [done|]. rewrite HasPrefix_char in Hs.
  cbn [HasPrefix]. by rewrite Hs.
Qed.

Lemma ReplaceAll_slashes_all p s :
  str_all p s = true → str_all p (ReplaceAll s "//" "/") = true.
Proof.
  remember (strlen s) as n eqn:Hn. revert s Hn.
  induction n as [n IH] using lt_wf_ind. intros s Hn Hs.
  destruct s as [|c s]; [done|].
  cbn [str_all] in Hs. apply andb_prop in Hs as [Hc Hs].
  destruct (Ascii.eqb c "/") eqn:Hslash.
  - apply Ascii.eqb_eq in Hslash. subst c.
    destruct s as [|d s].
    + rewrite ReplaceAll_slashes_one by done. cbn [str_all]. by rewrite Hc.
    + destruct (Ascii.eqb d "/") eqn:Hd.
      * apply Ascii.eqb_eq in Hd. subst d. rewrite ReplaceAll_slashes_two.
        cbn [str_all] in *. apply andb_prop in Hs as [_ Hs]. rewrite Hc.
        apply (IH (strlen s)); [subst n; rewrite !strlen_cons; lia|done|done].
      * rewrite ReplaceAll_slashes_one by (by rewrite HasPrefix_char).
        cbn [str_all]. rewrite Hc.
        apply (IH (strlen (String d s))); [subst n; rewrite !strlen_cons; lia|done|by cbn [str_all]].
  - rewrite ReplaceAll_slashes_other by done. cbn [str_all]. rewrite Hc.
    apply (IH (strlen s)); [subst n; rewrite !strlen_cons; lia|done|done].
Qed.

Lemma Contains_cons c s substr :
  Contains (String c s) substr = HasPrefix (String c s) substr || Contains s substr.
Proof.
  unfold Contains. cbn [Index].
  destruct (HasPrefix (String c s) substr); [done|]. by destruct (Index s substr).
Qed.

Lemma ReplaceAll_slashes_rooted s :
  HasPrefix (ReplaceAll s "//" "/") "/" = HasPrefix s "/".
Proof.
  destruct s as [|c s]; [done|].
  destruct (Ascii.eqb c "/") eqn:Hslash.
  - apply Ascii.eqb_eq in Hslash. subst c.
    destruct s as [|d s]; [done|].
    destruct (Ascii.eqb d "/") eqn:Hd.
    + apply Ascii.eqb_eq in Hd. subst d.
      by rewrite ReplaceAll_slashes_two, !HasPrefix_char.
    + rewrite ReplaceAll_slashes_one by (by rewrite HasPrefix_char).
      by rewrite !HasPrefix_char.
  - rewrite ReplaceAll_slashes_other by done. by rewrite !HasPrefix_char.
Qed.

(** One pass removes every duplicate slash when no three slashes are in a
    row. *)
Lemma ReplaceAll_slashes_clean s :
  Contains s "///" = false → Contains (ReplaceAll s "//" "/") "//" = false.
Proof.
  remember (strlen s) as n eqn:Hn. revert s Hn.
  induction n as [n IH] using lt_wf_ind. intros s Hn Hs.
  destruct s as [|c s]; [done|].
  rewrite Contains_cons in Hs. apply orb_false_elim in Hs as [Hhead Hs].
  destruct (Ascii.eqb c "/") eqn:Hslash.
  - apply Ascii.eqb_eq in Hslash. subst c.
    destruct s as [|d s]; [done|].
    destruct (Ascii.eqb d "/") eqn:Hd.
    + apply Ascii.eqb_eq in Hd. subst d. rewrite ReplaceAll_slashes_two.
      rewrite Contains_cons in Hs. apply orb_false_elim in Hs as [_ Hs].
      assert (HasPrefix s "/" = false) as Hthird.
      { cbn [HasPrefix] in Hhead. rewrite !Ascii.eqb_refl in Hhead.
        destruct s as [|e s]; [done|]. cbn [HasPrefix andb] in *.
        by rewrite HasPrefix_nil, andb_true_r in *. }
      rewrite Contains_cons. cbn [HasPrefix]. rewrite Ascii.eqb_refl. cbn [andb].
      assert (HasPrefix (ReplaceAll s "//" "/") "/" = false) as Hr
        by (by rewrite ReplaceAll_slashes_rooted).
      destruct (ReplaceAll s "//" "/") as [|e t] eqn:Hrs; [done|].
      rewrite HasPrefix_char in Hr. cbn [HasPrefix]. rewrite Hr. cbn [andb orb].
      rewrite <- Hrs. apply (IH (strlen s)); [subst n; rewrite !strlen_cons; lia|done|done].
    + rewrite ReplaceAll_slashes_one by (by rewrite HasPrefix_char).
      rewrite Contains_cons. cbn [HasPrefix]. rewrite Ascii.eqb_refl. cbn [andb].
      rewrite ReplaceAll_slashes_other by done. cbn [HasPrefix]. rewrite Hd.
      cbn [andb orb]. rewrite <- (ReplaceAll_slashes_other d s Hd).
      apply (IH (strlen (String d s))); [subst n; rewrite !strlen_cons; lia|done|done].
  - rewrite ReplaceAll_slashes_other by done.
    rewrite Contains_cons. cbn [HasPrefix]. rewrite Hslash. cbn [andb orb].
    apply (IH (strlen s)); [subst n; rewrite !strlen_cons; lia|done|done].
Qed.

(** Without duplicate slashes the pass changes nothing. *)
Lemma ReplaceAll_slashes_id s :
  Contains s "//" = false → ReplaceAll s "//" "/" = s.
Proof.
  induction s as [|c s IH]; [done|].
  rewrite Contains_cons. intros [Hhead Hs]%orb_false_elim.
  unfold ReplaceAll in *. cbn [ReplaceAll_from]. rewrite Hhead.
  by rewrite IH.
Qed.
Lemma is_empty_false_rooted s : HasPrefix s "/" = true → is_empty s = false.
Proof. by destruct s. Qed.

Lemma is_empty_app_l s t : is_empty s = false → is_empty (s +:+ t) = false.
Proof. by destruct s. Qed.

Lemma String_eqb_rooted s : HasPrefix s "/" = true → String.eqb s "*" = false.
Proof.
  destruct s as [|c s]; [done|]. rewrite HasPrefix_char.
  intros Hc%Ascii.eqb_eq. by subst c.
Qed.

(** What [String] writes for a URL with a scheme, a plain host, a plain
    rooted path, a query and a plain fragment. *)
Lemma URL_String_plain scheme authority path query fragment :
  is_empty scheme = false →
  str_all authority_byte authority = true →
  str_all path_plain path = true →
  HasPrefix path "/" = true →
  str_all fragment_plain fragment = true →
  URL_String {| Scheme := scheme; Opaque := EmptyString; User := None;
                Host := authority; Path := path; RawPath := EmptyString;
                OmitHost := false; ForceQuery := false; RawQuery := query;
                Fragment := fragment; RawFragment := EmptyString |}
  = scheme +:+ "://" +:+ authority +:+ path
    +:+ (if is_empty query then EmptyString else "?" +:+ query)
    +:+ (if is_empty fragment then EmptyString else "#" +:+ fragment).
Proof.
  intros Hscheme Hhost Hpath Hroot Hfrag.
  unfold URL_String, EscapedPath, EscapedFragment.
  cbn [Scheme Opaque User Host Path RawPath OmitHost ForceQuery RawQuery
       Fragment RawFragment is_empty negb andb orb].
  rewrite Hscheme, (is_empty_false_rooted _ Hroot), (String_eqb_rooted _ Hroot).
  rewrite (escape_plain _ _ Hpath), (escape_plain _ _ Hfrag), Hroot.
  rewrite andb_false_r, orb_true_r. cbn [negb andb orb].
  assert ((if is_empty authority then EmptyString else escape authority encodeHost)
          = authority) as ->.
  { destruct (is_empty authority) eqn:E; [by destruct authority|].
    apply escape_plain. apply (all_of Hhost). by_bytes. }
  rewrite !is_empty_app_l by (by apply is_empty_app_l). cbn [andb].
  destruct (is_empty query); cbn [negb];
    by rewrite !str_app_assoc, !str_app_nil_l.
Qed.
Lemma Index_app_without x s t :
  without x s = true →
  Index (s +:+ t) (String x EmptyString)
  = (λ i, strlen s + i) <$> Index t (String x EmptyString).
Proof.
  unfold without. induction s as [|c s IH].
  - intros _. rewrite str_app_nil_l. by destruct (Index t _).
  - cbn [str_all]. intros [Hc Hs]%andb_prop. rewrite str_app_cons.
    cbn [Index]. rewrite HasPrefix_char. apply negb_true_iff in Hc.
    rewrite Hc, IH by done. by destruct (Index t _).
Qed.

Lemma str_take_add_app s t i : str_take (strlen s + i) (s +:+ t) = s +:+ str_take i t.
Proof.
  induction s as [|c s IH]; [done|].
  rewrite !str_app_cons, strlen_cons. cbn [Nat.add]. by rewrite str_take_cons, IH.
Qed.

(** The part of an absolute URL before its fragment still starts with the
    scheme. *)
Lemma Cut_fragment_scheme scheme rest :
  str_all scheme_char scheme = true →
  ∃ rest' frag found,
    Cut (scheme +:+ String ":" rest) "#" = (scheme +:+ String ":" rest', frag, found).
Proof.
  intros Hsch. unfold Cut.
  rewrite Index_app_without by (apply (all_of Hsch); by_bytes).
  cbn [Index]. rewrite HasPrefix_char.
  change (Ascii.eqb ":" "#") with false. cbn iota.
  destruct (Index rest "#") as [i|]; cbn [fmap option_fmap option_map].
  - exists (str_take i rest). eexists _, _. f_equal. f_equal.
    by rewrite str_take_add_app, str_take_cons.
  - by eexists _, _, _.
Qed.

Lemma setPath_Scheme u p u' : setPath u p = Some u' → Scheme u' = Scheme u.
Proof.
  unfold setPath. destruct (unescape p encodePath); [|done].
  cbn [mbind option_bind]. by intros [= <-].
Qed.

Lemma setFragment_Scheme u f u' : setFragment u f = Some u' → Scheme u' = Scheme u.
Proof.
  unfold setFragment. destruct (unescape f encodeFragment); [|done].
  cbn [mbind option_bind]. by intros [= <-].
Qed.

Lemma parse_Scheme scheme rest u :
  valid_scheme scheme = true →
  parse (scheme +:+ String ":" rest) false = Some u → Scheme u = ToLower scheme.
Proof.
  intros Hscheme. unfold parse.
  destruct (stringContainsCTLByte _); [done|].
  rewrite andb_false_r, String_eqb_scheme, getScheme_valid by done.
  cbn [mbind option_bind].
  destruct (if HasSuffix rest "?" && (Count rest "?" =? 1)
            then (str_take (strlen rest - 1) rest, true, EmptyString)
            else let '(before, after, _) := Cut rest "?" in (before, false, after))
    as [[rest1 forceQuery] rawQuery].
  destruct (negb (HasPrefix rest1 "/") && negb (is_empty (ToLower scheme)));
    [by intros [= <-]|].
  destruct (negb (HasPrefix rest1 "/") && false); [done|].
  destruct (negb (HasPrefix rest1 "/") && Contains (Cut rest1 "/").1.1 ":"); [done|].
  destruct (_ && HasPrefix rest1 "//").
  - destruct (match Index (str_drop 2 rest1) "/" with
              | Some i => _ | None => _ end) as [authority rest2].
    destruct (parseAuthority authority) as [[user host]|]; [|done].
    cbn [mbind option_bind]. by intros ?%setPath_Scheme.
  - destruct (_ && HasPrefix rest1 "/"); by intros ?%setPath_Scheme.
Qed.

(** A URL that starts with a scheme parses, if at all, to a URL with that
    scheme. *)
Lemma url_Parse_Scheme scheme rest u :
  valid_scheme scheme = true →
  url_Parse (scheme +:+ String ":" rest) = Some u → Scheme u = ToLower scheme.
Proof.
  intros Hscheme. unfold url_Parse.
  destruct (valid_scheme_all _ Hscheme) as [Hsch _].
  destruct (Cut_fragment_scheme scheme rest Hsch) as (rest' & frag & found & ->).
  destruct (parse (scheme +:+ String ":" rest') false) as [u0|] eqn:Hparse; [|done].
  cbn [mbind option_bind]. apply parse_Scheme in Hparse; [|done].
  destruct (is_empty frag).
  - by intros [= <-].
  - intros ?%setFragment_Scheme. congruence.
Qed.

Lemma hexEscapeNonASCII_ascii s : str_all is_ascii s = true → hexEscapeNonASCII s = s.
Proof.
  induction s as [|c s IH]; [done|]. cbn [str_all hexEscapeNonASCII].
  intros [Hc Hs]%andb_prop. by rewrite Hc, IH.
Qed.


Lemma valid_scheme_ToLower s : valid_scheme s = true → valid_scheme (ToLower s) = true.
Proof.
  destruct s as [|c s]; [done|]. cbn [valid_scheme ToLower].
  intros [Hc Hs]%andb_prop. pose proof (is_alpha_ok c Hc) as H.
  repeat (apply andb_prop in H; let H' := fresh in destruct H as [H H']).
  apply andb_true_intro. split; [done|].
  apply str_all_ToLower, (all_of Hs). by_bytes.
Qed.

(** The path of the redirect: plain and rooted. *)
Lemma joined_path_plain base path :
  str_all path_plain base = true →
  is_empty base || HasPrefix base "/" = true →
  str_all path_plain path = true →
  let joined := TrimRight base "/" +:+ "/" +:+ TrimLeft path "/" in
  str_all path_plain (ReplaceAll joined "//" "/") = true
  ∧ HasPrefix (ReplaceAll joined "//" "/") "/" = true.
Proof.
  intros Hbase Hroot Hpath joined. split.
  - apply ReplaceAll_slashes_all. unfold joined. rewrite !str_all_app.
    by rewrite (TrimRight_all _ _ Hbase), (TrimLeft_all _ _ Hpath).
  - rewrite ReplaceAll_slashes_rooted. unfold joined.
    pose proof (TrimRight_rooted base Hroot) as H.
    destruct (TrimRight base "/") as [|c t];
      [by rewrite str_app_nil_l, str_app_cons, HasPrefix_char|].
    cbn [is_empty orb] in H. rewrite HasPrefix_char in H.
    by rewrite str_app_cons, HasPrefix_char.
Qed.

(** ** The scheme of a parsed URL *)

Lemma getScheme_scan_ends s : ∀ i j,
  getScheme_scan i s = SchemeEnds j →
  ∃ k, j = i + k ∧ str_all scheme_char (str_take k s) = true
    ∧ (i = 0 → 0 < k ∧ match s with
                        | String c _ => is_alpha c = true
                        | EmptyString => False
                        end).
Proof.
  induction s as [|c s IH]; intros i j; [done|]. cbn [getScheme_scan].
  destruct (is_alpha c) eqn:Halpha.
  - intros (k & -> & Hk & _)%IH. exists (S k). split; [lia|].
    rewrite str_take_cons. cbn [str_all]. rewrite Hk.
    pose proof (is_alpha_ok c Halpha) as H.
    apply andb_prop in H as [[-> _]%andb_prop _]. split; [done|]. intros _.
    split; [lia|done].
  - destruct (is_digit c || one_of ["+"; "-"; "."]%char c) eqn:Hother.
    + destruct (i =? 0) eqn:Hi; [done|]. apply Nat.eqb_neq in Hi.
      intros (k & -> & Hk & _)%IH. exists (S k). split; [lia|].
      rewrite str_take_cons. cbn [str_all]. rewrite Hk.
      unfold scheme_char. rewrite Halpha. cbn [orb].
      rewrite Hother. split; [done|]. intros ->. done.
    + destruct (Ascii.eqb c ":"); [|done].
      destruct (i =? 0) eqn:Hi; [done|]. apply Nat.eqb_neq in Hi.
      intros [= <-]. exists 0. split; [lia|]. split; [done|]. intros ->. done.
Qed.

Lemma getScheme_result raw scheme rest :
  getScheme raw = Some (scheme, rest) →
  is_empty scheme = true ∨ valid_scheme scheme = true.
Proof.
  unfold getScheme. destruct (getScheme_scan 0 raw) as [| |j] eqn:Hscan.
  - intros [= <- <-]. by left.
  - done.
  - intros [= <- <-]. right.
    apply getScheme_scan_ends in Hscan as (k & -> & Hk & Hfirst).
    destruct (Hfirst eq_refl) as [Hpos Halpha].
    destruct raw as [|c raw]; [done|]. destruct k as [|k]; [lia|].
    cbn [Nat.add]. rewrite str_take_cons in *. cbn [valid_scheme str_all] in *.
    apply andb_prop in Hk as [_ Hk]. by rewrite Halpha, Hk.
Qed.

Lemma parse_Scheme_valid raw u :
  parse raw false = Some u →
  is_empty (Scheme u) = true ∨ valid_scheme (Scheme u) = true.
Proof.
  unfold parse.
  destruct (stringContainsCTLByte _); [done|]. rewrite andb_false_r.
  destruct (String.eqb raw "*"); [intros [= <-]; by left|].
  destruct (getScheme raw) as [[scheme rest]|] eqn:Hget; [|done].
  cbn [mbind option_bind].
  assert (is_empty (ToLower scheme) = true ∨ valid_scheme (ToLower scheme) = true)
    as Hscheme.
  { destruct (getScheme_result _ _ _ Hget) as [H|H].
    - left. by rewrite is_empty_ToLower.
    - right. by apply valid_scheme_ToLower. }
  destruct (if HasSuffix rest "?" && (Count rest "?" =? 1)
            then (str_take (strlen rest - 1) rest, true, EmptyString)
            else let '(before, after, _) := Cut rest "?" in (before, false, after))
    as [[rest1 forceQuery] rawQuery].
  destruct (negb (HasPrefix rest1 "/") && negb (is_empty (ToLower scheme)));
    [by intros [= <-]|].
  destruct (negb (HasPrefix rest1 "/") && false); [done|].
  destruct (negb (HasPrefix rest1 "/") && Contains (Cut rest1 "/").1.1 ":"); [done|].
  destruct (_ && HasPrefix rest1 "//").
  - destruct (match Index (str_drop 2 rest1) "/" with
              | Some i => _ | None => _ end) as [authority rest2].
    destruct (parseAuthority authority) as [[user host]|]; [|done].
    cbn [mbind option_bind]. intros ->%setPath_Scheme. done.
  - destruct (_ && HasPrefix rest1 "/"); intros ->%setPath_Scheme; done.
Qed.

(** The scheme of a URL that [url.Parse] returns is empty, or a letter
    followed by letters, digits, plus, minus and dot, in lower case. *)
Lemma url_Parse_Scheme_valid raw u :
  url_Parse raw = Some u →
  is_empty (Scheme u) = true ∨ valid_scheme (Scheme u) = true.
Proof.
  unfold url_Parse. destruct (Cut raw "#") as [[before frag] found].
  destruct (parse before false) as [u0|] eqn:Hparse; [|done].
  cbn [mbind option_bind]. apply parse_Scheme_valid in Hparse.
  destruct (is_empty frag).
  - by intros [= <-].
  - intros ->%setFragment_Scheme. done.
Qed.

(** [u.String()] starts with the scheme and a colon. *)
Lemma URL_String_Scheme u :
  is_empty (Scheme u) = false →
  ∃ rest, URL_String u = Scheme u +:+ String ":" rest.
Proof.
  intros Hne. unfold URL_String. rewrite Hne. cbn [negb orb].
  assert (∀ x, (Scheme u +:+ ":") +:+ x = Scheme u +:+ String ":" x) as Hcolon.
  { intros x. by rewrite str_app_assoc, str_app_cons, str_app_nil_l. }
  destruct (negb (is_empty (Opaque u))).
  - eexists. rewrite !str_app_assoc, str_app_cons, str_app_nil_l. reflexivity.
  - set (authority := if OmitHost u && is_empty (Host u) && bool_decide (User u = None)
                      then EmptyString else _).
    assert (is_empty ((Scheme u +:+ ":") +:+ authority) = false) as Hbuf.
    { rewrite Hcolon. by apply is_empty_app_l. }
    destruct (negb (is_empty (EscapedPath u)) && negb (HasPrefix (EscapedPath u) "/")
              && negb (is_empty (Host u))).
    + rewrite (is_empty_app_l _ "/" Hbuf). cbn [andb].
      eexists. rewrite !str_app_assoc, str_app_cons, str_app_nil_l. reflexivity.
    + rewrite Hbuf. cbn [andb].
      eexists. rewrite !str_app_assoc, str_app_cons, str_app_nil_l. reflexivity.
Qed.

(** [http.Redirect] to a URL with a scheme: the Location is the URL, with
    the bytes that are not ASCII written in hexadecimal. *)
Lemma http_Redirect_scheme r scheme rest code :
  valid_scheme scheme = true →
  w_Header (http_Redirect newResponseWriter r (scheme +:+ String ":" rest) code)
    !! "Location"
  = Some (hexEscapeNonASCII (scheme +:+ String ":" rest)).
Proof.
  intros Hscheme. unfold http_Redirect. cbn [w_Header newResponseWriter].
  assert (∀ u, url_Parse (scheme +:+ String ":" rest) = Some u →
            is_empty (Scheme u) = false) as Hne.
  { intros u Hparse. apply url_Parse_Scheme in Hparse; [|done].
    rewrite Hparse, is_empty_ToLower.
    by destruct (valid_scheme_all _ Hscheme) as [_ ->]. }
  destruct (url_Parse (scheme +:+ String ":" rest)) as [u|];
    [rewrite (Hne u eq_refl); cbn [andb]|].
  all: rewrite bool_decide_eq_false_2 by (rewrite lookup_empty; by intros [? ?]).
  all: cbn [negb andb].
  all: destruct (_ || _); by rewrite ?lookup_insert_ne, lookup_insert_eq by done.
Qed.

Lemma http_Redirect_Location r url code :
  w_Status (http_Redirect newResponseWriter r url code) = code
  ∧ is_Some (w_Header (http_Redirect newResponseWriter r url code) !! "Location").
Proof.
  unfold http_Redirect. cbn [w_Status w_Header]. split; [done|].
  destruct (_ && _); by rewrite ?lookup_insert_ne, lookup_insert_eq by done.
Qed.

Lemma single_slashes_cons c s :
  single_slashes (String c s)
  = if Ascii.eqb c "/" && HasPrefix s "/" then single_slashes s
    else String c (single_slashes s).
Proof. done. Qed.

(** One pass of [ReplaceAll] leaves one slash for every run of slashes
    when no three slashes are in a row. *)
Lemma ReplaceAll_slashes_single s :
  Contains s "///" = false → ReplaceAll s "//" "/" = single_slashes s.
Proof.
  remember (strlen s) as n eqn:Hn. revert s Hn.
  induction n as [n IH] using lt_wf_ind. intros s Hn Hs.
  destruct s as [|c s]; [done|].
  rewrite Contains_cons in Hs. apply orb_false_elim in Hs as [Hhead Hs].
  destruct (Ascii.eqb c "/") eqn:Hslash.
  - apply Ascii.eqb_eq in Hslash. subst c.
    destruct s as [|d s]; [done|].
    destruct (Ascii.eqb d "/") eqn:Hd.
    + apply Ascii.eqb_eq in Hd. subst d. rewrite ReplaceAll_slashes_two.
      rewrite Contains_cons in Hs. apply orb_false_elim in Hs as [_ Hs].
      assert (HasPrefix s "/" = false) as Hthird.
      { cbn [HasPrefix] in Hhead. rewrite !Ascii.eqb_refl in Hhead.
        destruct s as [|e s]; [done|]. cbn [HasPrefix andb] in *.
        by rewrite HasPrefix_nil, andb_true_r in *. }
      rewrite single_slashes_cons, Ascii.eqb_refl, HasPrefix_char, Ascii.eqb_refl.
      cbn [andb]. rewrite single_slashes_cons, Ascii.eqb_refl, Hthird. cbn [andb].
      f_equal. apply (IH (strlen s)); [subst n; rewrite !strlen_cons; lia|done|done].
    + rewrite ReplaceAll_slashes_one by (by rewrite HasPrefix_char).
      rewrite single_slashes_cons, Ascii.eqb_refl, HasPrefix_char, Hd. cbn [andb].
      f_equal.
      apply (IH (strlen (String d s))); [subst n; rewrite !strlen_cons; lia|done|done].
  - rewrite ReplaceAll_slashes_other by done.
    rewrite single_slashes_cons, Hslash. cbn [andb].
    f_equal. apply (IH (strlen s)); [subst n; rewrite !strlen_cons; lia|done|done].
Qed.

(** The answer of the handler for a host of the table whose target
    parses. *)
Lemma handleRequest_redirects strings_ToLower ps r target u :
  Path (r_URL r) ≠ "/check" →
  Path (r_URL r) ≠ "/health" →
  Path (r_URL r) ≠ "/proxy.pac" →
  is_empty (r_Host r) = false →
  shortLinkMap ps !! strings_ToLower (strip_port (r_Host r)) = Some target →
  url_Parse target = Some u →
  (handleRequest_with strings_ToLower ps r).2
  = Wrote (http_Redirect newResponseWriter r
             (URL_String
                (redirect_url u
                   (ReplaceAll (TrimRight (Path u) "/" +:+ "/"
                                +:+ TrimLeft (Path (r_URL r)) "/") "//" "/") r))
             StatusFound).
Proof.
  intros Hcheck Hhealth Hpac Hhost Hlookup Hparse.
  unfold handleRequest_with.
  rewrite (proj2 (String.eqb_neq _ _) Hcheck), (proj2 (String.eqb_neq _ _) Hhealth),
    (proj2 (String.eqb_neq _ _) Hpac), Hhost. cbn [orb shortLinkMap].
  destruct (Split_colon_head (r_Host r)) as [pieces ->]. cbn [lookup list_lookup].
  by rewrite Hlookup, Hparse.
Qed.

(** C3, amended: a request whose host, lower-cased and without its port,
    is in the table with a target that [url.Parse] accepts is answered by
    [http.Redirect] with 302, so with a Location, to the parsed target
    written by [String] with a new path and with the query and the
    fragment of the request.  When the target path without its final
    slashes, one slash, and the request path without its leading slashes
    have no three slashes in a row, the new path is that sequence with a
    single slash for every run of slashes, and it has no duplicate slash.
    When the parsed target has a scheme, the Location is that URL as
    written.  For a target scheme://host/base or scheme://host:port/base
    of plain bytes and a request of plain bytes the Location is, byte for
    byte, the lower-cased scheme, "://", the host with its port, that
    path, and the query and the fragment of the request unchanged. *)
Theorem redirect_target (strings_ToLower : string → string) (ps : ProxyServer)
    (r : Request) (target : string) (u : URL) :
  Path (r_URL r) ≠ "/check" →
  Path (r_URL r) ≠ "/health" →
  Path (r_URL r) ≠ "/proxy.pac" →
  is_empty (r_Host r) = false →
  shortLinkMap ps !! strings_ToLower (strip_port (r_Host r)) = Some target →
  url_Parse target = Some u →
  let joined := TrimRight (Path u) "/" +:+ "/" +:+ TrimLeft (Path (r_URL r)) "/" in
  ∃ w path,
    (handleRequest_with strings_ToLower ps r).2 = Wrote w
    ∧ w = http_Redirect newResponseWriter r (URL_String (redirect_url u path r)) 302
    ∧ w_Status w = 302
    ∧ is_Some (w_Header w !! "Location")
    ∧ (Contains joined "///" = false →
       path = single_slashes joined ∧ Contains path "//" = false)
    ∧ (is_empty (Scheme u) = false →
       w_Header w !! "Location"
         = Some (hexEscapeNonASCII (URL_String (redirect_url u path r))))
    ∧ (∀ scheme host port base,
         target = scheme +:+ "://" +:+ host_port host port +:+ base →
         valid_scheme scheme = true →
         str_all unreserved host = true →
         str_all is_digit port = true →
         str_all path_plain base = true →
         is_empty base || HasPrefix base "/" = true →
         str_all path_plain (Path (r_URL r)) = true →
         str_all is_ascii (RawQuery (r_URL r)) = true →
         str_all fragment_plain (Fragment (r_URL r)) = true →
         Contains (TrimRight base "/" +:+ "/" +:+ TrimLeft (Path (r_URL r)) "/") "///"
           = false →
         w_Header w !! "Location"
           = Some (ToLower scheme +:+ "://" +:+ host_port host port
                   +:+ single_slashes (TrimRight base "/" +:+ "/"
                                       +:+ TrimLeft (Path (r_URL r)) "/")
                   +:+ (if is_empty (RawQuery (r_URL r)) then EmptyString
                        else "?" +:+ RawQuery (r_URL r))
                   +:+ (if is_empty (Fragment (r_URL r)) then EmptyString
                        else "#" +:+ Fragment (r_URL r)))).
Proof.
  intros Hcheck Hhealth Hpac Hhost Hlookup Hparse joined.
  rewrite (handleRequest_redirects _ _ _ _ _ Hcheck Hhealth Hpac Hhost Hlookup Hparse).
  fold joined. set (path := ReplaceAll joined "//" "/").
  destruct (http_Redirect_Location r (URL_String (redirect_url u path r)) StatusFound)
    as [Hstatus Hsome].
  assert (is_empty (Scheme u) = false →
          w_Header (http_Redirect newResponseWriter r
                      (URL_String (redirect_url u path r)) StatusFound) !! "Location"
          = Some (hexEscapeNonASCII (URL_String (redirect_url u path r)))) as Hlocation.
  { intros Hne.
    destruct (URL_String_Scheme (redirect_url u path r) Hne) as [rest ->].
    apply http_Redirect_scheme. cbn [redirect_url Scheme].
    destruct (url_Parse_Scheme_valid _ _ Hparse) as [Hempty|Hvalid]; [|done].
    by rewrite Hempty in Hne. }
  eexists _, path. split; [done|]. split; [done|]. split; [exact Hstatus|].
  split; [exact Hsome|]. split; [|split; [exact Hlocation|]].
  - intros Hno. unfold path. split; [by apply ReplaceAll_slashes_single|].
    by apply ReplaceAll_slashes_clean.
  - intros scheme host port base -> Hscheme Hh Hport Hbase Hroot Hpath Hquery Hfrag Hno.
    rewrite url_Parse_plain in Hparse by done. injection Hparse as <-.
    cbn [Path] in joined.
    pose proof (valid_scheme_ToLower _ Hscheme) as Hlower.
    destruct (valid_scheme_all _ Hlower) as [Hsch Hnonempty].
    rewrite Hlocation by done.
    destruct (joined_path_plain base (Path (r_URL r)) Hbase Hroot Hpath)
      as [Hplain Hrooted]. fold joined in Hplain, Hrooted. fold path in Hplain, Hrooted.
    pose proof (host_port_bytes host port Hh Hport) as Hauthority.
    unfold redirect_url.
    cbn [Scheme Opaque User Host Path RawPath OmitHost ForceQuery RawFragment].
    rewrite URL_String_plain by done.
    fold joined. rewrite <- (ReplaceAll_slashes_single joined Hno). fold path.
    f_equal. apply hexEscapeNonASCII_ascii.
    rewrite !str_all_app.
    rewrite (all_of Hsch), (all_of Hauthority), (all_of Hplain); [|by_bytes..].
    cbn [str_all andb].
    assert (str_all is_ascii
              (if is_empty (RawQuery (r_URL r)) then EmptyString
               else "?" +:+ RawQuery (r_URL r)) = true) as ->.
    { destruct (is_empty (RawQuery (r_URL r))); [done|].
      change (is_ascii "?" && str_all is_ascii (RawQuery (r_URL r)) = true).
      by rewrite Hquery. }
    destruct (is_empty (Fragment (r_URL r))); [done|].
    change (is_ascii "#" && str_all is_ascii (Fragment (r_URL r)) = true).
    rewrite (all_of Hfrag); [done|by_bytes].
Qed.

Lemma redirect_target_witness :
  (Path (r_URL (request "GET" "idev" "/foo" "x=1" EmptyString)) ≠ "/check"
   ∧ Path (r_URL (request "GET" "idev" "/foo" "x=1" EmptyString)) ≠ "/health"
   ∧ Path (r_URL (request "GET" "idev" "/foo" "x=1" EmptyString)) ≠ "/proxy.pac"
   ∧ is_empty (r_Host (request "GET" "idev" "/foo" "x=1" EmptyString)) = false
   ∧ shortLinkMap (server_with idev_table)
       !! ToLower (strip_port (r_Host (request "GET" "idev" "/foo" "x=1" EmptyString)))
     = Some "http://internal.example.com/app"
   ∧ url_Parse "http://internal.example.com/app"
     = Some {| Scheme := "http"; Opaque := EmptyString; User := None;
               Host := "internal.example.com"; Path := "/app";
               RawPath := EmptyString; OmitHost := false; ForceQuery := false;
               RawQuery := EmptyString; Fragment := EmptyString;
               RawFragment := EmptyString |})
  ∧ ∃ w, (handleRequest (server_with idev_table)
            (request "GET" "idev" "/foo" "x=1" EmptyString)).2 = Wrote w
      ∧ w_Status w = 302
      ∧ w_Header w !! "Location" = Some "http://internal.example.com/app/foo?x=1".
Proof.
  set (r := request "GET" "idev" "/foo" "x=1" EmptyString).
  set (u := {| Scheme := "http"; Opaque := EmptyString; User := None;
               Host := "internal.example.com"; Path := "/app";
               RawPath := EmptyString; OmitHost := false; ForceQuery := false;
               RawQuery := EmptyString; Fragment := EmptyString;
               RawFragment := EmptyString |}).
  assert (Path (r_URL r) ≠ "/check") as H1 by discriminate.
  assert (Path (r_URL r) ≠ "/health") as H2 by discriminate.
  assert (Path (r_URL r) ≠ "/proxy.pac") as H3 by discriminate.
  assert (is_empty (r_Host r) = false) as H4 by reflexivity.
  assert (shortLinkMap (server_with idev_table) !! ToLower (strip_port (r_Host r))
          = Some "http://internal.example.com/app") as H5
    by (vm_compute; reflexivity).
  assert (url_Parse "http://internal.example.com/app" = Some u) as H6
    by (vm_compute; reflexivity).
  split; [done|].
  destruct (redirect_target ToLower (server_with idev_table) r
              "http://internal.example.com/app" u H1 H2 H3 H4 H5 H6)
    as (w & path & E & _ & Hstatus & _ & _ & _ & Hlocation).
  exists w. split; [exact E|]. split; [exact Hstatus|].
  rewrite (Hlocation "http" "internal.example.com" EmptyString "/app");
    [reflexivity|reflexivity..].
Defined.

(** The same request when the target names a port. *)
Example redirect_target_with_port :
  ∃ w, (handleRequest
          (server_with {[ "idev" := "http://internal.example.com:8080/app" ]})
          (request "GET" "idev" "/foo" "x=1" EmptyString)).2 = Wrote w
    ∧ w_Status w = 302
    ∧ w_Header w !! "Location" = Some "http://internal.example.com:8080/app/foo?x=1".
Proof. eexists. split; [by vm_compute|]. by vm_compute. Qed.

(** C3, as stated: a host of the table whose stored target does not parse
    (a record without protocol) is answered with 500, not with a
    redirect. *)
Lemma unparsable_target_is_500 :
  shortLinkMap (server_with {[ "idev" := "://internal.example.com/app" ]}) !! "idev"
    = Some (EmptyString +:+ "://" +:+ "internal.example.com/app")
  ∧ ∃ w, (handleRequest (server_with {[ "idev" := "://internal.example.com/app" ]})
            (request "GET" "idev" "/foo" "x=1" EmptyString)).2 = Wrote w
      ∧ w_Status w = 500
      ∧ w_Header w !! "Location" = None.
Proof.
  split; [by vm_compute|]. eexists. split; [by vm_compute|]. by vm_compute.
Qed.

(** [strings.ReplaceAll] makes one pass over the joined path, so of a run
    of three slashes in the request path two are left in the Location,
    where the source means to "remove duplicate slashes". *)
Lemma triple_slash_keeps_duplicate :
  ∃ w, (handleRequest (server_with idev_table)
          (request "GET" "idev" "/a///b" EmptyString EmptyString)).2 = Wrote w
    ∧ w_Status w = 302
    ∧ w_Header w !! "Location" = Some "http://internal.example.com/app/a//b".
Proof. eexists. split; [by vm_compute|]. by vm_compute. Qed.

(** ** The listener *)

Section ListenerFacts.

Context {conn_t : Type}.
Implicit Types (s : system conn_t) (g : goroutine conn_t) (tr : list (event conn_t)).

Lemma has_fire_app tr evs : has_fire (tr ++ evs) = has_fire tr || has_fire evs.
Proof. apply existsb_app. Qed.

Lemma trace_ok_app tr evs : ∀ fired,
  trace_ok fired (tr ++ evs)
  = trace_ok fired tr && trace_ok (fired || has_fire tr) evs.
Proof.
  induction tr as [|e tr IH]; intros fired.
  - cbn. by rewrite orb_false_r.
  - cbn [app trace_ok has_fire existsb]. rewrite IH.
    by rewrite <- andb_assoc, orb_assoc.
Qed.

Lemma wake_not_parked g : parked (wake g) = false.
Proof.
  unfold wake, parked, accept_parked, submit_parked.
  destruct (g_pc g) eqn:E; cbn; by rewrite ?E.
Qed.

Lemma wake_pc g :
  parked g = false → wake g = g.
Proof. unfold wake, parked, accept_parked, submit_parked. by destruct (g_pc g). Qed.

Lemma wake_in_Close g : in_Close (g_pc (wake g)) = in_Close (g_pc g).
Proof. unfold wake. destruct (g_pc g) eqn:E; cbn; by rewrite ?E. Qed.

(** The events of a wake-up are the closed cases of the selects. *)
Lemma wake_events_quiet (gs : list (goroutine conn_t)) : ∀ k,
  trace_ok true (concat (imap (λ t, wake_event (k + t)) gs)) = true.
Proof.
  induction gs as [|g gs IH]; intros k; [done|].
  cbn [imap concat]. rewrite trace_ok_app. cbn [orb].
  rewrite andb_true_iff. split.
  - unfold wake_event. by destruct (g_pc g).
  - assert (imap ((λ t, wake_event (k + t)) ∘ S) gs
            = imap (λ t, wake_event (S k + t)) gs) as ->
      by (apply imap_ext; intros i x _; cbn; f_equal; lia).
    apply IH.
Qed.

Lemma wake_events_no_fire (gs : list (goroutine conn_t)) : ∀ k,
  has_fire (concat (imap (λ t, wake_event (k + t)) gs)) = false.
Proof.
  induction gs as [|g gs IH]; intros k; [done|].
  cbn [imap concat]. rewrite has_fire_app.
  apply orb_false_intro.
  - unfold wake_event. by destruct (g_pc g).
  - assert (imap ((λ t, wake_event (k + t)) ∘ S) gs
            = imap (λ t, wake_event (S k + t)) gs) as ->
      by (apply imap_ext; intros i x _; cbn; f_equal; lia).
    apply IH.
Qed.

Lemma goroutines_ok_insert closed mu (gs : list (goroutine conn_t)) t g1 :
  (∀ u g, gs !! u = Some g → goroutine_ok closed mu u g) →
  goroutine_ok closed mu t g1 →
  ∀ u g, <[t:=g1]> gs !! u = Some g → goroutine_ok closed mu u g.
Proof.
  intros Hgs Hg1 u g [(-> & -> & _)|(_ & Hu)]%list_lookup_insert_Some; eauto.
Qed.

Lemma goroutines_ok_replace closed mu (gs : list (goroutine conn_t)) t g1 :
  (∀ u g, u ≠ t → gs !! u = Some g → goroutine_ok closed mu u g) →
  goroutine_ok closed mu t g1 →
  ∀ u g, <[t:=g1]> gs !! u = Some g → goroutine_ok closed mu u g.
Proof.
  intros Hgs Hg1 u g [(-> & -> & _)|(Hne & Hu)]%list_lookup_insert_Some; eauto.
Qed.

Lemma goroutine_ok_next_call closed mu t g : goroutine_ok closed mu t (next_call g).
Proof. by repeat split. Qed.

(** A goroutine outside [Close] does not care who holds the mutex. *)
Lemma goroutine_ok_mutex closed mu mu' t g :
  in_Close (g_pc g) = false → goroutine_ok closed mu t g → goroutine_ok closed mu' t g.
Proof.
  intros Hout (H1 & H2 & H3 & H4). repeat split; try done.
  intros Hin. congruence.
Qed.

Lemma snoc_fire closed tr evs :
  closed = has_fire tr → has_fire evs = false → closed = has_fire (tr ++ evs).
Proof. intros Hclosed Hfire. by rewrite has_fire_app, Hfire, orb_false_r. Qed.

Lemma snoc_trace closed tr evs :
  closed = has_fire tr → trace_ok false tr = true → trace_ok closed evs = true →
  trace_ok false (tr ++ evs) = true.
Proof. intros Hclosed Htr Hevs. by rewrite trace_ok_app, Htr, <- Hclosed. Qed.

(** Every step keeps the invariant. *)
Lemma step_ok s t partner s' : system_ok s → step t partner s = Some s' → system_ok s'.
Proof.
  intros Hok Hstep. pose proof Hok as (Hp & Hclosed & Htr & Hgs).
  unfold step in Hstep. rewrite Hp in Hstep.
  destruct (goroutines s !! t) as [g|] eqn:Hg; [|done].
  cbn [mbind option_bind] in Hstep.
  pose proof (Hgs t g Hg) as (Hg1 & Hg2 & Hg3 & Hg4).
  destruct (g_pc g) eqn:Hpc.
  - (* before the first operation of a call *)
    destruct (g_script g) as [|[|c|] rest] eqn:Hsc; [done|..].
    + (* Accept *)
      destruct partner as [u|].
      * destruct (goroutines s !! u) as [gu|] eqn:Hu; [|done].
        cbn [mbind option_bind] in Hstep.
        destruct (g_pc gu) eqn:Hpcu; try done. injection Hstep as <-.
        pose proof (Hgs u gu Hu) as (Hu1 & _).
        assert (l_closed s = false) as Hopen.
        { destruct (l_closed s); [|done]. specialize (Hu1 eq_refl).
          unfold parked, submit_parked in Hu1. rewrite Hpcu in Hu1.
          by rewrite orb_true_r in Hu1. }
        split; [done|]. cbn [l_closed trace goroutines l_closeMu].
        split; [by apply snoc_fire|]. split; [eapply snoc_trace; [done..|by rewrite Hopen]|].
        apply goroutines_ok_insert; [|apply goroutine_ok_next_call].
        apply goroutines_ok_insert; [done|apply goroutine_ok_next_call].
      * destruct (l_closed s) eqn:Hc.
        -- injection Hstep as <-. split; [done|].
           cbn [l_closed trace goroutines l_closeMu].
           split; [by apply snoc_fire|]. split; [by eapply snoc_trace|].
           apply goroutines_ok_insert; [done|apply goroutine_ok_next_call].
        -- destruct (existsb submit_parked (goroutines s)); [done|].
           injection Hstep as <-. split; [done|].
           cbn [l_closed trace goroutines l_closeMu].
           split; [done|]. split; [done|].
           apply goroutines_ok_insert; [done|].
           by repeat split.
    + (* the select of handleConnection *)
      destruct partner as [u|].
      * destruct (goroutines s !! u) as [gu|] eqn:Hu; [|done].
        cbn [mbind option_bind] in Hstep.
        destruct (g_pc gu) eqn:Hpcu; try done. injection Hstep as <-.
        pose proof (Hgs u gu Hu) as (Hu1 & _).
        assert (l_closed s = false) as Hopen.
        { destruct (l_closed s); [|done]. specialize (Hu1 eq_refl).
          unfold parked, accept_parked in Hu1. by rewrite Hpcu in Hu1. }
        split; [done|]. cbn [l_closed trace goroutines l_closeMu].
        split; [by apply snoc_fire|]. split; [eapply snoc_trace; [done..|by rewrite Hopen]|].
        apply goroutines_ok_insert; [|apply goroutine_ok_next_call].
        apply goroutines_ok_insert; [done|apply goroutine_ok_next_call].
      * destruct (l_closed s) eqn:Hc.
        -- injection Hstep as <-. split; [done|].
           cbn [l_closed trace goroutines l_closeMu].
           split; [by apply snoc_fire|]. split; [by eapply snoc_trace|].
           apply goroutines_ok_insert; [done|apply goroutine_ok_next_call].
        -- destruct (existsb accept_parked (goroutines s)); [done|].
           injection Hstep as <-. split; [done|].
           cbn [l_closed trace goroutines l_closeMu].
           split; [done|]. split; [done|].
           apply goroutines_ok_insert; [done|].
           by repeat split.
    + (* Close: Lock *)
      destruct (l_closeMu s) as [holder|] eqn:Hmu; [done|].
      injection Hstep as <-. split; [done|].
      cbn [l_closed trace goroutines l_closeMu].
      split; [done|]. split; [done|].
      apply goroutines_ok_insert.
      * intros u gu Hu. pose proof (Hgs u gu Hu) as Hgu.
        eapply goroutine_ok_mutex; [|exact Hgu].
        destruct Hgu as (_ & Hin & _). destruct (in_Close (g_pc gu)); [|done].
        by specialize (Hin eq_refl).
      * by repeat split.
  - done.
  - done.
  - (* Close: the select *)
    assert (s' = {| l_closed := l_closed s; l_closeMu := l_closeMu s;
                    goroutines :=
                      <[t := at_pc (if l_closed s then CloseUnlock else CloseOpen) g]>
                        (goroutines s);
                    trace := trace s; panicked := false |}) as ->
      by (destruct (g_script g); by injection Hstep as <-).
    split; [done|]. cbn [l_closed trace goroutines l_closeMu].
    split; [done|]. split; [done|].
    apply goroutines_ok_insert; [done|].
    specialize (Hg2 eq_refl).
    destruct (l_closed s) eqn:Hc; repeat split; try done.
  - (* Close: close(l.closed) *)
    specialize (Hg2 eq_refl). specialize (Hg3 eq_refl). rewrite Hg3 in Hstep.
    assert (s' = {| l_closed := true; l_closeMu := l_closeMu s;
                    goroutines := <[t := at_pc CloseUnlock g]> (wake <$> goroutines s);
                    trace := trace s ++ EvFire t
                               :: concat (imap wake_event (goroutines s));
                    panicked := false |}) as ->
      by (destruct (g_script g); by injection Hstep as <-).
    split; [done|]. cbn [l_closed trace goroutines l_closeMu].
    split.
    { rewrite has_fire_app. cbn. by rewrite orb_true_r. }
    split.
    { rewrite trace_ok_app, Htr, <- Hclosed, Hg3.
      cbn [trace_ok needs_fire negb andb orb is_fire].
      apply (wake_events_quiet (goroutines s) 0). }
    apply goroutines_ok_replace.
    + intros u gu' Hne. rewrite list_lookup_fmap.
      destruct (goroutines s !! u) as [gu|] eqn:Hu; [|done].
      intros [= <-]. pose proof (Hgs u gu Hu) as (Hu1 & Hu2 & Hu3 & Hu4).
      split; [intros _; apply wake_not_parked|].
      split; [by rewrite wake_in_Close|].
      split; [|done].
      intros Hopen. exfalso.
      assert (in_Close (g_pc gu) = true) as Hin.
      { rewrite <- wake_in_Close. by rewrite Hopen. }
      specialize (Hu2 Hin). congruence.
    + by repeat split.
  - (* Close: Unlock *)
    specialize (Hg2 eq_refl). specialize (Hg4 eq_refl).
    assert (s' = {| l_closed := l_closed s; l_closeMu := None;
                    goroutines := <[t := next_call g]> (goroutines s);
                    trace := trace s ++ [EvCloseReturn t]; panicked := false |}) as ->
      by (destruct (g_script g); by injection Hstep as <-).
    split; [done|]. cbn [l_closed trace goroutines l_closeMu].
    split; [by apply snoc_fire|]. split; [eapply snoc_trace; [done..|by rewrite Hg4]|].
    apply goroutines_ok_replace; [|apply goroutine_ok_next_call].
    intros u gu Hne Hu. pose proof (Hgs u gu Hu) as Hgu.
    eapply goroutine_ok_mutex; [|exact Hgu].
    destruct Hgu as (_ & Hin & _). destruct (in_Close (g_pc gu)); [|done].
    specialize (Hin eq_refl). congruence.
Qed.

Lemma NewChannelListener_ok scripts : system_ok (@NewChannelListener conn_t scripts).
Proof.
  split; [done|]. split; [done|]. split; [done|].
  intros t g Hg. cbn [goroutines NewChannelListener] in Hg.
  rewrite list_lookup_fmap in Hg.
  destruct (scripts !! t) as [sc|]; [|done]. cbn in Hg.
  injection Hg as <-. by repeat split.
Qed.

Lemma run_ok schedule : ∀ s, system_ok s → system_ok (run schedule s).
Proof.
  induction schedule as [|[t partner] schedule IH]; intros s Hok; [done|].
  cbn [run]. apply IH. destruct (step t partner s) as [s'|] eqn:Hstep; [|done].
  by eapply step_ok.
Qed.






End ListenerFacts.

(** ** More on [PeekConn] *)

(** X1: [c.Peek(n)] for [n] within the buffer: the first [n] bytes still to
    come, however they are segmented, or all of them with the error that
    ends the stream when there are fewer; nothing is consumed and nothing
    is written. *)
Theorem PeekConn_Peek_prefix n c :
  n ≤ defaultBufSize →
  ∃ c', same_socket (pc_conn c) (pc_conn c') ∧ stream c' = stream c ∧
    PeekConn_Peek n c =
      if decide (n ≤ length (stream c)) then (take n (stream c), None, c')
      else (stream c, Some (rx_end (pc_conn c)), c').
Proof.
  intros Hn. unfold PeekConn_Peek.
  destruct (Peek_loop_spec n n c) as (err & c' & -> & Hs & Hst & H); [lia|].
  assert ((defaultBufSize <? n) = false) as -> by (apply Nat.ltb_ge; lia).
  exists c'. split; [done|]. split; [done|].
  destruct H as [(-> & Hlen)|(-> & Hall & Hlen)].
  - assert (n ≤ length (pc_buffered c')) as Hbuf by lia.
    destruct (length (pc_buffered c') <? n) eqn:Hlt;
      [apply Nat.ltb_lt in Hlt; lia|].
    assert (n ≤ length (stream c)) as Hstream.
    { rewrite <- Hst. unfold stream. rewrite length_app. lia. }
    rewrite decide_True by done. rewrite <- Hst. unfold stream.
    by rewrite take_app_le.
  - destruct (length (pc_buffered c') <? n) eqn:Hlt;
      [|apply Nat.ltb_ge in Hlt; lia].
    rewrite decide_False by (rewrite Hall; lia). by rewrite Hall.
Qed.

Lemma PeekConn_Peek_prefix_witness :
  3 ≤ defaultBufSize
  ∧ (PeekConn_Peek 3 (NewPeekConn http_client)).1 = ([x47; x45; x54], None)
  ∧ stream (PeekConn_Peek 3 (NewPeekConn http_client)).2 = [x47; x45; x54; x20; x2f].
Proof.
  assert (3 ≤ defaultBufSize) as H by (unfold defaultBufSize; lia).
  split; [exact H|].
  destruct (PeekConn_Peek_prefix 3 (NewPeekConn http_client) H)
    as (c' & _ & Hst & E).
  rewrite E. split; [reflexivity|]. exact Hst.
Defined.

(** X2: A [Read] of up to [n] bytes after a [Peek(n)] that succeeded returns
    the bytes that were peeked, without an error, and consumes just them. *)
Theorem Peek_then_Read n m c head c' :
  PeekConn_Peek n c = (head, None, c') →
  0 < m → m ≤ n →
  ∃ c'', PeekConn_Read m c' = (take m head, None, c'')
    ∧ stream c'' = drop m (stream c)
    ∧ same_socket (pc_conn c) (pc_conn c'').
Proof.
  intros Hpeek Hm Hmn.
  destruct (PeekConn_Peek_stream n c) as (head0 & err0 & c0 & E & Hs & Hst).
  rewrite Hpeek in E. injection E as <- <- <-.
  unfold PeekConn_Peek in Hpeek.
  destruct (Peek_loop n n c) as [err c1].
  destruct (defaultBufSize <? n); [done|].
  destruct (length (pc_buffered c1) <? n) eqn:Hlt; [done|].
  injection Hpeek as <- <-. apply Nat.ltb_ge in Hlt.
  unfold PeekConn_Read. destruct m as [|m]; [lia|].
  destruct (pc_buffered c1) as [|b buffered] eqn:Hbuf; [simpl in Hlt; lia|].
  eexists. split; [by rewrite take_take, Nat.min_l by lia|].
  split; [|done]. rewrite <- Hst. unfold stream. cbn [pc_buffered pc_conn].
  rewrite Hbuf. rewrite drop_app_le by lia. done.
Qed.

Lemma Peek_then_Read_witness :
  (PeekConn_Peek 3 (NewPeekConn http_client)
     = ([x47; x45; x54], None, (PeekConn_Peek 3 (NewPeekConn http_client)).2)
   ∧ 0 < 2 ∧ 2 ≤ 3)
  ∧ (PeekConn_Read 2 (PeekConn_Peek 3 (NewPeekConn http_client)).2).1
    = ([x47; x45], None).
Proof.
  assert (PeekConn_Peek 3 (NewPeekConn http_client)
          = ([x47; x45; x54], None, (PeekConn_Peek 3 (NewPeekConn http_client)).2))
    as H1 by reflexivity.
  assert (0 < 2) as H2 by lia. assert (2 ≤ 3) as H3 by lia.
  split; [done|].
  destruct (Peek_then_Read 3 2 _ _ _ H1 H2 H3) as (c'' & E & _).
  rewrite E. reflexivity.
Defined.

(** X3: [c.Read(p)] with a buffer of [n] bytes: on a stream that has ended it
    returns no byte and the error that ended it; otherwise it returns at
    least one byte and at most [n], without an error, and these are the
    next bytes of the stream, the rest of which is left to come.  It never
    writes. *)
Theorem PeekConn_Read_next n c :
  0 < n →
  ∃ data err c', PeekConn_Read n c = (data, err, c')
    ∧ tx (pc_conn c') = tx (pc_conn c)
    ∧ stream c = data ++ stream c'
    ∧ length data ≤ n
    ∧ match stream c with
      | [] => data = [] ∧ err = Some (rx_end (pc_conn c))
      | _ :: _ => data ≠ [] ∧ err = None
      end.
Proof.
  intros Hn.
  destruct (PeekConn_Read_spec n c Hn) as (data & err & c' & E & Hs & H).
  exists data, err, c'. split; [done|]. split; [by destruct Hs|].
  destruct H as [(-> & Hne & Hlen & Hst)|(-> & -> & Hst & Hst')].
  - split; [done|]. split; [done|]. rewrite Hst.
    destruct data; [done|]. done.
  - rewrite Hst, Hst'. split; [done|]. split; [simpl; lia|]. done.
Qed.

Lemma PeekConn_Read_next_witness :
  0 < 4 ∧ (PeekConn_Read 4 (NewPeekConn http_client)).1 = ([x47; x45], None).
Proof.
  split; [lia|].
  destruct (PeekConn_Read_next 4 (NewPeekConn http_client)) as (d & e & c' & E & _);
    [lia|].
  reflexivity.
Defined.
(** ** The handshake on every connection *)

Lemma reads_only_refl w : reads_only w w.
Proof. repeat split. by exists []. Qed.

Lemma reads_only_trans w1 w2 w3 :
  reads_only w1 w2 → reads_only w2 w3 → reads_only w1 w3.
Proof.
  intros (Hs & Hb & He & used & Hp) (Hs' & Hb' & He' & used' & Hp').
  split; [congruence|]. split; [congruence|]. split; [congruence|].
  exists (used ++ used'). by rewrite Hp, Hp', app_assoc.
Qed.

Lemma wp_ReadFull_slice_reads buf n (Q : outcome (list byte) → world → Prop) w :
  n ≤ length buf →
  (∀ r w', r ≠ Panic → reads_only w w' →
           (∀ buf', r = Done buf' → length buf' = length buf) → Q r w') →
  wp (ReadFull_slice buf n) Q w.
Proof.
  intros Hfit HQ. apply wp_ReadFull_slice; [done|].
  intros w' Hs Hb He _. split.
  - intros Hlen Hp. apply HQ; [done| |].
    + do 3 (split; [done|]). exists (take n (v_pending (view_of w))).
      by rewrite Hp, take_drop.
    + intros buf' [= <-]. rewrite length_app, length_take, length_drop.
      change (n ≤ length (stream (w_conn w))) in Hlen. cbn [view_of v_pending]. lia.
  - intros Hlen Hp. apply HQ; [done| |done].
    do 3 (split; [done|]). exists (v_pending (view_of w)).
    by rewrite Hp, app_nil_r.
Qed.

Lemma clientGreeting_reads_only buf w :
  length buf = 258 →
  wp (clientGreeting buf) (λ r w',
    r ≠ Panic ∧ reads_only w w' ∧ ∀ buf', r = Done buf' → length buf' = 258) w.
Proof.
  intros Hbuf. unfold clientGreeting.
  apply wp_bind, wp_wrap, wp_ReadFull_slice_reads; [lia|].
  intros r w1 Hnp H1 Hdone; destruct r as [buf1|e|]; cbn beta iota; [|done|done].
  pose proof (Hdone _ eq_refl) as Hbuf1.
  apply wp_bind, wp_index_lt; [lia|]. intros b0 _.
  destruct (negb (Byte.eqb b0 x05)); [by apply wp_raise|].
  apply wp_bind, wp_index_lt; [lia|]. intros b1 _.
  pose proof (Byte.to_nat_bounded b1) as Hb1.
  apply wp_wrap, wp_ReadFull_slice_reads; [lia|].
  intros r w2 Hnp2 H2 Hdone2.
  assert (reads_only w w2) as H12 by (by eapply reads_only_trans).
  destruct r as [buf2|e|]; cbn beta iota; [|done|done].
  split; [done|]. split; [done|]. intros ? [= <-]. rewrite (Hdone2 _ eq_refl). lia.
Qed.

Lemma clientRequest_reads_only buf w :
  length buf = 258 →
  wp (clientRequest buf) (λ r w', r ≠ Panic ∧ reads_only w w') w.
Proof.
  intros Hbuf. unfold clientRequest.
  apply wp_bind, wp_wrap, wp_ReadFull_slice_reads; [lia|].
  intros r w1 Hnp H1 Hdone; destruct r as [buf1|e|]; cbn beta iota; [|done|done].
  pose proof (Hdone _ eq_refl) as Hbuf1.
  apply wp_bind, wp_index_lt; [lia|]. intros cmd _.
  destruct (negb (Byte.eqb cmd x01)); [by apply wp_raise|].
  apply wp_bind, wp_index_lt; [lia|]. intros atyp _.
  eapply wp_mono with (Q := λ r w', r ≠ Panic ∧ reads_only w1 w').
  2:{ intros r w' [? ?]. split; [done|]. by eapply reads_only_trans. }
  apply wp_bind.
  assert (∀ n buf2 w2, n ≤ 255 → length buf2 = 258 →
            wp (ReadFull_slice buf2 n) (λ r w3,
              match r with
              | Done buf3 =>
                  wp (ReadFull_slice buf3 2) (λ r w', r ≠ Panic ∧ reads_only w2 w') w3
              | Raise e => @Raise (list byte) e ≠ Panic ∧ reads_only w2 w3
              | Panic => @Panic (list byte) ≠ Panic ∧ reads_only w2 w3
              end) w2) as Haddr.
  { intros n buf2 w2 Hn Hbuf2. apply wp_ReadFull_slice_reads; [lia|].
    intros r w3 Hnp3 H3 Hdone3; destruct r as [buf3|e|]; cbn beta iota; [|done|done].
    apply wp_ReadFull_slice_reads; [rewrite (Hdone3 _ eq_refl); lia|].
    intros r w4 Hnp4 H4 _. split; [done|]. by eapply reads_only_trans. }
  destruct (decide (atyp = x01)) as [->|Ha1];
    [|destruct (decide (atyp = x03)) as [->|Ha3];
      [|destruct (decide (atyp = x04)) as [->|Ha4]]].
  - apply Haddr; [lia|congruence].
  - apply wp_bind, wp_ReadFull_slice_reads; [lia|].
    intros r w2 Hnp2 H2 Hdone2; destruct r as [buf2|e|]; cbn beta iota; [|done|done].
    pose proof (Hdone2 _ eq_refl) as Hbuf2.
    apply wp_bind, wp_index_lt; [lia|]. intros b0 _.
    pose proof (Byte.to_nat_bounded b0) as Hb0.
    eapply wp_mono; [apply (Haddr (Byte.to_nat b0) buf2 w2); [lia|congruence]|].
    intros [buf3|e|] w3; cbn beta iota.
    + intros H. eapply wp_mono; [exact H|]. intros r w' [? ?].
      split; [done|]. by eapply reads_only_trans.
    + intros [? ?]. split; [done|]. by eapply reads_only_trans.
    + intros [? ?]. done.
  - apply Haddr; [lia|congruence].
  - rewrite switch_atyp_default by done. apply wp_raise.
    split; [done|]. apply reads_only_refl.
Qed.

(** A write is accepted whole, or refused without effect when the socket
    accepts no more. *)
Lemma wp_Write_all_view p (Q : outcome unit → world → Prop) w :
  (∀ w', v_pending (view_of w') = v_pending (view_of w) →
         v_end (view_of w') = v_end (view_of w) →
         v_slices (view_of w') = v_slices (view_of w) →
     (v_budget (view_of w) ≠ Some 0 →
      v_sent (view_of w') = v_sent (view_of w) ++ [p] →
      v_budget (view_of w') = pred <$> v_budget (view_of w) →
      Q (Done tt) w')
     ∧ (v_budget (view_of w) = Some 0 →
        v_sent (view_of w') = v_sent (view_of w) →
        v_budget (view_of w') = Some 0 →
        Q (Raise (ErrNet "broken pipe")) w')) →
  wp (Write_all p) Q w.
Proof.
  intros HQ. unfold wp, Write_all.
  destruct (PeekConn_Write_spec p (w_conn w)) as (n & err & c' & E & Hst & Hend & H).
  rewrite E.
  specialize (HQ {| w_conn := c'; w_slices := w_slices w |} Hst Hend eq_refl).
  destruct HQ as [Hok Hfail]. unfold view_of in Hok, Hfail.
  cbn [v_budget v_sent w_conn] in Hok, Hfail.
  destruct (tx_budget (pc_conn (w_conn w))) as [[|k]|] eqn:Hb.
  - destruct H as [-> ->]. cbn [fst snd]. apply Hfail; [done|done|].
    by rewrite Hb.
  - destruct H as (-> & Htx & Hb'). cbn [fst snd]. apply Hok; [done|done|].
    by rewrite Hb'.
  - destruct H as (-> & Htx & Hb'). cbn [fst snd]. apply Hok; [done|done|].
    by rewrite Hb'.
Qed.

(** What the handshake can have done to a connection when it returns. *)
Lemma handleSocks5Handshake_effects w :
  wp handleSocks5Handshake (λ r w',
    v_end (view_of w') = v_end (view_of w)
    ∧ (∃ used, v_pending (view_of w) = used ++ v_pending (view_of w'))
    ∧ match r with
      | Done _ =>
          v_sent (view_of w') = v_sent (view_of w) ++ [[x05; x00]; response]
          ∧ v_budget (view_of w') = (λ k, k - 2) <$> v_budget (view_of w)
          ∧ v_budget (view_of w) ≠ Some 0 ∧ v_budget (view_of w) ≠ Some 1
      | Raise e =>
          v_sent (view_of w') = v_sent (view_of w)
          ∨ v_sent (view_of w') = v_sent (view_of w) ++ [[x05; x00]]
      | Panic => False
      end) w.
Proof.
  unfold handleSocks5Handshake. apply wp_bind.
  eapply wp_mono; [apply clientGreeting_reads_only; by rewrite length_replicate|].
  intros [buf1|e|] w1 (Hnp1 & (Hs1 & Hb1 & He1 & Hu1) & Hlen1); cbn beta iota;
    [|by auto|done].
  specialize (Hlen1 _ eq_refl).
  apply wp_bind. unfold serverChoice. apply wp_wrap, wp_Write_all_view.
  intros w2 Hp2 He2 _. split.
  2:{ intros _ Hs2 _. split; [congruence|]. split; [by rewrite Hp2|].
      left. congruence. }
  intros Hb Hs2 Hb2. apply wp_bind.
  eapply wp_mono; [apply clientRequest_reads_only; done|].
  intros [buf3|e|] w3 (Hnp3 & (Hs3 & Hb3 & He3 & used3 & Hu3)); cbn beta iota; [| |done].
  2:{ split; [congruence|]. split.
      - destruct Hu1 as [used1 Hu1]. exists (used1 ++ used3).
        by rewrite Hu1, <- Hp2, Hu3, app_assoc.
      - right. congruence. }
  unfold serverReply. apply wp_wrap, wp_Write_all_view.
  intros w4 Hp4 He4 _.
  assert (∃ used, v_pending (view_of w) = used ++ v_pending (view_of w4)) as Hused.
  { destruct Hu1 as [used1 Hu1]. exists (used1 ++ used3).
    by rewrite Hu1, <- Hp2, Hu3, app_assoc, Hp4. }
  split.
  - intros Hb' Hs4 Hb4. split; [congruence|]. split; [done|].
    split; [rewrite Hs4, Hs3, Hs2, Hs1; by rewrite <- app_assoc|].
    rewrite Hb4, Hb3, Hb2, Hb1. rewrite Hb3, Hb2, Hb1 in Hb'.
    destruct (v_budget (view_of w)) as [[|[|k]]|]; try done.
    split; [cbn; f_equal; lia|done].
  - intros Hb' Hs4 Hb4. split; [congruence|]. split; [done|].
    right. congruence.
Qed.

(** X4: On every connection, whatever it delivers and whenever it fails: the
    handshake does not panic; it takes bytes from the front of the stream
    and leaves the rest in place; when it returns nil it has written the
    method selection and the reply, in this order and nothing else; when it
    returns an error it has written nothing or the method selection
    only. *)
Theorem handshake_writes_in_order (w : world) :
  ∃ r w', handleSocks5Handshake w = (r, w')
    ∧ r ≠ Panic
    ∧ (∃ used, stream (w_conn w) = used ++ stream (w_conn w'))
    ∧ (r = Done tt →
       tx (pc_conn (w_conn w'))
       = tx (pc_conn (w_conn w))
         ++ [[x05; x00]; [x05; x00; x00; x01; x00; x00; x00; x00; x00; x00]])
    ∧ (∀ e, r = Raise e →
       tx (pc_conn (w_conn w')) = tx (pc_conn (w_conn w))
       ∨ tx (pc_conn (w_conn w')) = tx (pc_conn (w_conn w)) ++ [[x05; x00]]).
Proof.
  pose proof (handleSocks5Handshake_effects w) as H. unfold wp in H.
  destruct (handleSocks5Handshake w) as [r w'] eqn:E. cbn [fst snd] in H.
  exists r, w'. split; [done|]. destruct H as (_ & Hused & H).
  split; [by destruct r|]. split; [exact Hused|]. split.
  - intros ->. by destruct H.
  - intros e ->. exact H.
Qed.
(** X5: A first byte other than 5 is refused after the two bytes of the
    greeting header were read: the error names the version, nothing is
    written, and no further byte is taken. *)
Theorem unsupported_version_rejected (w : world) gver nb rest :
  stream (w_conn w) = gver :: nb :: rest →
  gver ≠ x05 →
  ∃ w', handleSocks5Handshake w
        = (Raise (Errorf "unsupported version: %d" (Byte.to_nat gver)), w')
    ∧ tx (pc_conn (w_conn w')) = tx (pc_conn (w_conn w))
    ∧ stream (w_conn w') = rest
    ∧ w_slices w' = w_slices w ++ [2].
Proof.
  intros Hp Hg.
  enough (wp handleSocks5Handshake (λ r w',
            r = Raise (Errorf "unsupported version: %d" (Byte.to_nat gver))
            ∧ view_of w' =
                {| v_pending := rest; v_sent := v_sent (view_of w);
                   v_budget := v_budget (view_of w); v_end := v_end (view_of w);
                   v_slices := v_slices (view_of w) ++ [2] |}) w) as H.
  { unfold wp in H. destruct (handleSocks5Handshake w) as [r w'].
    cbn [fst snd] in H. destruct H as [-> Hv]. exists w'. split; [done|].
    apply (f_equal v_sent) in Hv as Hsent.
    apply (f_equal v_pending) in Hv as Hpend.
    apply (f_equal v_slices) in Hv as Hsl. done. }
  unfold handleSocks5Handshake, clientGreeting.
  apply wp_bind, wp_bind, wp_wrap.
  apply (wp_ReadFull_slice_ok _ [gver; nb] rest);
    [rewrite length_replicate; simpl; lia|done|].
  intros w1 Hv1. apply wp_bind. eapply wp_index; [reflexivity|].
  rewrite (Byte_eqb_neq _ _ Hg). cbn [negb]. apply wp_raise. done.
Qed.

Lemma unsupported_version_rejected_witness :
  (stream (NewPeekConn socks4_client) = x04 :: x01 :: [x00] ∧ x04 ≠ x05)
  ∧ (handleSocks5Handshake {| w_conn := NewPeekConn socks4_client; w_slices := [] |}).1
    = Raise (Errorf "unsupported version: %d" 4).
Proof.
  assert (stream (w_conn {| w_conn := NewPeekConn socks4_client; w_slices := [] |})
          = x04 :: x01 :: [x00]) as H1 by reflexivity.
  assert (x04 ≠ x05) as H2 by discriminate.
  split; [done|].
  destruct (unsupported_version_rejected _ x04 x01 [x00] H1 H2) as (w' & -> & _).
  reflexivity.
Defined.

(** X6: A stream that ends inside the greeting.  With fewer than two bytes the
    error is "read greeting header", with fewer methods than announced it
    is "read methods"; the cause is the error that ended the stream when no
    byte of the slice had arrived, and io.ErrUnexpectedEOF in place of
    io.EOF when some had.  Nothing is written. *)
Theorem greeting_cut_short (w : world) :
  match stream (w_conn w) with
  | [] | [_] => True
  | gver :: nb :: methods => gver = x05 ∧ length methods < Byte.to_nat nb
  end →
  ∃ w', handleSocks5Handshake w
        = (Raise match stream (w_conn w) with
                 | _ :: _ :: methods =>
                     Errorw "read methods: %w"
                       (short_read methods (rx_end (pc_conn (w_conn w))))
                 | header =>
                     Errorw "read greeting header: %w"
                       (short_read header (rx_end (pc_conn (w_conn w))))
                 end, w')
    ∧ tx (pc_conn (w_conn w')) = tx (pc_conn (w_conn w))
    ∧ stream (w_conn w') = [].
Proof.
  intros Hshape.
  enough (wp handleSocks5Handshake (λ r w',
            r = Raise match stream (w_conn w) with
                      | _ :: _ :: methods =>
                          Errorw "read methods: %w"
                            (short_read methods (rx_end (pc_conn (w_conn w))))
                      | header =>
                          Errorw "read greeting header: %w"
                            (short_read header (rx_end (pc_conn (w_conn w))))
                      end
            ∧ v_sent (view_of w') = v_sent (view_of w)
            ∧ v_pending (view_of w') = []) w) as H.
  { unfold wp in H. destruct (handleSocks5Handshake w) as [r w'].
    cbn [fst snd] in H. destruct H as (-> & Hs & Hp). by exists w'. }
  unfold handleSocks5Handshake, clientGreeting.
  apply wp_bind, wp_bind, wp_wrap.
  destruct (stream (w_conn w)) as [|gver [|nb methods]] eqn:Hp.
  - apply wp_ReadFull_slice_short;
      [rewrite length_replicate; lia|cbn; rewrite Hp; simpl; lia|].
    intros w1 Hv1. rewrite Hv1. cbn [view_of v_pending v_end v_sent]. by rewrite Hp.
  - apply wp_ReadFull_slice_short;
      [rewrite length_replicate; lia|cbn; rewrite Hp; simpl; lia|].
    intros w1 Hv1. rewrite Hv1. cbn [view_of v_pending v_end v_sent]. by rewrite Hp.
  - destruct Hshape as [-> Hlen].
    apply (wp_ReadFull_slice_ok _ [x05; nb] methods);
      [rewrite length_replicate; simpl; lia|done|].
    intros w1 Hv1. apply wp_bind. eapply wp_index; [reflexivity|].
    change (negb (Byte.eqb x05 x05)) with false. cbn iota.
    apply wp_bind. eapply wp_index; [reflexivity|].
    pose proof (Byte.to_nat_bounded nb) as Hnb.
    apply wp_wrap, wp_ReadFull_slice_short.
    + rewrite length_app, length_drop, length_replicate. simpl. lia.
    + by rewrite Hv1.
    + intros w2 Hv2. rewrite Hv2, Hv1. cbn [view_of v_pending v_end v_sent]. done.
Qed.

Lemma greeting_cut_short_witness :
  (handleSocks5Handshake
     {| w_conn := NewPeekConn {| rx := [[x05]]; rx_end := EOF; tx := [];
                                 tx_budget := None |};
        w_slices := [] |}).1
  = Raise (Errorw "read greeting header: %w" ErrUnexpectedEOF).
Proof.
  destruct (greeting_cut_short
              {| w_conn := NewPeekConn {| rx := [[x05]]; rx_end := EOF; tx := [];
                                          tx_budget := None |};
                 w_slices := [] |} I) as (w' & E & _).
  rewrite E. reflexivity.
Defined.
(** X7: A socket that refuses a write.  When it refuses the first, the
    handshake fails with "write choice" after the greeting, with nothing
    written and the request left unread; when it accepts one write and
    refuses the second, the handshake fails with "write reply" after the
    whole request was read, with the method selection written. *)
Theorem refused_write_ends_handshake (w : world) methods a port_hi port_lo rest k :
  length methods ≤ 255 →
  address_ok a →
  stream (w_conn w) = greeting methods ++ connect_request a port_hi port_lo ++ rest →
  tx_budget (pc_conn (w_conn w)) = Some k →
  k < 2 →
  ∃ w', handleSocks5Handshake w
        = (Raise (Errorw (if k =? 0 then "write choice: %w" else "write reply: %w")
                    (ErrNet "broken pipe")), w')
    ∧ tx (pc_conn (w_conn w'))
      = tx (pc_conn (w_conn w)) ++ (if k =? 0 then [] else [[x05; x00]])
    ∧ stream (w_conn w')
      = if k =? 0 then connect_request a port_hi port_lo ++ rest else rest.
Proof.
  intros Hm Ha Hp Hb Hk.
  pose proof (address_slices a port_hi port_lo rest Ha) as Haddr.
  destruct (encode_address a ++ [port_hi; port_lo] ++ rest)
    as [|atyp body] eqn:Hbody; [done|].
  destruct Haddr as (sizes & Hsizes & Hlen & Hrest).
  assert (connect_request a port_hi port_lo ++ rest
          = x05 :: x01 :: x00 :: atyp :: body) as Hreq.
  { unfold connect_request. by rewrite <- !app_assoc, Hbody. }
  rewrite Hreq in *.
  enough (wp handleSocks5Handshake (λ r w',
            r = Raise (Errorw (if k =? 0 then "write choice: %w"
                               else "write reply: %w") (ErrNet "broken pipe"))
            ∧ v_sent (view_of w')
              = v_sent (view_of w) ++ (if k =? 0 then [] else [[x05; x00]])
            ∧ v_pending (view_of w')
              = if k =? 0 then x05 :: x01 :: x00 :: atyp :: body else rest) w) as H.
  { unfold wp in H. destruct (handleSocks5Handshake w) as [r w'].
    cbn [fst snd] in H. destruct H as (-> & Hs & Hp'). by exists w'. }
  unfold handleSocks5Handshake. apply wp_bind.
  eapply wp_mono;
    [apply (clientGreeting_spec _ w x05 (len_byte (length methods)) methods
              (x05 :: x01 :: x00 :: atyp :: body));
     [by rewrite length_replicate|exact Hp|by apply len_byte_to_nat]|].
  intros r w1. cbn beta. rewrite decide_True by done.
  intros [(buf1 & -> & Hbuf1) Hv1]. cbn iota.
  apply wp_bind. unfold serverChoice. apply wp_wrap, wp_Write_all_view.
  intros w2 Hp2 He2 Hsl2. rewrite Hv1 in *. view_simpl.
  change (v_budget (view_of w)) with (tx_budget (pc_conn (w_conn w))).
  rewrite Hb. split.
  - intros Hk0 Hs2 Hb2. destruct k as [|[|k]]; [done| |lia]. cbn [Nat.eqb].
    cbn [fmap option_fmap option_map pred] in Hb2.
    apply wp_bind.
    eapply wp_mono;
      [apply (clientRequest_spec buf1 w2 x05 x01 x00 atyp body); [lia|done]|].
    intros r w3. cbn beta.
    rewrite decide_True by done. rewrite Hsizes. rewrite decide_True by done.
    intros (Hs3 & Hb3 & He3 & _ & (buf3 & -> & _) & _ & Hp3). cbn iota.
    unfold serverReply. apply wp_wrap, wp_Write_all_view.
    intros w4 Hp4 He4 Hsl4. rewrite Hb3, Hb2. split; [done|].
    intros _ Hs4 _. split; [reflexivity|]. rewrite Hs4, Hs3, Hs2, Hp4, Hp3, Hrest. split; reflexivity.
  - intros [= ->] Hs2 Hb2. cbn [Nat.eqb]. split; [done|].
    rewrite Hs2, Hp2, app_nil_r. done.
Qed.

Lemma refused_write_ends_handshake_witness :
  (length [x00] ≤ 255
   ∧ address_ok (AddrIPv4 [x7f; x00; x00; x01])
   ∧ 1 < 2)
  ∧ (handleSocks5Handshake
       {| w_conn := NewPeekConn
            {| rx := [greeting [x00];
                      connect_request (AddrIPv4 [x7f; x00; x00; x01]) x1f x90;
                      [x47]];
               rx_end := EOF; tx := []; tx_budget := Some 1 |};
          w_slices := [] |}).1
    = Raise (Errorw "write reply: %w" (ErrNet "broken pipe")).
Proof.
  assert (length [x00] ≤ 255) as H1 by (simpl; lia).
  assert (address_ok (AddrIPv4 [x7f; x00; x00; x01])) as H2 by reflexivity.
  assert (1 < 2) as H5 by lia.
  split; [done|].
  destruct (refused_write_ends_handshake
              {| w_conn := NewPeekConn
                   {| rx := [greeting [x00];
                             connect_request (AddrIPv4 [x7f; x00; x00; x01]) x1f x90;
                             [x47]];
                      rx_end := EOF; tx := []; tx_budget := Some 1 |};
                 w_slices := [] |}
              [x00] (AddrIPv4 [x7f; x00; x00; x01]) x1f x90 [x47] 1
              H1 H2 eq_refl eq_refl H5) as (w' & E & _).
  rewrite E. reflexivity.
Defined.
(** ** Segments and buffering do not matter *)

Lemma observes_ret {A} (a : A) : observes_view (mret a).
Proof. by intros w1 w2 Hv. Qed.

Lemma observes_raise {A} e : observes_view (@raise A e).
Proof. by intros w1 w2 Hv. Qed.

Lemma observes_bind {A B} (m : io A) (k : A → io B) :
  observes_view m → (∀ a, observes_view (k a)) → observes_view (m ≫= k).
Proof.
  intros Hm Hk w1 w2 Hv. destruct (Hm w1 w2 Hv) as [Hr Hv'].
  unfold mbind, io_bind.
  destruct (m w1) as [r1 w1'], (m w2) as [r2 w2']. cbn [fst snd] in *. subst r2.
  destruct r1 as [a|e|]; [by apply Hk|done|done].
Qed.

Lemma observes_wrap {A} format (m : io A) :
  observes_view m → observes_view (wrap format m).
Proof.
  intros Hm w1 w2 Hv. destruct (Hm w1 w2 Hv) as [Hr Hv']. unfold wrap.
  destruct (m w1) as [r1 w1'], (m w2) as [r2 w2']. cbn [fst snd] in *. subst r2.
  by destruct r1.
Qed.

Lemma observes_index buf i : observes_view (index buf i).
Proof. intros w1 w2 Hv. unfold index. by destruct (buf !! i). Qed.

Lemma observes_ReadFull_slice buf n : observes_view (ReadFull_slice buf n).
Proof.
  intros w1 w2 Hv.
  destruct (decide (n ≤ length buf)) as [Hfit|Hfit].
  2:{ unfold ReadFull_slice.
      destruct (n <=? length buf) eqn:E; [apply Nat.leb_le in E; lia|done]. }
  assert (∀ w V, view_of w = V →
            wp (ReadFull_slice buf n) (λ r w',
              (r, view_of w') =
                if decide (n ≤ length (v_pending V)) then
                  (Done (take n (v_pending V) ++ drop n buf),
                   {| v_pending := drop n (v_pending V); v_sent := v_sent V;
                      v_budget := v_budget V; v_end := v_end V;
                      v_slices := v_slices V ++ [n] |})
                else
                  (Raise (short_read (v_pending V) (v_end V)),
                   {| v_pending := []; v_sent := v_sent V;
                      v_budget := v_budget V; v_end := v_end V;
                      v_slices := v_slices V ++ [n] |})) w) as Hone.
  { intros w V HV. eapply wp_ReadFull_slice_view; [done|exact HV|..].
    - intros Hlen w' ->. by rewrite decide_True.
    - intros Hlen w' ->. by rewrite decide_False by lia. }
  pose proof (Hone w1 _ eq_refl) as H1. pose proof (Hone w2 _ (eq_sym Hv)) as H2.
  unfold wp in H1, H2. rewrite <- H2 in H1. split; [exact (f_equal fst H1)|exact (f_equal snd H1)].
Qed.

Lemma observes_Write_all p : observes_view (Write_all p).
Proof.
  intros w1 w2 Hv.
  assert (∀ w V, view_of w = V →
            wp (Write_all p) (λ r w',
              (r, view_of w') =
                match v_budget V with
                | Some 0 => (Raise (ErrNet "broken pipe"), V)
                | b =>
                    (Done tt,
                     {| v_pending := v_pending V; v_sent := v_sent V ++ [p];
                        v_budget := pred <$> b; v_end := v_end V;
                        v_slices := v_slices V |})
                end) w) as Hone.
  { intros w V <-. apply wp_Write_all_view. intros w' Hp He Hsl. split.
    - intros Hb Hs Hb'.
      destruct (view_of w') as [p' s' b' e' sl'] eqn:E. cbn in Hp, He, Hsl, Hs, Hb'.
      subst. cbn [view_of v_pending v_sent v_budget v_end v_slices] in *.
      by destruct (tx_budget (pc_conn (w_conn w))) as [[|k]|].
    - intros Hb Hs Hb'. rewrite Hb.
      destruct (view_of w') as [p' s' b' e' sl'] eqn:E. cbn in Hp, He, Hsl, Hs, Hb'.
      subst. unfold view_of in *. cbn [v_budget] in Hb. by rewrite Hb. }
  pose proof (Hone w1 _ eq_refl) as H1. pose proof (Hone w2 _ (eq_sym Hv)) as H2.
  unfold wp in H1, H2. rewrite <- H2 in H1. split; [exact (f_equal fst H1)|exact (f_equal snd H1)].
Qed.

Lemma observes_clientGreeting buf : observes_view (clientGreeting buf).
Proof.
  unfold clientGreeting.
  apply observes_bind; [apply observes_wrap, observes_ReadFull_slice|]. intros buf1.
  apply observes_bind; [apply observes_index|]. intros b0.
  destruct (negb (Byte.eqb b0 x05)); [apply observes_raise|].
  apply observes_bind; [apply observes_index|]. intros b1.
  apply observes_wrap, observes_ReadFull_slice.
Qed.

Lemma observes_clientRequest buf : observes_view (clientRequest buf).
Proof.
  unfold clientRequest.
  apply observes_bind; [apply observes_wrap, observes_ReadFull_slice|]. intros buf1.
  apply observes_bind; [apply observes_index|]. intros cmd.
  destruct (negb (Byte.eqb cmd x01)); [apply observes_raise|].
  apply observes_bind; [apply observes_index|]. intros atyp.
  apply observes_bind; [|intros; apply observes_ReadFull_slice].
  destruct (decide (atyp = x01)) as [->|Ha1];
    [|destruct (decide (atyp = x03)) as [->|Ha3];
      [|destruct (decide (atyp = x04)) as [->|Ha4]]].
  - apply observes_ReadFull_slice.
  - apply observes_bind; [apply observes_ReadFull_slice|]. intros buf2.
    apply observes_bind; [apply observes_index|]. intros b0.
    apply observes_ReadFull_slice.
  - apply observes_ReadFull_slice.
  - rewrite switch_atyp_default by done. apply observes_raise.
Qed.

Lemma observes_handleSocks5Handshake : observes_view handleSocks5Handshake.
Proof.
  unfold handleSocks5Handshake.
  apply observes_bind; [apply observes_clientGreeting|]. intros buf1.
  apply observes_bind; [apply observes_wrap, observes_Write_all|]. intros _.
  apply observes_bind; [apply observes_clientRequest|]. intros buf3.
  apply observes_wrap, observes_Write_all.
Qed.

(** X8: Two connections that will deliver the same bytes, cut into segments
    in different ways and buffered to different degrees, and whose sockets
    behave alike otherwise, get the same result from the handshake; the
    same bytes are written, the same bytes are left to come and the same
    slices were asked for. *)
Theorem handshake_ignores_segmentation (w1 w2 : world) :
  stream (w_conn w1) = stream (w_conn w2) →
  tx (pc_conn (w_conn w1)) = tx (pc_conn (w_conn w2)) →
  tx_budget (pc_conn (w_conn w1)) = tx_budget (pc_conn (w_conn w2)) →
  rx_end (pc_conn (w_conn w1)) = rx_end (pc_conn (w_conn w2)) →
  w_slices w1 = w_slices w2 →
  (handleSocks5Handshake w1).1 = (handleSocks5Handshake w2).1
  ∧ stream (w_conn (handleSocks5Handshake w1).2)
    = stream (w_conn (handleSocks5Handshake w2).2)
  ∧ tx (pc_conn (w_conn (handleSocks5Handshake w1).2))
    = tx (pc_conn (w_conn (handleSocks5Handshake w2).2))
  ∧ w_slices (handleSocks5Handshake w1).2 = w_slices (handleSocks5Handshake w2).2.
Proof.
  intros Hst Htx Hb He Hsl.
  assert (view_of w1 = view_of w2) as Hv by (unfold view_of; congruence).
  destruct (observes_handleSocks5Handshake w1 w2 Hv) as [Hr Hv'].
  split; [done|].
  apply (f_equal v_pending) in Hv' as Hp'.
  apply (f_equal v_sent) in Hv' as Hs'.
  apply (f_equal v_slices) in Hv' as Hsl'. done.
Qed.

Lemma handshake_ignores_segmentation_witness :
  (handleSocks5Handshake
     {| w_conn := NewPeekConn socks5_client; w_slices := [] |}).1
  = (handleSocks5Handshake
       {| w_conn :=
            {| pc_conn := {| rx := [[x04]; [x69; x64; x65; x76; x00; x50; x47]; [x45; x54]];
                             rx_end := EOF; tx := []; tx_budget := None |};
               pc_buffered := [x05; x01; x00; x05; x01; x00; x03] |};
          w_slices := [] |}).1.
Proof.
  apply (handshake_ignores_segmentation
           {| w_conn := NewPeekConn socks5_client; w_slices := [] |}
           {| w_conn :=
                {| pc_conn := {| rx := [[x04]; [x69; x64; x65; x76; x00; x50; x47]; [x45; x54]];
                                 rx_end := EOF; tx := []; tx_budget := None |};
                   pc_buffered := [x05; x01; x00; x05; x01; x00; x03] |};
              w_slices := [] |}); reflexivity.
Defined.
(** ** [handleConnection] on every connection *)

(** X9: Whatever the connection delivers and whichever case the select takes,
    [handleConnection] does not panic, and the connection it forwards or
    closes has lost only bytes from the front of its stream.  A connection
    is forwarded only when the select sends it, and then either its first
    byte is not 0x05 and it is untouched, or the method selection and the
    reply, and nothing else, were written to it.  A connection that is
    closed has got nothing, or the method selection only, or, when the
    select took the closed case, the method selection and the reply. *)
Theorem handleConnection_outcomes (rawConn : Conn) (sel : select_case) :
  match handleConnection rawConn sel with
  | Forwarded conn =>
      sel = case_send
      ∧ (∃ used, concat (rx rawConn) = used ++ stream conn)
      ∧ match concat (rx rawConn) with
        | [] => False
        | b :: _ =>
            if decide (b = x05) then
              tx (pc_conn conn) = tx rawConn ++ [[x05; x00]; response]
            else tx (pc_conn conn) = tx rawConn ∧ stream conn = concat (rx rawConn)
        end
  | Closed conn =>
      (∃ used, concat (rx rawConn) = used ++ stream conn)
      ∧ (tx (pc_conn conn) = tx rawConn
         ∨ tx (pc_conn conn) = tx rawConn ++ [[x05; x00]]
         ∨ (sel = case_closed
            ∧ tx (pc_conn conn) = tx rawConn ++ [[x05; x00]; response]))
  | Crashed => False
  end.
Proof.
  destruct (handleConnection_peek rawConn sel) as (conn & (Htx & _ & _) & Hst & ->).
  destruct (concat (rx rawConn)) as [|b s] eqn:Hrx.
  { split; [exists []; by rewrite Hst|]. by left. }
  destruct (Byte.eqb b x05) eqn:Hb.
  - apply Byte.byte_dec_bl in Hb as ->.
    pose proof (handleSocks5Handshake_effects {| w_conn := conn; w_slices := [] |})
      as H.
    unfold wp in H.
    destruct (handleSocks5Handshake {| w_conn := conn; w_slices := [] |}) as [r w'].
    cbn [fst snd view_of v_pending v_sent v_end v_budget w_conn] in H.
    destruct H as (_ & Hused & H). rewrite Hst in Hused.
    destruct r as [[]|e|]; [| |done].
    2:{ split; [done|]. rewrite <- Htx. destruct H as [H|H]; auto. }
    destruct H as (Hsent & _). rewrite Htx in Hsent.
    destruct sel.
    + split; [done|]. split; [done|]. by rewrite decide_True.
    + split; [done|]. right. right. done.
  - assert (b ≠ x05) as Hne.
    { intros ->. by rewrite Byte_eqb_refl in Hb. }
    destruct sel; cbn [w_conn].
    + split; [done|]. split; [exists []; by rewrite Hst|].
      by rewrite decide_False.
    + split; [exists []; by rewrite Hst|]. by left.
Qed.

(** X10: A connection that ends before it has delivered a byte is closed; no
    byte is written to it. *)
Theorem silent_connection_is_closed (rawConn : Conn) (sel : select_case) :
  concat (rx rawConn) = [] →
  ∃ conn, handleConnection rawConn sel = Closed conn
    ∧ tx (pc_conn conn) = tx rawConn
    ∧ stream conn = [].
Proof.
  intros Hrx.
  destruct (handleConnection_peek rawConn sel) as (conn & (Htx & _ & _) & Hst & ->).
  rewrite Hrx in *. by exists conn.
Qed.

Lemma silent_connection_is_closed_witness :
  concat (rx {| rx := [[]; []]; rx_end := ErrNet "connection reset by peer";
                tx := []; tx_budget := None |}) = []
  ∧ ∃ conn,
      handleConnection {| rx := [[]; []]; rx_end := ErrNet "connection reset by peer";
                          tx := []; tx_budget := None |} case_send = Closed conn
      ∧ tx (pc_conn conn) = [].
Proof.
  split; [reflexivity|].
  destruct (silent_connection_is_closed
              {| rx := [[]; []]; rx_end := ErrNet "connection reset by peer";
                 tx := []; tx_budget := None |} case_send eq_refl)
    as (conn & E & Htx & _).
  exists conn. split; [exact E|exact Htx].
Defined.

(** X11: What [handleConnection] does with a connection depends on the bytes
    the connection delivers, not on the segments they arrive in: two
    connections with the same bytes to come, the same final error and
    sockets that accept the same writes are both forwarded or both closed,
    after the same writes and with the same bytes left. *)
Theorem handleConnection_ignores_segmentation (rawConn1 rawConn2 : Conn)
    (sel : select_case) :
  concat (rx rawConn1) = concat (rx rawConn2) →
  rx_end rawConn1 = rx_end rawConn2 →
  tx rawConn1 = tx rawConn2 →
  tx_budget rawConn1 = tx_budget rawConn2 →
  disposition_view (handleConnection rawConn1 sel)
  = disposition_view (handleConnection rawConn2 sel).
Proof.
  intros Hrx Hend Htx Hb.
  destruct (handleConnection_peek rawConn1 sel)
    as (conn1 & (Htx1 & Hb1 & He1) & Hst1 & ->).
  destruct (handleConnection_peek rawConn2 sel)
    as (conn2 & (Htx2 & Hb2 & He2) & Hst2 & ->).
  assert (conn_view conn1 = conn_view conn2) as Hv.
  { unfold conn_view, view_of. cbn [w_conn w_slices]. congruence. }
  rewrite <- Hrx. destruct (concat (rx rawConn1)) as [|b s].
  { cbn [disposition_view]. by rewrite Hv. }
  destruct (Byte.eqb b x05).
  - destruct (observes_handleSocks5Handshake
                {| w_conn := conn1; w_slices := [] |}
                {| w_conn := conn2; w_slices := [] |} Hv) as [Hr Hv'].
    destruct (handleSocks5Handshake {| w_conn := conn1; w_slices := [] |})
      as [r1 w1].
    destruct (handleSocks5Handshake {| w_conn := conn2; w_slices := [] |})
      as [r2 w2].
    cbn [fst snd] in Hr, Hv'. subst r2.
    assert (conn_view (w_conn w1) = conn_view (w_conn w2)) as Hv''.
    { unfold conn_view, view_of in *. cbn [w_conn w_slices] in *. congruence. }
    destruct r1 as [[]|e|]; [destruct sel| |]; cbn [disposition_view];
      by rewrite ?Hv''.
  - destruct sel; cbn [disposition_view w_conn]; by rewrite Hv.
Qed.

Lemma handleConnection_ignores_segmentation_witness :
  disposition_view (handleConnection socks5_client case_send)
  = disposition_view
      (handleConnection
         {| rx := [[x05; x01; x00; x05; x01; x00; x03; x04; x69; x64; x65; x76;
                    x00; x50; x47; x45; x54]];
            rx_end := EOF; tx := []; tx_budget := None |} case_send).
Proof.
  apply (handleConnection_ignores_segmentation socks5_client
           {| rx := [[x05; x01; x00; x05; x01; x00; x03; x04; x69; x64; x65; x76;
                      x00; x50; x47; x45; x54]];
              rx_end := EOF; tx := []; tx_budget := None |} case_send);
    reflexivity.
Defined.
(** X12: The errors of the reads after the request header are returned as they
    are, without a text around them.  When the stream ends inside the
    address or the port of a CONNECT request, the handshake has written
    the method selection and read the stream to its end, and its error is
    that of the slice that came short, of the slices of the address and
    the two bytes of the port read one after the other: the error that
    ended the stream when no byte of that slice had arrived, io.EOF after an
    orderly shutdown, and io.ErrUnexpectedEOF in place of io.EOF when some
    had. *)
Theorem request_cut_short (w : world) methods ver rsv atyp body sizes :
  length methods ≤ 255 →
  stream (w_conn w) = greeting methods ++ ver :: x01 :: rsv :: atyp :: body →
  addr_slices atyp body = Some sizes →
  length body < total sizes + 2 →
  tx_budget (pc_conn (w_conn w)) ≠ Some 0 →
  let got := unfilled (sizes ++ [2]) body in
  let e := rx_end (pc_conn (w_conn w)) in
  ∃ w',
    handleSocks5Handshake w = (Raise (short_read got e), w')
    ∧ short_read got e
      = match got with
        | [] => e
        | _ :: _ => if is_EOF e then ErrUnexpectedEOF else e
        end
    ∧ tx (pc_conn (w_conn w')) = tx (pc_conn (w_conn w)) ++ [[x05; x00]]
    ∧ stream (w_conn w') = [].
Proof.
  intros Hm Hp Hsizes Hshort Hb got e.
  enough (wp handleSocks5Handshake (λ r w',
            r = Raise (short_read got (v_end (view_of w)))
            ∧ v_sent (view_of w') = v_sent (view_of w) ++ [[x05; x00]]
            ∧ v_pending (view_of w') = []) w) as H.
  { unfold wp in H. destruct (handleSocks5Handshake w) as [r w'].
    cbn [fst snd] in H. destruct H as (-> & Hs & Hp').
    by exists w'. }
  unfold handleSocks5Handshake. apply wp_bind.
  eapply wp_mono;
    [apply (clientGreeting_spec _ w x05 (len_byte (length methods)) methods
              (ver :: x01 :: rsv :: atyp :: body));
     [by rewrite length_replicate|exact Hp|by apply len_byte_to_nat]|].
  intros r w1. cbn beta. rewrite decide_True by done.
  intros [(buf1 & -> & Hbuf1) Hv1]. cbn iota.
  apply wp_bind. unfold serverChoice. apply wp_wrap, wp_Write_all_view.
  intros w2 Hp2 He2 Hsl2. rewrite Hv1 in *. view_simpl. split; [|done].
  intros _ Hs2 Hb2. apply wp_bind.
  eapply wp_mono with
    (Q := λ r w', r = Raise (short_read got (v_end (view_of w)))
            ∧ v_sent (view_of w') = v_sent (view_of w2)
            ∧ v_pending (view_of w') = []).
  2:{ intros r w' (-> & Hs & Hp').
      split; [done|]. split; [|done]. by rewrite Hs, Hs2. }
  unfold clientRequest. apply wp_bind, wp_wrap.
  apply (wp_ReadFull_slice_ok _ [ver; x01; rsv; atyp] body); [simpl; lia|done|].
  intros w3 Hv3. apply wp_bind. eapply wp_index; [reflexivity|].
  change (negb (Byte.eqb x01 x01)) with false. cbn iota.
  apply wp_bind. eapply wp_index; [reflexivity|].
  set (buf3 := [ver; x01; rsv; atyp] ++ drop (length [ver; x01; rsv; atyp]) buf1).
  assert (length buf3 = 258) as Hbuf3 by (subst buf3; len_solve).
  clearbody buf3.
  assert (∀ n rest buf4 w4,
            n ≤ 255 → length buf4 = 258 → unfilled [n; 2] rest = got →
            length rest < n + 2 →
            view_of w4 = {| v_pending := rest; v_sent := v_sent (view_of w2);
                            v_budget := v_budget (view_of w2);
                            v_end := v_end (view_of w);
                            v_slices := v_slices (view_of w4) |} →
            wp (ReadFull_slice buf4 n) (λ r w5,
              match r with
              | Done buf5 =>
                  wp (ReadFull_slice buf5 2) (λ r w',
                    r = Raise (short_read got (v_end (view_of w)))
                    ∧ v_sent (view_of w') = v_sent (view_of w2)
                    ∧ v_pending (view_of w') = []) w5
              | Raise e =>
                  @Raise (list byte) e = Raise (short_read got (v_end (view_of w)))
                  ∧ v_sent (view_of w5) = v_sent (view_of w2)
                  ∧ v_pending (view_of w5) = []
              | Panic =>
                  @Panic (list byte) = Raise (short_read got (v_end (view_of w)))
                  ∧ v_sent (view_of w5) = v_sent (view_of w2)
                  ∧ v_pending (view_of w5) = []
              end) w4) as Htail.
  { intros n rest buf4 w4 Hn Hbuf4 Hgot Hlen Hv4.
    eapply wp_ReadFull_slice_view; [lia|exact Hv4|..]; view_simpl.
    - intros Hfit w5 Hv5.
      eapply wp_ReadFull_slice_view; [len_solve|exact Hv5|..]; view_simpl.
      + intros Hfit'. rewrite length_drop in Hfit'. lia.
      + intros Hfit' w6 Hv6. rewrite Hv6. view_simpl.
        rewrite <- Hgot. cbn [unfilled].
        rewrite (proj2 (Nat.leb_le _ _) Hfit), (proj2 (Nat.leb_gt _ _) Hfit').
        done.
    - intros Hfit w5 Hv5. rewrite Hv5. view_simpl.
      rewrite <- Hgot. cbn [unfilled]. by rewrite (proj2 (Nat.leb_gt _ _) Hfit). }
  assert (view_of w3 = {| v_pending := body; v_sent := v_sent (view_of w2);
                          v_budget := v_budget (view_of w2);
                          v_end := v_end (view_of w);
                          v_slices := v_slices (view_of w3) |}) as Hv3'.
  { rewrite Hv3. view_simpl. by rewrite He2. }
  destruct (decide (atyp = x01)) as [->|H1];
    [|destruct (decide (atyp = x03)) as [->|H3];
      [|destruct (decide (atyp = x04)) as [->|H4]]].
  - injection Hsizes as <-. cbn [total] in Hshort. apply wp_bind.
    apply (Htail 4 body); [lia|done|done|lia|done].
  - cbn [addr_slices] in Hsizes. apply wp_bind, wp_bind.
    eapply wp_ReadFull_slice_view; [lia|exact Hv3'|..]; view_simpl.
    + intros Hfit w4 Hv4. destruct body as [|l name]; [cbn in Hfit; lia|].
      injection Hsizes as <-. cbn [total length] in Hshort.
      cbn [take drop app] in *. rewrite ?drop_0, ?take_0 in *.
      apply wp_bind. eapply wp_index; [reflexivity|].
      pose proof (Byte.to_nat_bounded l) as Hl.
      apply (Htail (Byte.to_nat l) name); [lia|len_solve|done|lia|].
      rewrite Hv4. done.
    + intros Hfit w4 Hv4. rewrite Hv4. view_simpl.
      destruct body as [|l name]; [|cbn in Hfit; lia].
      injection Hsizes as <-. done.
  - injection Hsizes as <-. cbn [total] in Hshort. apply wp_bind.
    apply (Htail 16 body); [lia|done|done|lia|done].
  - unfold addr_slices in Hsizes. by rewrite switch_atyp_default in Hsizes.
Qed.

Lemma request_cut_short_witness :
  (handleSocks5Handshake
     {| w_conn := NewPeekConn
          {| rx := [[x05; x01; x00]; [x05; x01; x00; x01]; [x7f; x00]];
             rx_end := EOF; tx := []; tx_budget := None |};
        w_slices := [] |}).1
  = Raise ErrUnexpectedEOF.
Proof.
  assert (length [x00] ≤ 255) as H1 by (simpl; lia).
  assert (length [x7f; x00] < total [4] + 2) as H2 by (simpl; lia).
  destruct (request_cut_short
              {| w_conn := NewPeekConn
                   {| rx := [[x05; x01; x00]; [x05; x01; x00; x01]; [x7f; x00]];
                      rx_end := EOF; tx := []; tx_budget := None |};
                 w_slices := [] |}
              [x00] x05 x00 x01 [x7f; x00] [4] H1 eq_refl eq_refl H2)
    as (w' & E & _); [done|].
  rewrite E. reflexivity.
Defined.
(** ** More on the redirect handler *)

Lemma handleRequest_server ps r :
  config (handleRequest ps r).1 = config ps
  ∧ shortLinkMap (handleRequest ps r).1 = shortLinkMap ps
  ∧ lastSyncTime (handleRequest ps r).1 = lastSyncTime ps
  ∧ requestCount (handleRequest ps r).1
    = if counted r then uint64_succ (requestCount ps) else requestCount ps.
Proof.
  unfold handleRequest, handleRequest_with, counted.
  destruct (String.eqb (Path (r_URL r)) "/check" || String.eqb (Path (r_URL r)) "/health");
    [done|].
  destruct (String.eqb (Path (r_URL r)) "/proxy.pac"); [done|]. cbn [orb negb].
  destruct (is_empty (r_Host r)); [done|].
  destruct (Split (r_Host r) ":" !! 0); [|done]. cbn [shortLinkMap].
  destruct (shortLinkMap ps !! _); [|done]. by destruct (url_Parse _).
Qed.

(** X13: [requestCount], a uint64, after any number of requests is the count
    before plus the number of requests that were not for /check, /health
    or /proxy.pac, modulo 2^64; handling requests changes nothing else of
    the server. *)
Theorem requests_are_counted (ps : ProxyServer) (requests : list Request) :
  (0 ≤ requestCount ps < 2 ^ 64)%Z →
  config (serve ps requests) = config ps
  ∧ shortLinkMap (serve ps requests) = shortLinkMap ps
  ∧ lastSyncTime (serve ps requests) = lastSyncTime ps
  ∧ requestCount (serve ps requests)
    = ((requestCount ps + Z.of_nat (length (filter (λ r, counted r = true) requests)))
       mod 2 ^ 64)%Z.
Proof.
  revert ps. induction requests as [|r requests IH]; intros ps Hrange.
  - cbn. rewrite Z.add_0_r, Z.mod_small by done. done.
  - unfold serve in *. cbn [foldl].
    destruct (handleRequest_server ps r) as (Hc & Hm & Ht & Hn).
    destruct (IH (handleRequest ps r).1) as (Hc' & Hm' & Ht' & Hn').
    { rewrite Hn. destruct (counted r); [|done]. unfold uint64_succ.
      apply Z.mod_pos_bound. lia. }
    split; [congruence|]. split; [congruence|]. split; [congruence|].
    rewrite Hn', Hn. destruct (counted r) eqn:Hr.
    + rewrite filter_cons_True by done. cbn [length]. unfold uint64_succ.
      rewrite Zplus_mod_idemp_l. f_equal. lia.
    + rewrite filter_cons_False by (by rewrite Hr). done.
Qed.

Lemma requests_are_counted_witness :
  (0 ≤ requestCount (server_with idev_table) < 2 ^ 64)%Z
  ∧ requestCount
      (serve (server_with idev_table)
         [request "GET" "idev" "/foo" EmptyString EmptyString;
          request "GET" "idev" "/check" EmptyString EmptyString;
          request "GET" EmptyString "/" EmptyString EmptyString])
    = 2%Z.
Proof.
  assert (0 ≤ requestCount (server_with idev_table) < 2 ^ 64)%Z as H
    by (cbn; lia).
  split; [exact H|].
  destruct (requests_are_counted (server_with idev_table)
              [request "GET" "idev" "/foo" EmptyString EmptyString;
               request "GET" "idev" "/check" EmptyString EmptyString;
               request "GET" EmptyString "/" EmptyString EmptyString] H)
    as (_ & _ & _ & ->).
  reflexivity.
Defined.

Lemma lower_byte_idem c : Ascii.eqb (lower_byte (lower_byte c)) (lower_byte c) = true.
Proof. revert c. apply all_ascii_spec. by vm_compute. Qed.

Lemma ToLower_idem s : ToLower (ToLower s) = ToLower s.
Proof.
  induction s as [|c s IH]; [done|]. cbn [ToLower]. rewrite IH. f_equal.
  by apply Ascii.eqb_eq, lower_byte_idem.
Qed.

Lemma lower_byte_colon :
  ∀ c, negb (Ascii.eqb c ":") = true → negb (Ascii.eqb (lower_byte c) ":") = true.
Proof. by_bytes. Qed.

Lemma without_colon_ToLower s : without ":" s = true → without ":" (ToLower s) = true.
Proof.
  intros H. unfold without. apply str_all_ToLower.
  eapply str_all_impl; [|exact H]. apply lower_byte_colon.
Qed.

Lemma strip_port_without s : without ":" s = true → strip_port s = s.
Proof. intros H. unfold strip_port. by rewrite Index_without. Qed.

Lemma strip_port_app s port :
  without ":" s = true → strip_port (s +:+ String ":" port) = s.
Proof.
  intros H. unfold strip_port. rewrite Index_first by done. apply str_take_app.
Qed.

(** X14: The host is looked up without its port and without regard to case: a
    request whose Host header is an ASCII name followed by a colon and
    anything gets the response, and leaves the server in the state, of the
    same request with the name in lower case and no port. *)
Theorem host_port_and_case_ignored (ps : ProxyServer) method url host port :
  is_empty host = false →
  str_all is_ascii host = true →
  without ":" host = true →
  handleRequest ps {| r_Method := method; r_Host := host +:+ String ":" port;
                      r_URL := url |}
  = handleRequest ps {| r_Method := method; r_Host := ToLower host; r_URL := url |}.
Proof.
  intros Hne _ Hcolon. unfold handleRequest, handleRequest_with. cbn [r_URL r_Host r_Method].
  destruct (String.eqb (Path url) "/check" || String.eqb (Path url) "/health");
    [done|].
  destruct (String.eqb (Path url) "/proxy.pac"); [done|].
  rewrite is_empty_ToLower, Hne.
  rewrite (is_empty_app_l host _ Hne).
  destruct (Split_colon_head (host +:+ String ":" port)) as [pieces ->].
  destruct (Split_colon_head (ToLower host)) as [pieces' ->].
  cbn [lookup list_lookup].
  rewrite strip_port_app by done.
  rewrite strip_port_without by (by apply without_colon_ToLower).
  rewrite ToLower_idem. cbn [shortLinkMap].
  destruct (shortLinkMap ps !! ToLower host) as [targetURL|]; [|done].
  destruct (url_Parse targetURL); [|done].
  unfold http_Redirect. cbn [r_URL r_Method]. done.
Qed.

Lemma host_port_and_case_ignored_witness :
  (is_empty "IDev" = false ∧ str_all is_ascii "IDev" = true
   ∧ without ":" "IDev" = true)
  ∧ ∃ w, (handleRequest (server_with idev_table)
            (request "GET" "IDev:8080" "/foo" "x=1" EmptyString)).2 = Wrote w
      ∧ w_Header w !! "Location" = Some "http://internal.example.com/app/foo?x=1".
Proof.
  split; [done|].
  change (request "GET" "IDev:8080" "/foo" "x=1" EmptyString)
    with {| r_Method := "GET"; r_Host := "IDev" +:+ String ":" "8080";
            r_URL := r_URL (request "GET" "IDev:8080" "/foo" "x=1" EmptyString) |}.
  rewrite (host_port_and_case_ignored (server_with idev_table) "GET" _ "IDev" "8080"
             eq_refl eq_refl eq_refl).
  eexists. split; [by vm_compute|]. by vm_compute.
Defined.
(** A stored target without protocol, "://" and anything, never parses. *)
Lemma url_Parse_no_scheme long : url_Parse ("://" +:+ long) = None.
Proof.
  unfold url_Parse, Cut.
  assert (without "#" "://" = true) as Hw by reflexivity.
  rewrite (Index_app_without "#" "://" long Hw).
  assert (∀ rest, parse ("://" +:+ rest) false = None) as Hparse.
  { intros rest. unfold parse. destruct (stringContainsCTLByte _); [done|].
    cbn [is_empty String.append andb]. done. }
  destruct (Index long "#") as [i|]; cbn [fmap option_fmap option_map].
  - rewrite (str_take_add_app "://" long i).
    by rewrite Hparse.
  - by rewrite Hparse.
Qed.

(** X15: A record without protocol makes its host unusable: whatever its long
    URL, every request for the host is answered with 500 and the body
    "Internal configuration error", and gets no Location. *)
Theorem missing_protocol_is_500 (ps : ProxyServer) (r : Request) long :
  counted r = true →
  is_empty (r_Host r) = false →
  shortLinkMap ps !! ToLower (strip_port (r_Host r)) = Some ("://" +:+ long) →
  ∃ w, (handleRequest ps r).2 = Wrote w
    ∧ w_Status w = 500
    ∧ w_Body w = "Internal configuration error" +:+ newline
    ∧ w_Header w !! "Location" = None.
Proof.
  unfold counted. intros Hc Hhost Hlookup. unfold handleRequest, handleRequest_with.
  apply negb_true_iff in Hc. apply orb_false_iff in Hc as [Hc ->]. rewrite Hc.
  rewrite Hhost. cbn [shortLinkMap].
  destruct (Split_colon_head (r_Host r)) as [pieces ->]. cbn [lookup list_lookup].
  rewrite Hlookup, url_Parse_no_scheme. eexists. split; [done|].
  split; [done|]. split; [done|]. cbn [http_Error w_Header newResponseWriter].
  by rewrite !lookup_insert_ne, lookup_empty.
Qed.

Lemma missing_protocol_is_500_witness :
  (counted (request "GET" "idev" "/foo" "x=1" EmptyString) = true
   ∧ is_empty (r_Host (request "GET" "idev" "/foo" "x=1" EmptyString)) = false)
  ∧ ∃ w, (handleRequest (server_with {[ "idev" := "://internal.example.com/app" ]})
            (request "GET" "idev" "/foo" "x=1" EmptyString)).2 = Wrote w
      ∧ w_Status w = 500.
Proof.
  split; [done|].
  destruct (missing_protocol_is_500
              (server_with {[ "idev" := "://internal.example.com/app" ]})
              (request "GET" "idev" "/foo" "x=1" EmptyString)
              "internal.example.com/app" eq_refl eq_refl)
    as (w & E & Hs & _); [by vm_compute|].
  exists w. split; [exact E|exact Hs].
Defined.

(** ** More on the table *)

Lemma foldl_addRecord_lookup k records : ∀ newMap,
  foldl addRecord newMap records !! k =
    match deciding_record k records with
    | Some record => Some (target_of record)
    | None => newMap !! k
    end.
Proof.
  unfold deciding_record.
  induction records as [|record records IH]; intros newMap; [done|].
  cbn [foldl]. rewrite IH, addRecord_usable.
  destruct (decide (usable record = true ∧ ToLower (ShortURL record) = k))
    as [[Hu Hk]|Hno].
  - rewrite filter_cons_True by done. rewrite last_cons.
    destruct (last (filter _ records)); [done|].
    by rewrite Hu, Hk, lookup_insert_eq.
  - rewrite filter_cons_False by done.
    destruct (last (filter _ records)); [done|].
    destruct (usable record) eqn:Hu; [|done].
    rewrite lookup_insert_ne; [done|]. intros Hk. by apply Hno.
Qed.

(** X16: After a load that returned nil of a document whose short URLs are
    ASCII, the entry for a key is decided by the last usable record of the
    document with that short URL in lower case: its protocol, "://", its
    long URL.  A key no usable record has is not in the table, whatever the
    table held before. *)
Theorem loaded_table_lookup (json_Unmarshal : string → APIResponse + error)
    (ReadFile : string → string + error) (now : Z) (ps : ProxyServer)
    body apiResp k :
  ReadFile (ConfigFile (config ps)) = inl body →
  json_Unmarshal body = inl apiResp →
  Forall (λ record, str_all is_ascii (ShortURL record) = true) (Data apiResp) →
  (loadMappingsFromFile json_Unmarshal ReadFile now ps).1 = None →
  shortLinkMap (loadMappingsFromFile json_Unmarshal ReadFile now ps).2 !! k
  = (λ record, Protocol record +:+ "://" +:+ LongURL record)
      <$> deciding_record k (Data apiResp).
Proof.
  intros Hfile Hjson _. unfold loadMappingsFromFile. rewrite Hfile, Hjson.
  destruct (negb (Success apiResp)); [done|].
  destruct (size _ =? 0); [done|]. intros _. cbn [snd shortLinkMap].
  rewrite foldl_addRecord_lookup, lookup_empty.
  by destruct (deciding_record k (Data apiResp)).
Qed.

Lemma loaded_table_lookup_witness :
  Forall (λ record, str_all is_ascii (ShortURL record) = true) (Data idev_document)
  ∧ (loadMappingsFromFile (λ _, inl idev_document) (λ _, inl EmptyString) 1
       (NewProxyServer {| Port := "80"; ConfigFile := "config.json" |})).1 = None
  ∧ shortLinkMap
      (loadMappingsFromFile (λ _, inl idev_document) (λ _, inl EmptyString) 1
         (NewProxyServer {| Port := "80"; ConfigFile := "config.json" |})).2 !! "idev"
    = Some "https://internal.example.com/app".
Proof.
  assert ((loadMappingsFromFile (λ _, inl idev_document) (λ _, inl EmptyString) 1
             (NewProxyServer {| Port := "80"; ConfigFile := "config.json" |})).1
          = None) as H by reflexivity.
  assert (Forall (λ record, str_all is_ascii (ShortURL record) = true)
            (Data idev_document)) as Ha by (repeat constructor).
  split; [exact Ha|]. split; [exact H|].
  rewrite (loaded_table_lookup (λ _, inl idev_document) (λ _, inl EmptyString) 1
             (NewProxyServer {| Port := "80"; ConfigFile := "config.json" |})
             EmptyString idev_document "idev" eq_refl eq_refl Ha H).
  reflexivity.
Defined.
Lemma deciding_record_Some k records record :
  deciding_record k records = Some record →
  record ∈ records ∧ usable record = true ∧ ToLower (ShortURL record) = k.
Proof.
  unfold deciding_record. intros H. apply last_Some_elem_of in H.
  apply list_elem_of_filter in H as [[Hu Hk] Hin]. done.
Qed.

Lemma deciding_record_is_Some k records record :
  record ∈ records → usable record = true → ToLower (ShortURL record) = k →
  is_Some (deciding_record k records).
Proof.
  intros Hin Hu Hk. unfold deciding_record.
  assert (record ∈ filter (λ record, usable record = true
                                     ∧ ToLower (ShortURL record) = k) records) as H
    by (by apply list_elem_of_filter).
  destruct (filter _ records) as [|x l] eqn:E; [by apply elem_of_nil in H|].
  rewrite last_is_Some. done.
Qed.

(** What holds of every entry of a table that was built from a document. *)
Lemma foldl_addRecord_entries records k v :
  foldl addRecord ∅ records !! k = Some v →
  ∃ record, record ∈ records ∧ usable record = true
    ∧ k = ToLower (ShortURL record) ∧ v = target_of record.
Proof.
  rewrite foldl_addRecord_lookup, lookup_empty.
  destruct (deciding_record k records) as [record|] eqn:E; [|done].
  intros [= <-]. apply deciding_record_Some in E as (Hin & Hu & Hk).
  by exists record.
Qed.

(** X17: Through any sequence of reloads, failed or not, and requests, from the
    server [NewProxyServer] returns: the configuration stays what it was;
    the request count stays a uint64; every key of the table is the
    lower-case form of a short URL that is not empty, and is not empty;
    and every target of the table is a protocol, "://" and a long URL that
    is not empty. *)
Theorem server_invariants (json_Unmarshal : string → APIResponse + error)
    (cfg : Config) (happenings : list happening) :
  let ps := foldl (after json_Unmarshal) (NewProxyServer cfg) happenings in
  config ps = cfg
  ∧ (0 ≤ requestCount ps < 2 ^ 64)%Z
  ∧ ∀ k v, shortLinkMap ps !! k = Some v →
      is_empty k = false
      ∧ ∃ short protocol long,
          k = ToLower short ∧ is_empty short = false
          ∧ v = protocol +:+ "://" +:+ long ∧ is_empty long = false.
Proof.
  cbn zeta.
  set (Inv := λ ps : ProxyServer,
         config ps = cfg
         ∧ (0 ≤ requestCount ps < 2 ^ 64)%Z
         ∧ ∀ k v, shortLinkMap ps !! k = Some v →
             is_empty k = false
             ∧ ∃ short protocol long,
                 k = ToLower short ∧ is_empty short = false
                 ∧ v = protocol +:+ "://" +:+ long ∧ is_empty long = false).
  enough (∀ hs ps, Inv ps → Inv (foldl (after json_Unmarshal) ps hs)) as H.
  { apply H. split; [done|]. split; [cbn; lia|]. intros k v. cbn.
    by rewrite lookup_empty. }
  induction hs as [|h hs IH]; intros ps HI; [done|].
  cbn [foldl]. apply IH. destruct HI as (Hc & Hn & Ht).
  destruct h as [ReadFile now|r]; cbn [after].
  - unfold reloadMappings, loadMappingsFromFile.
    destruct (ReadFile _) as [body|e]; [|done].
    destruct (json_Unmarshal body) as [apiResp|e]; [|done].
    destruct (negb (Success apiResp)); [done|].
    destruct (size _ =? 0); [done|]. cbn [snd].
    split; [done|]. split; [done|]. cbn [shortLinkMap]. intros k v Hkv.
    apply foldl_addRecord_entries in Hkv as (record & _ & Hu & -> & ->).
    unfold usable in Hu. apply andb_prop in Hu as [Hs Hl].
    apply negb_true_iff in Hs, Hl. rewrite is_empty_ToLower.
    split; [done|]. by exists (ShortURL record), (Protocol record), (LongURL record).
  - destruct (handleRequest_server ps r) as (Hc' & Hm' & _ & Hn').
    split; [congruence|]. split.
    + rewrite Hn'. destruct (counted r); [|done]. unfold uint64_succ.
      apply Z.mod_pos_bound. lia.
    + by rewrite Hm'.
Qed.

(** X18: After a load that succeeds, a request whose Host header is the short
    URL of a usable record, as the document spells it and without a colon
    in it, is not answered with 404 or 400: it gets a 302, or a 500 when
    the stored target does not parse. *)
Theorem loaded_host_is_served (json_Unmarshal : string → APIResponse + error)
    (ReadFile : string → string + error) (now : Z) (ps : ProxyServer)
    body apiResp record (r : Request) :
  ReadFile (ConfigFile (config ps)) = inl body →
  json_Unmarshal body = inl apiResp →
  Success apiResp = true →
  record ∈ Data apiResp →
  usable record = true →
  without ":" (ShortURL record) = true →
  r_Host r = ShortURL record →
  counted r = true →
  (loadMappingsFromFile json_Unmarshal ReadFile now ps).1 = None
  ∧ ∃ w, (handleRequest (loadMappingsFromFile json_Unmarshal ReadFile now ps).2 r).2
         = Wrote w
      ∧ (w_Status w = 302 ∨ w_Status w = 500).
Proof.
  intros Hfile Hjson Hok Hin Hu Hcolon Hhost Hc.
  destruct (deciding_record_is_Some (ToLower (ShortURL record)) _ _ Hin Hu eq_refl)
    as [winner Hw].
  assert (foldl addRecord ∅ (Data apiResp) !! ToLower (ShortURL record)
          = Some (target_of winner)) as Hlookup.
  { by rewrite foldl_addRecord_lookup, Hw. }
  unfold loadMappingsFromFile. rewrite Hfile, Hjson, Hok. cbn [negb].
  destruct (size (foldl addRecord ∅ (Data apiResp)) =? 0) eqn:Hsize.
  { apply Nat.eqb_eq, map_size_empty_iff in Hsize.
    by rewrite Hsize, lookup_empty in Hlookup. }
  cbn [fst snd]. split; [done|].
  unfold counted in Hc. apply negb_true_iff in Hc.
  apply orb_false_iff in Hc as [Hc Hpac].
  unfold handleRequest, handleRequest_with. rewrite Hc, Hpac, Hhost.
  unfold usable in Hu. apply andb_prop in Hu as [Hs _]. apply negb_true_iff in Hs.
  rewrite Hs. destruct (Split_colon_head (ShortURL record)) as [pieces ->].
  cbn [lookup list_lookup shortLinkMap]. rewrite strip_port_without by done.
  rewrite Hlookup. destruct (url_Parse (target_of winner)).
  - eexists. split; [done|]. by left.
  - eexists. split; [done|]. by right.
Qed.

Lemma loaded_host_is_served_witness :
  ∃ w, (handleRequest
          (loadMappingsFromFile (λ _, inl idev_document) (λ _, inl EmptyString) 1
             (NewProxyServer {| Port := "80"; ConfigFile := "config.json" |})).2
          (request "GET" "IDEV" "/foo" EmptyString EmptyString)).2 = Wrote w
    ∧ (w_Status w = 302 ∨ w_Status w = 500).
Proof.
  assert ({| ID := 2; ShortURL := "IDEV"; LongURL := "internal.example.com/app";
             Protocol := "https"; TicketID := EmptyString; UserID := None;
             Department := None; Username := None; AllowURIConcat := true |}
          ∈ Data idev_document) as Hin.
  { unfold idev_document. cbn [Data]. apply list_elem_of_further, list_elem_of_here. }
  exact (proj2 (loaded_host_is_served (λ _, inl idev_document) (λ _, inl EmptyString)
                  1 (NewProxyServer {| Port := "80"; ConfigFile := "config.json" |})
                  EmptyString idev_document _
                  (request "GET" "IDEV" "/foo" EmptyString EmptyString)
                  eq_refl eq_refl eq_refl Hin eq_refl eq_refl eq_refl eq_refl)).
Defined.
(** ** The PAC file and the samples of the status page *)

(** X19: The PAC file of a server configured from the environment: status 200,
    the PAC content type, and a body that sends host names without a dot
    to SOCKS5 and SOCKS proxies on 127.0.0.1 at the configured port.  The
    port is the value of PORT, or 80 when PORT is not set or empty; it is
    never empty, and it is written as it is. *)
Theorem pac_names_configured_port (env : gmap string string) (r : Request) :
  let port := match env !! "PORT" with
              | Some p => if is_empty p then "80" else p
              | None => "80"
              end in
  let w := handlePac (NewProxyServer (loadConfig env)) newResponseWriter r in
  is_empty port = false
  ∧ w_Status w = 200
  ∧ w_Header w !! "Content-Type" = Some "application/x-ns-proxy-autoconfig"
  ∧ w_Body w
    = "function FindProxyForURL(url, host) {" +:+ newline
      +:+ "    var safeHost = host.toLowerCase();" +:+ newline
      +:+ "    // If it's a plain hostname (no dots), use our proxy" +:+ newline
      +:+ "    if (safeHost.indexOf('.') === -1) {" +:+ newline
      +:+ "        return " +:+ String dquote "SOCKS5 127.0.0.1:" +:+ port
      +:+ "; SOCKS 127.0.0.1:" +:+ port +:+ "; DIRECT" +:+ String dquote ";"
      +:+ newline
      +:+ "    }" +:+ newline
      +:+ "    return " +:+ String dquote "DIRECT" +:+ String dquote ";" +:+ newline
      +:+ "}".
Proof.
  cbn zeta. unfold handlePac, loadConfig, NewProxyServer, Getenv.
  cbn [config Port].
  set (port := if is_empty (default EmptyString (env !! "PORT")) then "80"
               else default EmptyString (env !! "PORT")).
  assert (match env !! "PORT" with
          | Some p => if is_empty p then "80" else p
          | None => "80"
          end = port) as ->.
  { subst port. by destruct (env !! "PORT") as [[|c p]|]. }
  split.
  { subst port. by destruct (env !! "PORT") as [[|c p]|]. }
  clearbody port. split; [done|]. split; [done|].
  cbn [ResponseWriter_Write w_Body newResponseWriter].
  rewrite str_app_nil_l. reflexivity.
Qed.

Lemma sample_loop_spec entries : ∀ samples count,
  count = length samples →
  sample_loop entries samples count
  = samples
    ++ ((λ e : string * string, {[ "short" := e.1; "target" := e.2 ]})
          <$> take (5 - count) entries).
Proof.
  induction entries as [|[key value] entries IH]; intros samples count Hc.
  - cbn. by rewrite take_nil, app_nil_r.
  - cbn [sample_loop]. destruct (5 <=? count) eqn:Hfull.
    + apply Nat.leb_le in Hfull. replace (5 - count) with 0 by lia.
      by rewrite take_0, app_nil_r.
    + apply Nat.leb_gt in Hfull. rewrite IH by (rewrite length_app; simpl; lia).
      replace (5 - count) with (S (5 - (count + 1))) by lia.
      cbn [take fmap list_fmap]. by rewrite <- app_assoc.
Qed.

Lemma sample_inj (e1 e2 : string * string) :
  ({[ "short" := e1.1; "target" := e1.2 ]} : gmap string string)
  = {[ "short" := e2.1; "target" := e2.2 ]} → e1 = e2.
Proof.
  intros H. destruct e1 as [k1 v1], e2 as [k2 v2]. cbn [fst snd] in H.
  assert (({[ "short" := k1; "target" := v1 ]} : gmap string string) !! "short"
          = ({[ "short" := k2; "target" := v2 ]} : gmap string string) !! "short")
    as Hs by (by rewrite H).
  assert (({[ "short" := k1; "target" := v1 ]} : gmap string string) !! "target"
          = ({[ "short" := k2; "target" := v2 ]} : gmap string string) !! "target")
    as Ht by (by rewrite H).
  rewrite !lookup_insert_eq in Hs.
  rewrite !lookup_insert_ne, !lookup_singleton_eq in Ht by done.
  congruence.
Qed.

(** X20: The samples of the status page, whatever the order in which the table
    is ranged over: there are five of them, or as many as the table has
    entries when these are fewer; each is a mapping of the table, with its
    key as "short" and its target as "target"; and no mapping is sampled
    twice. *)
Theorem status_page_samples (table : gmap string string)
    (entries : list (string * string)) :
  entries ≡ₚ map_to_list table →
  length (handleCheck_samples entries) = 5 `min` size table
  ∧ NoDup (handleCheck_samples entries)
  ∧ ∀ sample, sample ∈ handleCheck_samples entries →
      ∃ key target, table !! key = Some target
        ∧ sample = {[ "short" := key; "target" := target ]}.
Proof.
  intros Hperm. unfold handleCheck_samples.
  rewrite sample_loop_spec by done. cbn [app]. rewrite Nat.sub_0_r.
  assert (NoDup entries) as Hnd.
  { rewrite Hperm. apply NoDup_map_to_list. }
  split; [|split].
  - rewrite length_fmap, length_take, Hperm, length_map_to_list. done.
  - apply NoDup_fmap_2_strong.
    + intros e1 e2 _ _. apply sample_inj.
    + eapply sublist_NoDup; [exact Hnd|apply sublist_take].
  - intros sample Hin. apply list_elem_of_fmap in Hin as ([key target] & -> & Hin).
    apply elem_of_take in Hin as (i & Hin & _).
    apply list_elem_of_lookup_2 in Hin. rewrite Hperm in Hin.
    apply elem_of_map_to_list in Hin. by exists key, target.
Qed.

Lemma status_page_samples_witness :
  [("idev", "http://internal.example.com/app")] ≡ₚ map_to_list idev_table
  ∧ handleCheck_samples [("idev", "http://internal.example.com/app")]
    = [ {[ "short" := "idev"; "target" := "http://internal.example.com/app" ]} ]
  ∧ length (handleCheck_samples [("idev", "http://internal.example.com/app")]) = 1.
Proof.
  assert ([("idev", "http://internal.example.com/app")] ≡ₚ map_to_list idev_table)
    as H by (unfold idev_table; by rewrite map_to_list_singleton).
  split; [exact H|]. split; [reflexivity|].
  destruct (status_page_samples idev_table _ H) as (Hlen & _).
  rewrite Hlen. unfold idev_table. by rewrite map_size_singleton.
Defined.
(** ** Connections are neither lost nor duplicated *)

Section ListenerConservation.

Context {conn_t : Type}.
Implicit Types (s : system conn_t) (g : goroutine conn_t) (tr : list (event conn_t)).
Implicit Types (gs : list (goroutine conn_t)).

Lemma accepted_app tr evs : accepted (tr ++ evs) = accepted tr ++ accepted evs.
Proof. apply omap_app. Qed.

Lemma sent_app tr evs : sent (tr ++ evs) = sent tr ++ sent evs.
Proof. apply omap_app. Qed.

Lemma closed_by_sender_app tr evs :
  closed_by_sender (tr ++ evs) = closed_by_sender tr ++ closed_by_sender evs.
Proof. apply omap_app. Qed.

Lemma to_submit_next_call g :
  to_submit g
  = match head (g_script g) with
    | Some (CallSubmit c) => [c]
    | _ => []
    end ++ to_submit (next_call g).
Proof.
  unfold to_submit, next_call. cbn [g_script].
  by destruct (g_script g) as [|[|c|] rest].
Qed.

(** Replacing one goroutine changes what is pending by what that
    goroutine has to submit. *)
Lemma pending_insert gs : ∀ t g g1,
  gs !! t = Some g →
  pending (<[t := g1]> gs) ++ to_submit g ≡ₚ to_submit g1 ++ pending gs.
Proof.
  unfold pending. induction gs as [|g0 gs IH]; intros t g g1 Ht; [done|].
  destruct t as [|t].
  - injection Ht as ->. change (<[0:=g1]> (g :: gs)) with (g1 :: gs).
    rewrite !bind_cons.
    rewrite <- app_assoc. f_equiv. apply Permutation_app_comm.
  - change (<[S t:=g1]> (g0 :: gs)) with (g0 :: <[t:=g1]> gs).
    rewrite !bind_cons. rewrite <- app_assoc.
    rewrite (IH t g g1 Ht). apply Permutation_app_swap_app.
Qed.

Lemma pending_insert_same gs t g g1 :
  gs !! t = Some g → to_submit g1 = to_submit g →
  pending (<[t := g1]> gs) ≡ₚ pending gs.
Proof.
  intros Ht Hsame. pose proof (pending_insert gs t g g1 Ht) as H.
  rewrite Hsame, (Permutation_app_comm (to_submit g)) in H.
  by apply Permutation_app_inv_r in H.
Qed.

Lemma pending_insert_sent gs t g c :
  gs !! t = Some g → head (g_script g) = Some (CallSubmit c) →
  c :: pending (<[t := next_call g]> gs) ≡ₚ pending gs.
Proof.
  intros Ht Hhead. pose proof (pending_insert gs t g (next_call g) Ht) as H.
  rewrite (to_submit_next_call g), Hhead in H. cbn [app] in H.
  rewrite <- Permutation_middle in H.
  rewrite (Permutation_app_comm (to_submit (next_call g))) in H.
  by apply (Permutation_app_inv_r _ (c :: _)) in H.
Qed.

Lemma pending_insert_other gs t g :
  gs !! t = Some g →
  match head (g_script g) with Some (CallSubmit _) => False | _ => True end →
  pending (<[t := next_call g]> gs) ≡ₚ pending gs.
Proof.
  intros Ht Hhead. eapply pending_insert_same; [done|].
  rewrite (to_submit_next_call g). by destruct (head (g_script g)) as [[| |]|].
Qed.

Lemma wake_connections k g :
  script_ok g →
  accepted (wake_event k g) = [] ∧ sent (wake_event k g) = []
  ∧ closed_by_sender (wake_event k g) ++ to_submit (wake g) = to_submit g.
Proof.
  unfold script_ok, wake_event, wake. intros Hg.
  destruct (g_pc g); try done.
  - split; [done|]. split; [done|]. by rewrite (to_submit_next_call g), Hg.
  - split; [done|]. split; [done|]. by rewrite (to_submit_next_call g), Hg.
Qed.

(** What a wake-up does to the connections. *)
Lemma wake_events_connections gs : ∀ k,
  (∀ t g, gs !! t = Some g → script_ok g) →
  accepted (concat (imap (λ t, wake_event (k + t)) gs)) = []
  ∧ sent (concat (imap (λ t, wake_event (k + t)) gs)) = []
  ∧ closed_by_sender (concat (imap (λ t, wake_event (k + t)) gs))
    ++ pending (wake <$> gs) ≡ₚ pending gs.
Proof.
  induction gs as [|g gs IH]; intros k Hok; [done|].
  cbn [imap concat fmap list_fmap].
  assert (imap ((λ t, wake_event (k + t)) ∘ S) gs
          = imap (λ t, wake_event (S k + t)) gs) as ->
    by (apply imap_ext; intros i x _; cbn; f_equal; lia).
  destruct (IH (S k)) as (Ha & Hs & Hp).
  { intros t g' Ht. by apply (Hok (S t)). }
  destruct (wake_connections (k + 0) g (Hok 0 g eq_refl)) as (Ha0 & Hs0 & Hp0).
  rewrite accepted_app, sent_app, closed_by_sender_app, Ha, Hs, Ha0, Hs0.
  split; [done|]. split; [done|].
  unfold pending in *. rewrite !bind_cons. rewrite <- Hp0, <- Hp.
  rewrite <- !app_assoc. f_equiv. apply Permutation_app_swap_app.
Qed.

Lemma scripts_ok_insert gs t g1 :
  (∀ u g, gs !! u = Some g → script_ok g) → script_ok g1 →
  ∀ u g, <[t := g1]> gs !! u = Some g → script_ok g.
Proof.
  intros Hgs Hg1 u g [(-> & -> & _)|(_ & Hu)]%list_lookup_insert_Some; eauto.
Qed.

Lemma moved_quietly s s' :
  trace s' = trace s → pending (goroutines s') ≡ₚ pending (goroutines s) →
  moved s s'.
Proof. intros Htr Hp. exists []. by rewrite app_nil_r. Qed.

(** Every step keeps the scripts in line and moves connections lawfully. *)
Lemma step_moves s t partner s' :
  (∀ u g, goroutines s !! u = Some g → script_ok g) →
  step t partner s = Some s' →
  (∀ u g, goroutines s' !! u = Some g → script_ok g) ∧ moved s s'.
Proof.
  intros Hok Hstep. unfold step in Hstep.
  destruct (panicked s); [done|].
  destruct (goroutines s !! t) as [g|] eqn:Hg; [|done].
  cbn [mbind option_bind] in Hstep.
  pose proof (Hok t g Hg) as Hsg. unfold script_ok in Hsg.
  destruct (g_pc g) eqn:Hpc.
  - (* before the first operation of a call *)
    destruct (g_script g) as [|[|c|] rest] eqn:Hsc; [done|..].
    + (* Accept *)
      destruct partner as [u|].
      * destruct (goroutines s !! u) as [gu|] eqn:Hu; [|done].
        cbn [mbind option_bind] in Hstep.
        destruct (g_pc gu) eqn:Hpcu; try done. injection Hstep as <-; cbn [goroutines].
        pose proof (Hok u gu Hu) as Hsu. unfold script_ok in Hsu.
        rewrite Hpcu in Hsu.
        assert (t ≠ u) as Htu by (intros ->; congruence).
        split; [apply scripts_ok_insert; [by apply scripts_ok_insert|done]|].
        eexists. split; [done|]. split; [done|]. cbn [goroutines sent closed_by_sender omap app].
        rewrite pending_insert_other;
          [|by rewrite list_lookup_insert_ne|by rewrite Hsc].
        by apply pending_insert_sent.
      * destruct (l_closed s).
        -- injection Hstep as <-; cbn [goroutines]. split; [by apply scripts_ok_insert|].
           eexists. split; [done|]. split; [done|]. cbn [goroutines sent closed_by_sender omap app].
           apply pending_insert_other; [done|by rewrite Hsc].
        -- destruct (existsb submit_parked (goroutines s)); [done|].
           injection Hstep as <-; cbn [goroutines]. split.
           ++ apply scripts_ok_insert; [done|]. unfold script_ok. cbn.
              by rewrite Hsc.
           ++ apply moved_quietly; [done|]. by eapply pending_insert_same.
    + (* the select of handleConnection *)
      destruct partner as [u|].
      * destruct (goroutines s !! u) as [gu|] eqn:Hu; [|done].
        cbn [mbind option_bind] in Hstep.
        destruct (g_pc gu) eqn:Hpcu; try done. injection Hstep as <-; cbn [goroutines].
        pose proof (Hok u gu Hu) as Hsu. unfold script_ok in Hsu.
        rewrite Hpcu in Hsu.
        assert (t ≠ u) as Htu by (intros ->; congruence).
        split; [apply scripts_ok_insert; [by apply scripts_ok_insert|done]|].
        eexists. split; [done|]. split; [done|]. cbn [goroutines sent closed_by_sender omap app].
        rewrite <- (pending_insert_other (goroutines s) u gu);
          [|done|by rewrite Hsu].
        apply pending_insert_sent; [by rewrite list_lookup_insert_ne|by rewrite Hsc].
      * destruct (l_closed s).
        -- injection Hstep as <-; cbn [goroutines]. split; [by apply scripts_ok_insert|].
           eexists. split; [done|]. split; [done|]. cbn [goroutines sent closed_by_sender omap app].
           apply pending_insert_sent; [done|by rewrite Hsc].
        -- destruct (existsb accept_parked (goroutines s)); [done|].
           injection Hstep as <-; cbn [goroutines]. split.
           ++ apply scripts_ok_insert; [done|]. unfold script_ok. cbn.
              by rewrite Hsc.
           ++ apply moved_quietly; [done|]. by eapply pending_insert_same.
    + (* Close *)
      destruct (l_closeMu s); [done|]. injection Hstep as <-; cbn [goroutines]. split.
      * apply scripts_ok_insert; [done|]. unfold script_ok. cbn. by rewrite Hsc.
      * apply moved_quietly; [done|]. by eapply pending_insert_same.
  - done.
  - done.
  - (* holds the mutex *)
    injection Hstep as <-; cbn [goroutines]. split.
    + apply scripts_ok_insert; [done|]. unfold script_ok. cbn.
      by destruct (l_closed s).
    + apply moved_quietly; [done|]. by eapply pending_insert_same.
  - (* about to close the channel *)
    destruct (l_closed s).
    + injection Hstep as <-; cbn [goroutines]. split; [done|]. by apply moved_quietly.
    + injection Hstep as <-; cbn [goroutines].
      assert ((wake <$> goroutines s) !! t = Some g) as Hwg.
      { rewrite list_lookup_fmap, Hg. cbn. unfold wake. by rewrite Hpc. }
      split.
      * apply scripts_ok_insert; [|by unfold script_ok].
        intros u gu Hu. rewrite list_lookup_fmap in Hu.
        destruct (goroutines s !! u) as [gu0|] eqn:Hu0; [|done].
        injection Hu as <-. pose proof (Hok u gu0 Hu0) as H0.
        unfold script_ok, wake in *. by destruct (g_pc gu0) eqn:E; cbn; rewrite ?E.
      * destruct (wake_events_connections (goroutines s) 0 Hok) as (Ha & Hs & Hp).
        assert (imap (λ t, wake_event (0 + t)) (goroutines s)
                = imap wake_event (goroutines s)) as Himap
          by (by apply imap_ext).
        rewrite Himap in Ha, Hs, Hp.
        eexists. split; [done|]. cbn [goroutines].
        change (accepted (EvFire t :: ?l)) with (accepted l).
        change (sent (EvFire t :: ?l)) with (sent l).
        change (closed_by_sender (EvFire t :: ?l)) with (closed_by_sender l).
        rewrite Ha, Hs. split; [done|]. cbn [app].
        rewrite <- Hp. f_equiv. by eapply pending_insert_same.
  - (* before the deferred Unlock *)
    injection Hstep as <-; cbn [goroutines]. split; [by apply scripts_ok_insert|].
    eexists. split; [done|]. split; [done|]. cbn [goroutines sent closed_by_sender omap app].
    apply pending_insert_other; [done|by rewrite Hsg].
Qed.

Lemma moved_refl s : moved s s.
Proof. by apply moved_quietly. Qed.

Lemma moved_trans s1 s2 s3 : moved s1 s2 → moved s2 s3 → moved s1 s3.
Proof.
  intros (evs1 & Htr1 & Ha1 & Hp1) (evs2 & Htr2 & Ha2 & Hp2).
  exists (evs1 ++ evs2). split; [by rewrite Htr2, Htr1, app_assoc|].
  rewrite accepted_app, sent_app, closed_by_sender_app.
  split; [congruence|]. rewrite <- Hp1, <- Hp2, <- !app_assoc.
  f_equiv. apply Permutation_app_swap_app.
Qed.

Lemma run_moves schedule : ∀ s,
  (∀ u g, goroutines s !! u = Some g → script_ok g) → moved s (run schedule s).
Proof.
  induction schedule as [|[t partner] schedule IH]; intros s Hok.
  { apply moved_refl. }
  cbn [run]. destruct (step t partner s) as [s'|] eqn:Hstep; [|by apply IH].
  destruct (step_moves s t partner s' Hok Hstep) as [Hok' Hmoved].
  eapply moved_trans; [exact Hmoved|]. by apply IH.
Qed.

End ListenerConservation.

(** X22: Whatever the goroutines do and however they are scheduled, no
    connection is lost and none is duplicated: the connections [Accept]
    has returned are the connections the selects of [handleConnection]
    have sent, in the same order; and the connections sent, the
    connections closed by their sender and the connections not yet
    submitted are together the connections of the scripts, each as often
    as it is there. *)
Theorem connections_are_conserved (conn_t : Type)
    (scripts : list (list (call conn_t))) (schedule : list (nat * option nat)) :
  let s := run schedule (NewChannelListener scripts) in
  accepted (trace s) = sent (trace s)
  ∧ sent (trace s) ++ closed_by_sender (trace s) ++ pending (goroutines s)
    ≡ₚ pending (goroutines (NewChannelListener scripts)).
Proof.
  intros s.
  destruct (run_moves schedule (NewChannelListener scripts)) as (evs & Htr & Ha & Hp).
  { intros u g Hu. cbn [goroutines NewChannelListener] in Hu.
    rewrite list_lookup_fmap in Hu. destruct (scripts !! u); [|done].
    injection Hu as <-. by unfold script_ok. }
  fold s in Htr, Hp. cbn [trace NewChannelListener app] in Htr.
  by rewrite Htr.
Qed.
(** ** The mutex of [Close] *)

Section ListenerMutex.

Context {conn_t : Type}.
Implicit Types (s : system conn_t) (g : goroutine conn_t).
Implicit Types (gs : list (goroutine conn_t)).

Lemma held_insert gs mu t g0 g1 :
  held gs mu → gs !! t = Some g0 →
  (in_Close (g_pc g0) = true → in_Close (g_pc g1) = true) →
  held (<[t := g1]> gs) mu.
Proof.
  destruct mu as [h|]; [|done]. intros (g & Hh & Hin) Ht Himp.
  destruct (decide (h = t)) as [->|Hne].
  - exists g1. split.
    + apply list_lookup_insert_eq. by eapply lookup_lt_Some.
    + apply Himp. congruence.
  - exists g. by rewrite list_lookup_insert_ne.
Qed.

Lemma held_wake gs mu : held gs mu → held (wake <$> gs) mu.
Proof.
  destruct mu as [h|]; [|done]. intros (g & Hh & Hin).
  exists (wake g). rewrite list_lookup_fmap, Hh. split; [done|].
  by rewrite wake_in_Close.
Qed.

Lemma step_holder s t partner s' :
  holder_ok s → step t partner s = Some s' → holder_ok s'.
Proof.
  unfold holder_ok. intros Hh Hstep. unfold step in Hstep.
  destruct (panicked s); [done|].
  destruct (goroutines s !! t) as [g|] eqn:Hg; [|done].
  cbn [mbind option_bind] in Hstep.
  destruct (g_pc g) eqn:Hpc.
  - destruct (g_script g) as [|[|c|] rest] eqn:Hsc; [done|..].
    + destruct partner as [u|].
      * destruct (goroutines s !! u) as [gu|] eqn:Hu; [|done].
        cbn [mbind option_bind] in Hstep.
        destruct (g_pc gu) eqn:Hpcu; try done.
        injection Hstep as <-; cbn [goroutines l_closeMu].
        assert (t ≠ u) as Htu by (intros ->; congruence).
        eapply held_insert; [eapply held_insert; [done|done|]| |].
        -- by rewrite Hpcu.
        -- by rewrite list_lookup_insert_ne.
        -- by rewrite Hpc.
      * destruct (l_closed s).
        -- injection Hstep as <-; cbn [goroutines l_closeMu].
           eapply held_insert; [done|done|by rewrite Hpc].
        -- destruct (existsb submit_parked (goroutines s)); [done|].
           injection Hstep as <-; cbn [goroutines l_closeMu].
           eapply held_insert; [done|done|by rewrite Hpc].
    + destruct partner as [u|].
      * destruct (goroutines s !! u) as [gu|] eqn:Hu; [|done].
        cbn [mbind option_bind] in Hstep.
        destruct (g_pc gu) eqn:Hpcu; try done.
        injection Hstep as <-; cbn [goroutines l_closeMu].
        assert (t ≠ u) as Htu by (intros ->; congruence).
        eapply held_insert; [eapply held_insert; [done|done|]| |].
        -- by rewrite Hpcu.
        -- by rewrite list_lookup_insert_ne.
        -- by rewrite Hpc.
      * destruct (l_closed s).
        -- injection Hstep as <-; cbn [goroutines l_closeMu].
           eapply held_insert; [done|done|by rewrite Hpc].
        -- destruct (existsb accept_parked (goroutines s)); [done|].
           injection Hstep as <-; cbn [goroutines l_closeMu].
           eapply held_insert; [done|done|by rewrite Hpc].
    + destruct (l_closeMu s); [done|].
      injection Hstep as <-; cbn [goroutines l_closeMu].
      exists (at_pc CloseLocked g). split; [|done].
      apply list_lookup_insert_eq. by eapply lookup_lt_Some.
  - done.
  - done.
  - injection Hstep as <-; cbn [goroutines l_closeMu].
    eapply held_insert; [done|done|]. intros _. by destruct (l_closed s).
  - destruct (l_closed s).
    + by injection Hstep as <-.
    + injection Hstep as <-; cbn [goroutines l_closeMu].
      eapply held_insert; [by apply held_wake| |done].
      rewrite list_lookup_fmap, Hg. done.
  - by injection Hstep as <-.
Qed.

Lemma run_holder schedule : ∀ s, holder_ok s → holder_ok (run schedule s).
Proof.
  induction schedule as [|[t partner] schedule IH]; intros s Hh; [done|].
  cbn [run]. apply IH. destruct (step t partner s) as [s'|] eqn:Hstep; [|done].
  by eapply step_holder.
Qed.

End ListenerMutex.

(** X23: In every state the goroutines can reach, [l.closeMu] is held exactly
    while a goroutine is between the Lock and the deferred Unlock of
    [Close]: when it is held, its holder is that goroutine, no other
    goroutine is inside [Close], and the holder can take its next step, so
    the mutex is released; when it is free, no goroutine is inside
    [Close]. *)
Theorem close_mutex_is_exclusive (conn_t : Type)
    (scripts : list (list (call conn_t))) (schedule : list (nat * option nat)) :
  let s := run schedule (NewChannelListener scripts) in
  match l_closeMu s with
  | Some h =>
      (∃ g, goroutines s !! h = Some g ∧ in_Close (g_pc g) = true)
      ∧ is_Some (step h None s)
      ∧ ∀ t g, goroutines s !! t = Some g → in_Close (g_pc g) = true → t = h
  | None => ∀ t g, goroutines s !! t = Some g → in_Close (g_pc g) = false
  end.
Proof.
  intros s.
  pose proof (run_ok schedule _ (NewChannelListener_ok scripts)) as Hok.
  pose proof (run_holder schedule (NewChannelListener scripts) I) as Hh.
  fold s in Hok, Hh. destruct Hok as (Hp & _ & _ & Hgs).
  unfold holder_ok, held in Hh.
  destruct (l_closeMu s) as [h|] eqn:Hmu.
  - destruct Hh as (g & Hg & Hin). split; [by exists g|]. split.
    + unfold step. rewrite Hp, Hg. cbn [mbind option_bind].
      destruct (g_pc g); try done. by destruct (l_closed s).
    + intros t g' Hg' Hin'. destruct (Hgs t g' Hg') as (_ & Hmu' & _).
      specialize (Hmu' Hin'). congruence.
  - intros t g Hg. destruct (Hgs t g Hg) as (_ & Hmu' & _).
    destruct (in_Close (g_pc g)); [|done]. by specialize (Hmu' eq_refl).
Qed.

(** One goroutine closes the listener while another tries to: the first
    holds the mutex, the second has not got past Lock. *)
Example close_mutex_run :
  let s := run [(0, None); (1, None); (0, None)]
             (NewChannelListener [[CallClose]; [@CallClose nat]]) in
  l_closeMu s = Some 0 ∧ g_pc <$> goroutines s = [CloseOpen; Ready].
Proof. done. Qed.
(** ** [Close] runs to its end *)

Section ListenerProgress.

Context {conn_t : Type}.
Implicit Types (s : system conn_t) (g : goroutine conn_t).
Implicit Types (tr : list (event conn_t)).












End ListenerProgress.

(** Three goroutines: one accepts twice, one submits connection 7, one
    closes twice.  The connection is delivered before the close; the
    second Accept returns net.ErrClosed and the second Close returns
    without closing the channel again. *)
Example listener_run :
  trace (run [(0, None); (1, Some 0); (2, None); (2, None); (2, None);
              (2, None); (0, None); (2, None); (2, None); (2, None)]
           (NewChannelListener
              [[CallAccept; CallAccept]; [CallSubmit 7]; [CallClose; CallClose]]))
  = [EvSubmit 1 7 true; EvAccept 0 (Some 7); EvFire 2; EvCloseReturn 2;
     EvAccept 0 None; EvCloseReturn 2].
Proof. reflexivity. Qed.

(** Two goroutines call Close, the second twice, and the first holds the
    mutex: all three calls return and the channel is closed once. *)
Example close_run :
  let s := run [(0, None); (0, None)]
             (NewChannelListener [[CallClose]; [CallClose; @CallClose nat]]) in
  let s' := run [(0, None); (0, None); (1, None); (1, None); (1, None);
                 (1, None); (1, None); (1, None)] s in
  (l_closeMu s = Some 0 ∧ g_pc <$> goroutines s = [CloseOpen; Ready])
  ∧ trace s' = [EvFire 0; EvCloseReturn 0; EvCloseReturn 1; EvCloseReturn 1]
  ∧ l_closed s' = true.
Proof. done. Qed.
